(** * MyPermobil-API: a model of the client and of its cache decorator

    The development follows the two source files of the package:
    [const.py] (endpoint and field tables, the derived field index) and
    [mypermobil.py] (validators, the session object, the [cacheable]
    decorator and the request helpers).

    Python dictionaries whose iteration order is observable are association
    lists; dictionaries used as plain maps ([ENDPOINT_LOOKUP], [CACHE],
    [CACHE_LOCKS]) are stdpp [gmap]s.  Python strings are [string]s whose
    characters are read as the code points 0..255. *)

From Stdlib Require Import ZArith Ascii String HexString.
From stdpp Require Import gmap strings list fin_maps.

Open Scope string_scope.

Set Warnings "-register-all".

(** ** const.py *)

Module Const.

Definition EMAIL_REGEX_SOURCE := "[^@]+@[^@]+\.[^@]+".

Definition GET_REGIONS := "https://cwcprod.permobil.com/api/v1/regions?includeFlags=on".
Definition GET_REGIONS_NO_FLAGS := "https://cwcprod.permobil.com/api/v1/regions".

Definition ENDPOINT_APPLICATIONLINKS := "/api/v1/users/applicationlinks".
Definition ENDPOINT_APPLICATIONAUTHENTICATIONS := "/api/v1/users/applicationauthentications".

Definition ENDPOINT_BATTERY_INFO := "/api/v1/products/battery-info".

Definition BATTERY_STATE_OF_HEALTH := "stateOfHealth".
Definition BATTERY_STATE_OF_CHARGE := "stateOfCharge".
Definition BATTERY_CHARGING := "charging".
Definition BATTERY_CHARGE_TIME_LEFT := "chargeTimeLeft".
Definition BATTERY_DISTANCE_LEFT := "distanceLeft".
Definition BATTERY_LOCAL_DISTANCE_LEFT := "localDistanceLeft".
Definition BATTERY_INDOOR_DRIVE_TIME := "indoorDriveTime".
Definition BATTERY_MAX_INDOOR_DRIVE_TIME := "maxIndoorDriveTime".
Definition BATTERY_DISTANCE_UNIT := "distanceUnit".
Definition BATTERY_MAX_AMPERE_HOURS := "maxAmpereHours".
Definition BATTERY_AMPERE_HOURS_LEFT := "ampereHoursLeft".
Definition BATTERY_MAX_DISTANCE_LEFT := "maxDistanceLeft".
Definition BATTERY_TIMESTAMP := "localTimestamp".
Definition BATTERY_LOCAL_TIMESTAMP := "localTimestamp".

Definition ENDPOINT_DAILY_USAGE := "/api/v1/products/voiceaccess/dailyusage".

Definition USAGE_DISTANCE := "distance".
Definition USAGE_DISTANCE_UNIT := "distanceUnit".
Definition USAGE_ADJUSTMENTS := "adjustments".

Definition ENDPOINT_VA_CHARGE_TIME := "/api/v1/products/voiceaccess/chargetime".

Definition CHARGE_TIME_UNKNOWN := "unknown".
Definition CHARGE_CHARGING_NOW := "chargingNow".
Definition CHARGE_CHARGE_TIME_LEFT := "chargeTimeLeft".
Definition CHARGE_CHARGE_TIME_LEFT_MINUTES := "minutes".
Definition CHARGE_CHARGE_TIME_LEFT_HOURS := "hours".

Definition ENDPOINT_VA_CHAIR_STATUS := "/api/v1/products/voiceaccess/chairstatus".

Definition STATUS_STATUS := "status".

Definition ENDPOINT_VA_USAGE_RECORDS := "/api/v1/products/voiceaccess/usagerecords".

Definition RECORDS_DISTANCE := "distanceRecord".
Definition RECORDS_DISTANCE_UNIT := "distanceUnit".
Definition RECORDS_DISTANCE_DATE := "distanceRecordDate".
Definition RECORDS_SEATING := "seatingRecord".
Definition RECORDS_SEATING_DATE := "seatingRecordDate".

Definition ENDPOINT_PRODUCTS := "/api/v1/products".

Definition PRODUCTS_ID := "_id".
Definition PRODUCTS_SERIAL := "WCSerial".
Definition PRODUCTS_BRAND_ID := "BrandId".
Definition PRODUCTS_MODEL := "Model".
Definition PRODUCTS_MANUFACTURED := "Manufactured".
Definition PRODUCTS_ICS_HARDWARE := "ICSHardware".
Definition PRODUCTS_STATUS := "Status".
Definition PRODUCTS_PREVIOUS_STATUS := "previousStatus".
Definition PRODUCTS_CUSTOMER_CODE := "customerCode".
Definition PRODUCTS_HIDE_GPS_POSITION := "hideGPSPosition".
Definition PRODUCTS_CONTRACT := "Contract".
Definition PRODUCTS_LIN_NODES := "LinNodes".
Definition PRODUCTS_LAST_UPDATED := "lastUpdated".
Definition PRODUCTS_MOST_RECENT := "mostRecent".
Definition PRODUCTS_BATTERY := "battery".
Definition PRODUCTS_SERVICE_AGREEMENTS := "serviceAgreements".
Definition PRODUCTS_CUSTOMIZATIONS := "customizations".
Definition PRODUCTS_FUNCTIONS := "functions".
Definition PRODUCTS_DELETED := "deleted".
Definition PRODUCTS_V := "__v".
Definition PRODUCTS_CREATED_AT := "createdAt".
Definition PRODUCTS_UPDATED_AT := "updatedAt".
Definition PRODUCTS_FIRST_USE := "FirstUse".
Definition PRODUCTS_TIMEZONE := "timezone".
Definition PRODUCTS_PC_SERIAL := "PCSerial".
Definition PRODUCTS_TELECOM := "telecom".
Definition PRODUCTS_UNIT_TYPE := "unitType".
Definition PRODUCTS_PERMOCELL_INFO := "permocellInfo".
Definition PRODUCTS_PUBLIC_KEY := "publicKey".
Definition PRODUCTS_PUBLIC_KEY_DATE := "publicKeyDate".
Definition PRODUCTS_CORRELATION_ID_COUNTER := "correlationIdCounter".
Definition PRODUCTS_CERTIFICATES := "certificates".

(** An element of one of the lists of [ITEM_LOOKUP]: a field name, or (under
    the products endpoint) a dictionary from a field name to a list of field
    names. *)
Inductive item : Type :=
  | IStr (name : string)
  | IDict (entries : list (string * list string)).

(** [isinstance(item, str)] *)
Definition is_str (i : item) : bool :=
  match i with IStr _ => true | IDict _ => false end.

(** A table in declaration order, as [ITEM_LOOKUP.items()] yields it. *)
Abbreviation table := (list (string * list item)).

Definition ITEM_LOOKUP : table :=
  [ (ENDPOINT_BATTERY_INFO,
      [ IStr BATTERY_STATE_OF_HEALTH; IStr BATTERY_STATE_OF_CHARGE;
        IStr BATTERY_CHARGING; IStr BATTERY_CHARGE_TIME_LEFT;
        IStr BATTERY_DISTANCE_LEFT; IStr BATTERY_LOCAL_DISTANCE_LEFT;
        IStr BATTERY_INDOOR_DRIVE_TIME; IStr BATTERY_MAX_INDOOR_DRIVE_TIME;
        IStr BATTERY_DISTANCE_UNIT; IStr BATTERY_MAX_AMPERE_HOURS;
        IStr BATTERY_AMPERE_HOURS_LEFT; IStr BATTERY_MAX_DISTANCE_LEFT;
        IStr BATTERY_TIMESTAMP; IStr BATTERY_LOCAL_TIMESTAMP ]);
    (ENDPOINT_DAILY_USAGE,
      [ IStr USAGE_DISTANCE; IStr USAGE_DISTANCE_UNIT; IStr USAGE_ADJUSTMENTS ]);
    (ENDPOINT_VA_CHARGE_TIME,
      [ IStr CHARGE_TIME_UNKNOWN; IStr CHARGE_CHARGING_NOW;
        IStr CHARGE_CHARGE_TIME_LEFT; IStr CHARGE_CHARGE_TIME_LEFT_MINUTES;
        IStr CHARGE_CHARGE_TIME_LEFT_HOURS ]);
    (ENDPOINT_VA_CHAIR_STATUS, [ IStr STATUS_STATUS ]);
    (ENDPOINT_VA_USAGE_RECORDS,
      [ IStr RECORDS_DISTANCE; IStr RECORDS_DISTANCE_UNIT;
        IStr RECORDS_DISTANCE_DATE; IStr RECORDS_SEATING;
        IStr RECORDS_SEATING_DATE ]);
    (ENDPOINT_PRODUCTS,
      [ IDict
          [ (PRODUCTS_ID,
              [ PRODUCTS_SERIAL; PRODUCTS_BRAND_ID; PRODUCTS_MODEL;
                PRODUCTS_MANUFACTURED; PRODUCTS_ICS_HARDWARE; PRODUCTS_STATUS;
                PRODUCTS_PREVIOUS_STATUS; PRODUCTS_CUSTOMER_CODE;
                PRODUCTS_HIDE_GPS_POSITION; PRODUCTS_CONTRACT;
                PRODUCTS_LIN_NODES; PRODUCTS_LAST_UPDATED; PRODUCTS_MOST_RECENT;
                PRODUCTS_BATTERY; PRODUCTS_SERVICE_AGREEMENTS;
                PRODUCTS_CUSTOMIZATIONS; PRODUCTS_FUNCTIONS; PRODUCTS_DELETED;
                PRODUCTS_V; PRODUCTS_CREATED_AT; PRODUCTS_UPDATED_AT;
                PRODUCTS_FIRST_USE; PRODUCTS_TIMEZONE; PRODUCTS_PC_SERIAL;
                PRODUCTS_TELECOM; PRODUCTS_UNIT_TYPE; PRODUCTS_PERMOCELL_INFO;
                PRODUCTS_PUBLIC_KEY; PRODUCTS_PUBLIC_KEY_DATE;
                PRODUCTS_CORRELATION_ID_COUNTER; PRODUCTS_CERTIFICATES ]) ] ])
  ].

(** [ITEM_LOOKUP[endpoint]]; [None] stands for the [KeyError]. *)
Fixpoint table_get (tbl : table) (endpoint : string) : option (list item) :=
  match tbl with
  | [] => None
  | (e, items) :: rest =>
      if String.eqb e endpoint then Some items else table_get rest endpoint
  end.

(** The (key, value) pairs the comprehension of [ENDPOINT_LOOKUP] produces,
    in the order it produces them:
    [for endpoint, items in list(tbl.items())[::-1] for item in items
     if isinstance(item, str)]. *)
Definition item_pairs (endpoint : string) (items : list item) : list (string * string) :=
  flat_map (fun i => match i with
                     | IStr name => [(name, endpoint)]
                     | IDict _ => []
                     end) items.

Definition comprehension_pairs (tbl : table) : list (string * string) :=
  flat_map (fun '(endpoint, items) => item_pairs endpoint items) (reverse tbl).

(** A dict comprehension stores its pairs one after the other; a later pair
    with the same key overwrites the earlier value. *)
Definition store_pairs (d : gmap string string) (ps : list (string * string))
    : gmap string string :=
  foldl (fun d '(k, v) => <[k := v]> d) d ps.

Definition dict_of_pairs (ps : list (string * string)) : gmap string string :=
  store_pairs ∅ ps.

Definition build_endpoint_lookup (tbl : table) : gmap string string :=
  dict_of_pairs (comprehension_pairs tbl).

Definition ENDPOINT_LOOKUP : gmap string string :=
  build_endpoint_lookup ITEM_LOOKUP.

(** [name in items], for a string [name] and a list of items: a string is
    never equal to a dictionary. *)
Definition item_in (name : string) (items : list item) : bool :=
  existsb (fun i => match i with
                    | IStr n => String.eqb name n
                    | IDict _ => false
                    end) items.

(** The endpoints that declare [name] as one of their fields, in declaration
    order. *)
Definition declaring (tbl : table) (name : string) : list string :=
  map fst (filter (fun ei => Is_true (item_in name (snd ei))) tbl).

Definition first_declaring (tbl : table) (name : string) : option string :=
  head (declaring tbl name).

Definition last_declaring (tbl : table) (name : string) : option string :=
  last (declaring tbl name).

End Const.

(** ** Library models: [re], [str] methods, [datetime] *)

(** The fragment of [re] that [EMAIL_REGEX] uses: a sequence of literal
    characters and of one-or-more repetitions of a negated one-character
    class. *)
Module Re.

Inductive atom : Type :=
  | Lit (c : ascii)        (* the character c, also written \c *)
  | NotPlus (c : ascii).   (* [^c]+ *)

(** [re.match(pattern, s) is not None]: the pattern matches a prefix of
    [s].  A repetition may give characters back, so every split is tried. *)
Fixpoint matches (pattern : list atom) (s : string) : bool :=
  match pattern with
  | [] => true
  | Lit c :: pattern' =>
      match s with
      | String x s' => Ascii.eqb x c && matches pattern' s'
      | EmptyString => false
      end
  | NotPlus c :: pattern' =>
      (fix plus (s : string) : bool :=
         match s with
         | String x s' => negb (Ascii.eqb x c) && (plus s' || matches pattern' s')
         | EmptyString => false
         end) s
  end.

End Re.

Module Str.

Definition code_point (c : ascii) : N := N_of_ascii c.

(** A character for which [str.isdigit] holds, among the code points
    0..255: the ASCII digits and the superscripts two, three and one. *)
Definition is_digit_char (c : ascii) : bool :=
  let n := code_point c in
  ((48 <=? n) && (n <=? 57) || (n =? 178) || (n =? 179) || (n =? 185))%N.

(** The characters the class [\d] of [re] accepts among the code points
    0..255, and their values. *)
Definition decimal_value (c : ascii) : option Z :=
  let n := code_point c in
  if ((48 <=? n) && (n <=? 57))%N then Some (Z.of_N n - 48)%Z else None.

Fixpoint all_chars (p : ascii -> bool) (s : string) : bool :=
  match s with
  | EmptyString => true
  | String c s' => p c && all_chars p s'
  end.

(** [s.isdigit()] *)
Definition isdigit (s : string) : bool :=
  match s with
  | EmptyString => false
  | _ => all_chars is_digit_char s
  end.

(** [s.startswith(p)] *)
Definition startswith (s p : string) : bool := String.prefix p s.

(** [len(s)] *)
Definition len (s : string) : Z := Z.of_nat (String.length s).

(** Truth value of an optional string: [None] and the empty string are
    false. *)
Definition truthy (s : option string) : bool :=
  match s with
  | None | Some EmptyString => false
  | Some _ => true
  end.

End Str.

Module Datetime.

#[local] Open Scope Z_scope.

(** A [datetime.datetime] without time zone. *)
Record datetime : Type := Datetime {
  year : Z; month : Z; day : Z;
  hour : Z; minute : Z; second : Z; microsecond : Z
}.

Definition MINYEAR := 1.
Definition MAXYEAR := 9999.
Definition MAXORDINAL := 3652059.

Definition is_leap (y : Z) : bool :=
  (y mod 4 =? 0) && (negb (y mod 100 =? 0) || (y mod 400 =? 0)).

Definition DAYS_IN_MONTH (m : Z) : Z :=
  match m with
  | 1 => 31 | 2 => 28 | 3 => 31 | 4 => 30 | 5 => 31 | 6 => 30
  | 7 => 31 | 8 => 31 | 9 => 30 | 10 => 31 | 11 => 30 | 12 => 31
  | _ => 0
  end.

Definition DAYS_BEFORE_MONTH (m : Z) : Z :=
  match m with
  | 1 => 0 | 2 => 31 | 3 => 59 | 4 => 90 | 5 => 120 | 6 => 151
  | 7 => 181 | 8 => 212 | 9 => 243 | 10 => 273 | 11 => 304 | 12 => 334
  | _ => 0
  end.

Definition days_before_year (y : Z) : Z :=
  let y := y - 1 in y * 365 + y / 4 - y / 100 + y / 400.

Definition days_in_month (y m : Z) : Z :=
  if (m =? 2) && is_leap y then 29 else DAYS_IN_MONTH m.

Definition days_before_month (y m : Z) : Z :=
  DAYS_BEFORE_MONTH m + (if (2 <? m) && is_leap y then 1 else 0).

Definition ymd2ord (y m d : Z) : Z :=
  days_before_year y + days_before_month y m + d.

Definition DI400Y := 146097.
Definition DI100Y := 36524.
Definition DI4Y := 1461.

Definition ord2ymd (n : Z) : Z * Z * Z :=
  let n := n - 1 in
  let n400 := n / DI400Y in let n := n mod DI400Y in
  let y := n400 * 400 + 1 in
  let n100 := n / DI100Y in let n := n mod DI100Y in
  let n4 := n / DI4Y in let n := n mod DI4Y in
  let n1 := n / 365 in let n := n mod 365 in
  let y := y + n100 * 100 + n4 * 4 + n1 in
  if (n1 =? 4) || (n100 =? 4) then (y - 1, 12, 31)
  else
    let leapyear := (n1 =? 3) && (negb (n4 =? 24) || (n100 =? 3)) in
    let m := Z.shiftr (n + 50) 5 in
    let preceding :=
      DAYS_BEFORE_MONTH m + (if (2 <? m) && leapyear then 1 else 0) in
    if n <? preceding then
      let m := m - 1 in
      let preceding :=
        preceding - (DAYS_IN_MONTH m + (if (m =? 2) && leapyear then 1 else 0)) in
      (y, m, n - preceding + 1)
    else (y, m, n - preceding + 1).

Definition toordinal (t : datetime) : Z := ymd2ord (year t) (month t) (day t).

(** The constructor's range check on the date fields ([ValueError]). *)
Definition valid_date (y m d : Z) : bool :=
  (MINYEAR <=? y) && (y <=? MAXYEAR) && (1 <=? m) && (m <=? 12)
  && (1 <=? d) && (d <=? days_in_month y m).

(** [t + datetime.timedelta(days=n)]; [None] is the [OverflowError] raised
    when the date leaves the supported range. *)
Definition add_days (t : datetime) (n : Z) : option datetime :=
  let o := toordinal t + n in
  if (1 <=? o) && (o <=? MAXORDINAL) then
    let '(y, m, d) := ord2ymd o in
    Some (Datetime y m d (hour t) (minute t) (second t) (microsecond t))
  else None.

(** [a < b]: the fields are compared in order. *)
Definition fields (t : datetime) : list Z :=
  [year t; month t; day t; hour t; minute t; second t; microsecond t].

Fixpoint list_lt (a b : list Z) : bool :=
  match a, b with
  | x :: a', y :: b' => (x <? y) || ((x =? y) && list_lt a' b')
  | [], _ :: _ => true
  | _, [] => false
  end.

Definition lt (a b : datetime) : bool := list_lt (fields a) (fields b).

(** Decimal digits, zero-padded to [width] characters. *)
Definition digit_char (d : Z) : ascii := ascii_of_N (Z.to_N (48 + d mod 10)).

Fixpoint zero_padded (width : nat) (n : Z) : string :=
  match width with
  | O => EmptyString
  | S w => zero_padded w (n / 10) ++ String (digit_char n) EmptyString
  end.

(** [t.strftime("%Y-%m-%d")], for the years 1000 to 9999 on which every
    platform prints four digits. *)
Definition strftime_ymd (t : datetime) : string :=
  zero_padded 4 (year t) ++ "-" ++ zero_padded 2 (month t) ++ "-"
  ++ zero_padded 2 (day t).

(** [datetime.strptime(s, "%Y-%m-%d")].  The format compiles to the
    pattern [(\d\d\d\d)-(1[0-2]|0[1-9]|[1-9])-(3[01]|[12]\d|0[1-9]|[1-9]| [1-9])];
    the alternatives of a group are tried in order, the whole string must
    be consumed, and the fields must be a date. *)
Definition digit_in (lo hi : Z) (c : ascii) : option Z :=
  match Str.decimal_value c with
  | Some v => if (lo <=? v) && (v <=? hi) then Some v else None
  | None => None
  end.

Definition two_chars (first : ascii -> option Z) (second : ascii -> option Z)
    (value : Z -> Z -> Z) (s : string) : list (Z * string) :=
  match s with
  | String a (String b rest) =>
      match first a, second b with
      | Some x, Some y => [(value x y, rest)]
      | _, _ => []
      end
  | _ => []
  end.

Definition one_char (first : ascii -> option Z) (s : string) : list (Z * string) :=
  match s with
  | String a rest =>
      match first a with
      | Some x => [(x, rest)]
      | None => []
      end
  | _ => []
  end.

Definition space (c : ascii) : option Z :=
  if Ascii.eqb c " " then Some 0 else None.

Definition month_group (s : string) : list (Z * string) :=
  two_chars (digit_in 1 1) (digit_in 0 2) (fun x y => 10 * x + y) s
  ++ two_chars (digit_in 0 0) (digit_in 1 9) (fun x y => y) s
  ++ one_char (digit_in 1 9) s.

Definition day_group (s : string) : list (Z * string) :=
  two_chars (digit_in 3 3) (digit_in 0 1) (fun x y => 10 * x + y) s
  ++ two_chars (digit_in 1 2) (digit_in 0 9) (fun x y => 10 * x + y) s
  ++ two_chars (digit_in 0 0) (digit_in 1 9) (fun x y => y) s
  ++ one_char (digit_in 1 9) s
  ++ two_chars space (digit_in 1 9) (fun x y => y) s.

Definition year_group (s : string) : list (Z * string) :=
  match s with
  | String a (String b (String c (String d rest))) =>
      match Str.decimal_value a, Str.decimal_value b,
            Str.decimal_value c, Str.decimal_value d with
      | Some x, Some y, Some z, Some w =>
          [(1000 * x + 100 * y + 10 * z + w, rest)]
      | _, _, _, _ => []
      end
  | _ => []
  end.

Definition dash (s : string) : list string :=
  match s with
  | String c rest => if Ascii.eqb c "-" then [rest] else []
  | EmptyString => []
  end.

(** All the ways the pattern matches a prefix of [s], the preferred one
    first: the fields read and what is left of the string. *)
Definition strptime_matches (s : string) : list (Z * Z * Z * string) :=
  '(y, s1) ← year_group s;
  s2 ← dash s1;
  '(m, s3) ← month_group s2;
  s4 ← dash s3;
  '(d, s5) ← day_group s4;
  [(y, m, d, s5)].

Definition strptime_ymd (s : string) : option datetime :=
  match strptime_matches s with
  | (y, m, d, EmptyString) :: _ =>
      if valid_date y m d then Some (Datetime y m d 0 0 0 0) else None
  | _ => None
  end.

End Datetime.


(** [repr] and [str] of the objects a cacheable operation is called with:
    the client object (which defines [__str__] only, so that its [repr] is
    the default one, with the address of the object), [None], booleans,
    strings, and dictionaries from strings to these, such as the request
    headers. *)
Module Repr.

Inductive atom : Type :=
  | ANone
  | ABool (b : bool)
  | AStr (s : string)
  | AObject (address : N).

Inductive value : Type :=
  | Atom (a : atom)
  | Dict (entries : list (string * atom)).

Definition single_quote : ascii := ascii_of_N 39.
Definition double_quote : ascii := ascii_of_N 34.
Definition backslash : ascii := ascii_of_N 92.

Fixpoint contains (c : ascii) (s : string) : bool :=
  match s with
  | EmptyString => false
  | String x s' => Ascii.eqb x c || contains c s'
  end.

(** The quote [repr] encloses a string in: double quotes when the string
    holds a single quote and no double quote, single quotes otherwise. *)
Definition quote_of (s : string) : ascii :=
  if contains single_quote s && negb (contains double_quote s)
  then double_quote else single_quote.

Definition hex_digit (n : N) : ascii :=
  match n with
  | 0 => "0" | 1 => "1" | 2 => "2" | 3 => "3" | 4 => "4" | 5 => "5"
  | 6 => "6" | 7 => "7" | 8 => "8" | 9 => "9" | 10 => "a" | 11 => "b"
  | 12 => "c" | 13 => "d" | 14 => "e" | _ => "f"
  end%N%char.



(** The code points below 256 that [repr] prints as they are. *)
Definition printable (n : N) : bool :=
  ((32 <=? n) && (n <? 127) || (161 <=? n) && negb (n =? 173))%N.

(** One character of a string, as [repr] writes it between quotes [q]. *)
Definition escape_char (q c : ascii) : string :=
  let n := N_of_ascii c in
  if Ascii.eqb c q || Ascii.eqb c backslash then String backslash (String c "")
  else if (n =? 9)%N then String backslash "t"
  else if (n =? 10)%N then String backslash "n"
  else if (n =? 13)%N then String backslash "r"
  else if printable n then String c ""
  else String backslash
         (String "x" (String (hex_digit (n / 16)) (String (hex_digit (n mod 16)) ""))).

(** The character a string literal starts with, and the rest of the
    literal: the reading that [escape_char] is written for. *)
Definition hex_value (c : ascii) : option N :=
  let n := N_of_ascii c in
  if ((48 <=? n) && (n <=? 57))%N then Some (n - 48)%N
  else if ((97 <=? n) && (n <=? 102))%N then Some (n - 87)%N
  else None.

Definition unescape_char (s : string) : option (ascii * string) :=
  match s with
  | EmptyString => None
  | String c rest =>
      if Ascii.eqb c backslash then
        match rest with
        | EmptyString => None
        | String e rest' =>
            if Ascii.eqb e "t" then Some (ascii_of_N 9, rest')
            else if Ascii.eqb e "n" then Some (ascii_of_N 10, rest')
            else if Ascii.eqb e "r" then Some (ascii_of_N 13, rest')
            else if Ascii.eqb e "x" then
              match rest' with
              | String h (String l rest'') =>
                  match hex_value h, hex_value l with
                  | Some a, Some b => Some (ascii_of_N (16 * a + b), rest'')
                  | _, _ => None
                  end
              | _ => None
              end
            else Some (e, rest')
        end
      else Some (c, rest)
  end.

Fixpoint escape (q : ascii) (s : string) : string :=
  match s with
  | EmptyString => EmptyString
  | String c s' => escape_char q c ++ escape q s'
  end.

Definition repr_str (s : string) : string :=
  let q := quote_of s in
  String q (escape q s ++ String q "").

Definition repr_atom (a : atom) : string :=
  match a with
  | ANone => "None"
  | ABool true => "True"
  | ABool false => "False"
  | AStr s => repr_str s
  | AObject address =>
      "<mypermobil.mypermobil.MyPermobil object at " ++ HexString.of_N address ++ ">"
  end.

(** The elements of a display, separated by a comma and a space. *)
Fixpoint join (parts : list string) (close : string) : string :=
  match parts with
  | [] => close
  | [x] => x ++ close
  | x :: rest => x ++ ", " ++ join rest close
  end.

Definition repr_dict {V} (repr_v : V -> string) (entries : list (string * V)) : string :=
  "{" ++ join (map (fun kv => repr_str (fst kv) ++ ": " ++ repr_v (snd kv)) entries) "}".

Definition repr (v : value) : string :=
  match v with
  | Atom a => repr_atom a
  | Dict entries => repr_dict repr_atom entries
  end.

(** [str(args)] for the tuple of positional arguments: a tuple of one
    element is written with a trailing comma. *)
Definition str_tuple (args : list value) : string :=
  match args with
  | [x] => "(" ++ repr x ++ ",)"
  | _ => "(" ++ join (map repr args) ")"
  end.

(** [str(kwargs)] for the dictionary of keyword arguments, in the order the
    call wrote them. *)
Definition str_dict (kwargs : list (string * value)) : string :=
  repr_dict repr kwargs.

(** A function name is an identifier: letters, digits and underscores, not
    starting with a digit; the characters above 127 stand for the letters
    outside ASCII. *)
Definition identifier_char (c : ascii) : bool :=
  let n := N_of_ascii c in
  ((65 <=? n) && (n <=? 90) || (97 <=? n) && (n <=? 122) || (n =? 95)
   || (48 <=? n) && (n <=? 57) || (128 <=? n))%N.

Definition is_identifier (s : string) : bool :=
  match s with
  | EmptyString => false
  | String c _ => negb (Str.is_digit_char c) && Str.all_chars identifier_char s
  end.

End Repr.

(** ** mypermobil.py: values, exceptions, validators and the session *)

Module Mypermobil.

Import Const.

(** Parsed JSON, which is what the remote service answers and what the
    cacheable operations return. *)
Inductive json : Type :=
  | JNull
  | JBool (b : bool)
  | JNum (n : Z)
  | JStr (s : string)
  | JList (items : list json)
  | JObj (members : list (string * json)).

(** Truth value of a Python object of one of these types. *)
Definition truthy (v : json) : bool :=
  match v with
  | JNull => false
  | JBool b => b
  | JNum n => negb (n =? 0)%Z
  | JStr s => negb (String.eqb s "")
  | JList items => match items with [] => false | _ => true end
  | JObj members => match members with [] => false | _ => true end
  end.

(** [d.get(name, default)] on a dictionary. *)
Fixpoint members_get (members : list (string * json)) (name : string)
    (default : json) : json :=
  match members with
  | [] => default
  | (k, v) :: rest =>
      if String.eqb k name then v else members_get rest name default
  end.

Inductive exception_class : Type :=
  | MyPermobilException
  | MyPermobilAPIException
  | MyPermobilConnectionException
  | MyPermobilClientException
  | KeyError
  | AttributeError
  | OverflowError
  | CancelledError.

(** An exception object: its class and its argument. *)
Record exception : Type := Exception_ {
  class : exception_class;
  arg : json
}.

(** [isinstance(e, Exception)]: a cancellation derives from [BaseException]
    only. *)
Definition is_Exception (e : exception) : bool :=
  match class e with
  | CancelledError => false
  | _ => true
  end.

(** [isinstance(e, MyPermobilClientException)], the usage errors. *)
Definition is_client_error (e : exception) : bool :=
  match class e with
  | MyPermobilClientException => true
  | _ => false
  end.

(** The result of a call: a value, or a raised exception. *)
Inductive result (A : Type) : Type :=
  | Ok (a : A)
  | Raise (e : exception).
Arguments Ok {A} a.
Arguments Raise {A} e.

Definition client_error {A} (msg : string) : result A :=
  Raise (Exception_ MyPermobilClientException (JStr msg)).

Definition api_error {A} (msg : json) : result A :=
  Raise (Exception_ MyPermobilAPIException msg).

Definition connection_error {A} (msg : string) : result A :=
  Raise (Exception_ MyPermobilConnectionException (JStr msg)).

#[global] Instance result_ret : MRet result := fun A a => Ok a.
#[global] Instance result_bind : MBind result := fun A B f m =>
  match m with
  | Ok a => f a
  | Raise e => Raise e
  end.

Definition EMAIL_REGEX : list Re.atom :=
  [Re.NotPlus "@"; Re.Lit "@"; Re.NotPlus "@"; Re.Lit "."; Re.NotPlus "@"].

Definition CACHE_TTL : Z := 5 * 60.
Definition CACHE_ERROR_TTL : Z := 10.

(** In the validators an argument is [None] or a string. *)
Definition validate_email (email : option string) : result string :=
  match email with
  | None | Some EmptyString => client_error "Missing email"
  | Some e =>
      if negb (Re.matches EMAIL_REGEX e) then client_error "Invalid email"
      else Ok e
  end.

Definition validate_code (code : option string) : result string :=
  match code with
  | None | Some EmptyString => client_error "Missing code"
  | Some c =>
      if negb (Str.isdigit c) then client_error "Code must be a number"
      else if negb (Str.len c =? 6)%Z then client_error "Code must be 6 digits long"
      else Ok c
  end.

Definition validate_token (token : option string) : result string :=
  match token with
  | None | Some EmptyString => client_error "Missing token"
  | Some t =>
      if negb (Str.len t =? 256)%Z then client_error "Invalid token"
      else Ok t
  end.

(** [now] is the reading of [datetime.datetime.now()]. *)
Definition validate_expiration_date (now : Datetime.datetime)
    (expiration_date : option string) : result string :=
  match expiration_date with
  | None | Some EmptyString => client_error "Missing expiration date"
  | Some d =>
      match Datetime.strptime_ymd d with
      | None => client_error "Invalid expiration date"
      | Some date =>
          if Datetime.lt date now then client_error "Expired token"
          else Ok d
      end
  end.

Definition validate_region (region : option string) : result string :=
  match region with
  | None | Some EmptyString => client_error "Missing region"
  | Some r =>
      if negb (Str.startswith r "https://") && negb (Str.startswith r "http://")
      then client_error "Region missing protocol"
      else Ok r
  end.

(** The client object.  [session] is the handle of the HTTP session, or
    [None] once it is closed. *)
Record MyPermobil : Type := Build_MyPermobil {
  application : option string;
  session : option positive;
  email : option string;
  region : option string;
  code : option string;
  token : option string;
  expiration_date : option string;
  request_timeout : Z;
  authenticated : bool
}.

(** [MyPermobil.__init__] *)
Definition init (application : option string) (session : option positive)
    (email region code token expiration_date : option string)
    (request_timeout : Z) : MyPermobil :=
  Build_MyPermobil application session email region code token
    expiration_date request_timeout false.

(** A method: it reads and assigns attributes of [self] and returns or
    raises.  Assignments made before a raise stay. *)
Definition method (A : Type) : Type := MyPermobil -> result A * MyPermobil.

#[global] Instance method_ret : MRet method := fun A a self => (Ok a, self).
#[global] Instance method_bind : MBind method := fun A B f m self =>
  match m self with
  | (Ok a, self') => f a self'
  | (Raise e, self') => (Raise e, self')
  end.

Definition attr {A} (field : MyPermobil -> A) : method A :=
  fun self => (Ok (field self), self).

Definition assign (update : MyPermobil -> MyPermobil) : method unit :=
  fun self => (Ok tt, update self).

Definition lift {A} (r : result A) : method A := fun self => (r, self).

Definition when_ (b : bool) (r : result unit) : method unit :=
  if b then lift r else mret tt.

Definition with_application (v : option string) (s : MyPermobil) : MyPermobil :=
  Build_MyPermobil v (session s) (email s) (region s) (code s) (token s)
    (expiration_date s) (request_timeout s) (authenticated s).
Definition with_email (v : option string) (s : MyPermobil) : MyPermobil :=
  Build_MyPermobil (application s) (session s) v (region s) (code s) (token s)
    (expiration_date s) (request_timeout s) (authenticated s).
Definition with_region (v : option string) (s : MyPermobil) : MyPermobil :=
  Build_MyPermobil (application s) (session s) (email s) v (code s) (token s)
    (expiration_date s) (request_timeout s) (authenticated s).
Definition with_code (v : option string) (s : MyPermobil) : MyPermobil :=
  Build_MyPermobil (application s) (session s) (email s) (region s) v (token s)
    (expiration_date s) (request_timeout s) (authenticated s).
Definition with_token (v : option string) (s : MyPermobil) : MyPermobil :=
  Build_MyPermobil (application s) (session s) (email s) (region s) (code s) v
    (expiration_date s) (request_timeout s) (authenticated s).
Definition with_expiration_date (v : option string) (s : MyPermobil) : MyPermobil :=
  Build_MyPermobil (application s) (session s) (email s) (region s) (code s)
    (token s) v (request_timeout s) (authenticated s).
Definition with_authenticated (v : bool) (s : MyPermobil) : MyPermobil :=
  Build_MyPermobil (application s) (session s) (email s) (region s) (code s)
    (token s) (expiration_date s) (request_timeout s) v.

(** The [headers] property: a dictionary with one entry. *)
Definition headers : method (list (string * string)) :=
  a ← attr authenticated;
  when_ (negb a) (client_error "Not authenticated");;
  t ← attr token;
  mret [("Authorization", "Bearer " ++ default "None" t)].

Definition set_email (email : option string) : method unit :=
  a ← attr authenticated;
  when_ a (client_error "Cannot change email after authentication");;
  v ← lift (validate_email email);
  assign (with_email (Some v)).

Definition set_region (region : option string) : method unit :=
  a ← attr authenticated;
  when_ a (client_error "Cannot change region after authentication");;
  v ← lift (validate_region region);
  assign (with_region (Some v)).

Definition set_code (code : option string) : method unit :=
  a ← attr authenticated;
  when_ a (client_error "Cannot change code after authentication");;
  v ← lift (validate_code code);
  assign (with_code (Some v)).

Definition set_token (token : option string) : method unit :=
  a ← attr authenticated;
  when_ a (client_error "Cannot change token after authentication");;
  v ← lift (validate_token token);
  assign (with_token (Some v)).

Definition set_expiration_date (now : Datetime.datetime)
    (expiration_date : option string) : method unit :=
  a ← attr authenticated;
  when_ a (client_error "Cannot change date after authentication");;
  v ← lift (validate_expiration_date now expiration_date);
  assign (with_expiration_date (Some v)).

Definition set_application (application : option string) : method unit :=
  a ← attr authenticated;
  when_ a (client_error "Cannot change app after authentication");;
  assign (with_application application).

Definition self_authenticate (now : Datetime.datetime) : method unit :=
  a ← attr authenticated;
  when_ a (client_error "Already authenticated");;
  app ← attr application;
  when_ (negb (Str.truthy app)) (client_error "Missing application name");;
  r ← attr region; lift (validate_region r);;
  e ← attr email; lift (validate_email e);;
  t ← attr token; lift (validate_token t);;
  d ← attr expiration_date; lift (validate_expiration_date now d);;
  assign (with_authenticated true).

Definition deauthenticate : method unit :=
  a ← attr authenticated;
  when_ (negb a) (client_error "Not authenticated").


(** *** The HTTP transport, as far as the client sees it *)

(** What a call of the session raises: the three classes the helpers name,
    any other [Exception], or a cancellation of the task
    ([asyncio.CancelledError]), which is no [Exception]. *)
Inductive transport_error : Type :=
  | ClientConnectorError
  | TimeoutError
  | ClientError
  | OtherError
  | Cancelled.

Record request : Type := Request {
  url : string;
  json_body : option json;
  request_headers : option (list (string * string));
  timeout : Z
}.

(** A response: its status, its body as [response.json()] parses it and as
    [response.text()] reads it. *)
Record response : Type := Response {
  status : Z;
  body : json;
  text : string
}.

Definition transport : Type := request -> transport_error + response.

(** [self.post_request(url, json=json)]: the call sites pass neither a
    timeout nor headers.  A closed or absent session is [None], which has
    no [post]: the [AttributeError] is raised inside the [try] and the last
    handler catches it.  A cancellation passes the handlers. *)
Definition post_request (post : transport) (url : string) (json : json)
    : method response :=
  t ← attr request_timeout;
  a ← attr authenticated;
  h ← (if a : bool
       then (h ← headers; mret (Some h)) : method (option (list (string * string)))
       else mret None);
  s ← attr session;
  match s with
  | None => lift (api_error (JStr "Unknown error"))
  | Some _ =>
      match post (Request url (Some json) h t) with
      | inr resp => mret resp
      | inl ClientConnectorError => lift (connection_error "Connection error")
      | inl TimeoutError => lift (connection_error "Connection timeout")
      | inl ClientError => lift (connection_error "Client error")
      | inl OtherError => lift (api_error (JStr "Unknown error"))
      | inl Cancelled => lift (Raise (Exception_ CancelledError JNull))
      end
  end.

Definition json_of_option (s : option string) : json :=
  match s with
  | Some v => JStr v
  | None => JNull
  end.

(** [obj.get(name, default)]; only a dictionary has the method. *)
Definition json_get (obj : json) (name : string) (default : json) : result json :=
  match obj with
  | JObj members => Ok (members_get members name default)
  | _ => Raise (Exception_ AttributeError (JStr "get"))
  end.

(** [(datetime.datetime.now() + datetime.timedelta(days=365)).strftime("%Y-%m-%d")] *)
Definition one_year_from (now : Datetime.datetime) : result string :=
  match Datetime.add_days now 365 with
  | Some date => Ok (Datetime.strftime_ymd date)
  | None => Raise (Exception_ OverflowError (JStr "date value out of range"))
  end.

Definition request_application_token (now : Datetime.datetime) (post : transport)
    (email code region application expiration_date : option string)
    : method (json * string) :=
  email ← (if email is None then attr Mypermobil.email else mret email);
  code ← (if code is None then attr Mypermobil.code else mret code);
  region ← (if region is None then attr Mypermobil.region else mret region);
  application ←
    (if application is None then attr Mypermobil.application else mret application);
  a ← attr authenticated;
  when_ a (client_error "Already authenticated");;
  email ← lift (validate_email email);
  region ← lift (validate_region region);
  code ← lift (validate_code code);
  let url := region ++ ENDPOINT_APPLICATIONAUTHENTICATIONS in
  let json := JObj [ ("username", JStr email); ("code", JStr code);
                     ("application", json_of_option application);
                     ("expirationDate", json_of_option expiration_date) ] in
  response ← post_request post url json;
  if (status response =? 200)%Z then
    token ← lift (json_get (body response) "token" JNull);
    expiration_date ←
      (if expiration_date is Some d then mret d else lift (one_year_from now));
    mret (token, expiration_date)
  else if (status response =? 401)%Z then
    lift (api_error (JStr "Email not registered for region"))
  else if (status response =? 403)%Z then
    lift (api_error (JStr "Incorrect code"))
  else if (status response =? 400)%Z || (status response =? 500)%Z then
    msg ← lift (json_get (body response) "error" (body response));
    lift (api_error msg)
  else
    lift (api_error (JStr (text response))).

(** The first part of [request_item], up to the call of
    [request_endpoint]: the headers and the endpoint the request is made
    with.  [ITEM_LOOKUP[endpoint]] raises [KeyError] for a missing key. *)
Definition request_item_target (item : string) (endpoint : option string)
    (headers : option (list (string * string)))
    : method (string * list (string * string)) :=
  headers ← (if headers is Some h then mret h else Mypermobil.headers);
  endpoint ←
    match endpoint with
    | Some e =>
        if negb (bool_decide (is_Some (ENDPOINT_LOOKUP !! e)))
        then lift (client_error ("Invalid endpoint " ++ e))
        else mret e
    | None =>
        (* None is not a key of ENDPOINT_LOOKUP *)
        match ENDPOINT_LOOKUP !! item with
        | Some e => mret e
        | None => lift (client_error ("No endpoint for item: " ++ item))
        end
    end;
  items ←
    lift (match table_get ITEM_LOOKUP endpoint with
          | Some items => Ok items
          | None => Raise (Exception_ KeyError (JStr endpoint))
          end);
  when_ (negb (item_in item items))
    (client_error (item ++ " not in endpoint " ++ endpoint));;
  mret (endpoint, headers).


(** *** The cache decorator *)

(** A call of a decorated function: [func.__name__], [args] and [kwargs]. *)
Record invocation : Type := Invocation {
  func_name : string;
  args : list Repr.value;
  kwargs : list (string * Repr.value)
}.

(** [func.__name__ + str(args) + str(kwargs)] *)
Definition cache_key (call : invocation) : string :=
  func_name call ++ Repr.str_tuple (args call) ++ Repr.str_dict (kwargs call).

(** What the cache holds under a key: a returned value or an exception
    object. *)
Inductive pyobj : Type :=
  | Val (v : json)
  | Exc (e : exception).

(** A coroutine, as the sequence of operations it performs on the shared
    state of the module: the store [CACHE], the dictionary [CACHE_LOCKS],
    the [asyncio.Event] objects, and the decorated function it awaits. *)
Inductive coro (A : Type) : Type :=
  | Finish (r : result A)
  | CacheGet (key : string) (k : pyobj -> coro A)
  | CacheSet (key : string) (obj : pyobj) (ttl : Z) (k : coro A)
  | LocksGet (key : string) (k : option nat -> coro A)
  | LocksNewEvent (key : string) (k : coro A)
  | LocksDel (key : string) (k : coro A)
  | EventWait (ev : nat) (k : coro A)
  | EventSet (ev : nat) (k : coro A)
  | Await (call : invocation) (k : result json -> coro A).
Arguments Finish {A} r.
Arguments CacheGet {A} key k.
Arguments CacheSet {A} key obj ttl k.
Arguments LocksGet {A} key k.
Arguments LocksNewEvent {A} key k.
Arguments LocksDel {A} key k.
Arguments EventWait {A} ev k.
Arguments EventSet {A} ev k.
Arguments Await {A} call k.

(** What a coroutine does once [c] is over, given its result. *)
Fixpoint continue_with {A B} (c : coro A) (f : result A -> coro B) : coro B :=
  match c with
  | Finish r => f r
  | CacheGet key k => CacheGet key (fun obj => continue_with (k obj) f)
  | CacheSet key obj ttl k => CacheSet key obj ttl (continue_with k f)
  | LocksGet key k => LocksGet key (fun ev => continue_with (k ev) f)
  | LocksNewEvent key k => LocksNewEvent key (continue_with k f)
  | LocksDel key k => LocksDel key (continue_with k f)
  | EventWait ev k => EventWait ev (continue_with k f)
  | EventSet ev k => EventSet ev (continue_with k f)
  | Await call k => Await call (fun r => continue_with (k r) f)
  end.

#[global] Instance coro_ret : MRet coro := fun A a => Finish (Ok a).
#[global] Instance coro_bind : MBind coro := fun A B f c =>
  continue_with c (fun r => match r with
                            | Ok a => f a
                            | Raise e => Finish (Raise e)
                            end).

Definition raise {A} (e : exception) : coro A := Finish (Raise e).

(** [try: body  except Exception as err: handler(err)] *)
Definition try_except {A} (body : coro A) (handler : exception -> coro A) : coro A :=
  continue_with body
    (fun r => match r with
              | Ok a => Finish (Ok a)
              | Raise e => if is_Exception e then handler e else Finish (Raise e)
              end).

(** [try: body  finally: final]; an exception of [final] replaces the
    outcome of [body]. *)
Definition try_finally {A} (body : coro A) (final : coro unit) : coro A :=
  continue_with body
    (fun r => continue_with final
                (fun r' => match r' with
                           | Ok _ => Finish r
                           | Raise e => Finish (Raise e)
                           end)).

Definition cache_get (key : string) : coro pyobj := CacheGet key (fun obj => mret obj).
Definition cache_set (key : string) (obj : pyobj) (ttl : Z) : coro unit :=
  CacheSet key obj ttl (mret tt).
Definition event_wait (ev : nat) : coro unit := EventWait ev (mret tt).
Definition event_set (ev : nat) : coro unit := EventSet ev (mret tt).
Definition await (call : invocation) : coro json := Await call Finish.

(** [key in CACHE_LOCKS] *)
Definition locks_contains (key : string) : coro bool :=
  LocksGet key (fun ev => mret (bool_decide (is_Some ev))).

(** [CACHE_LOCKS[key]] *)
Definition locks_getitem (key : string) : coro nat :=
  LocksGet key (fun ev => match ev with
                          | Some ev => mret ev
                          | None => raise (Exception_ KeyError (JStr key))
                          end).

(** [CACHE_LOCKS[key] = asyncio.Event()] *)
Definition locks_new_event (key : string) : coro unit := LocksNewEvent key (mret tt).

(** [del CACHE_LOCKS[key]] *)
Definition locks_delitem (key : string) : coro unit :=
  LocksGet key (fun ev => match ev with
                          | Some _ => LocksDel key (mret tt)
                          | None => raise (Exception_ KeyError (JStr key))
                          end).

(** The store holds exception objects only where the wrapper put them, in
    its [except Exception] branch, so that [isinstance(res, Exception)]
    holds of every [Exc e] that is read back. *)
Definition async_get_cache (key : string) : coro json :=
  res ← cache_get key;
  match res with
  | Exc e => raise e
  | Val v => mret v
  end.

(** The wrapper [cacheable(func)] returns, applied to the arguments of
    [call]; [await call] is the awaited call of [func] with these arguments. *)
Definition wrapper (call : invocation) : coro json :=
  let key := cache_key call in
  cached_data ← async_get_cache key;
  if truthy cached_data then mret cached_data
  else
    in_progress ← locks_contains key;
    if in_progress : bool then
      ev ← locks_getitem key;
      event_wait ev;;
      res ← async_get_cache key;
      mret res
    else
      locks_new_event key;;
      try_finally
        (try_except
           (response ← await call;
            cache_set key (Val response) CACHE_TTL;;
            mret response)
           (fun err =>
              cache_set key (Exc err) CACHE_ERROR_TTL;;
              raise err))
        (ev ← locks_getitem key;
         event_set ev;;
         locks_delitem key).

(** [request_item]: its checks, then the cached [request_endpoint] called
    with the positional arguments [(self, endpoint, headers)], then
    [response.get(item)].  [address] is the address of the client object,
    which the key of the call shows. *)
Definition request_item (address : N) (item : string) (endpoint : option string)
    (headers : option (list (string * string))) (self : MyPermobil) : coro json :=
  match fst (request_item_target item endpoint headers self) with
  | Raise e => raise e
  | Ok (endpoint, headers) =>
      response ←
        wrapper (Invocation "request_endpoint"
                   [ Repr.Atom (Repr.AObject address);
                     Repr.Atom (Repr.AStr endpoint);
                     Repr.Dict (map (fun kv => (fst kv, Repr.AStr (snd kv))) headers) ]
                   []);
      Finish (json_get response item JNull)
  end.

(** *** The shared state and the event loop *)

(** What the history of a run records. *)
Inductive effect : Type :=
  | Called (call : invocation)                        (* the decorated function is called *)
  | Stored (key : string) (obj : pyobj) (expires : Z) (* CACHE.set *)
  | Locked (key : string) (ev : nat)                  (* CACHE_LOCKS[key] = Event() *)
  | Signalled (ev : nat)                              (* Event.set *)
  | Unlocked (key : string).                          (* del CACHE_LOCKS[key] *)

(** [CACHE] holds each entry with the time at which it expires;
    [CACHE_LOCKS] maps a key to its event; [events] holds the flag of every
    event created so far; [clock] is the time of the loop. *)
Record world : Type := World {
  CACHE : gmap string (pyobj * Z);
  CACHE_LOCKS : gmap string nat;
  events : list bool;
  clock : Z;
  history : list effect
}.

(** The entry of [key] that has not expired at time [t], if any. *)
Definition live_entry (w : world) (t : Z) (key : string) : option pyobj :=
  match CACHE w !! key with
  | Some (obj, expires) => if (t <? expires)%Z then Some obj else None
  | None => None
  end.

(** [CACHE.get(key)]: [None] for a missing or expired entry. *)
Definition store_get (w : world) (key : string) : pyobj :=
  default (Val JNull) (live_entry w (clock w) key).

(** [CACHE.set(key, obj, ttl=ttl)] *)
Definition store_set (w : world) (key : string) (obj : pyobj) (ttl : Z) : world :=
  let expires := (clock w + ttl)%Z in
  World (<[key := (obj, expires)]> (CACHE w)) (CACHE_LOCKS w) (events w) (clock w)
    (history w ++ [Stored key obj expires]).

Definition locks_set_new (w : world) (key : string) : world :=
  let ev := length (events w) in
  World (CACHE w) (<[key := ev]> (CACHE_LOCKS w)) (events w ++ [false]) (clock w)
    (history w ++ [Locked key ev]).

Definition locks_del (w : world) (key : string) : world :=
  World (CACHE w) (delete key (CACHE_LOCKS w)) (events w) (clock w)
    (history w ++ [Unlocked key]).

Definition is_set (w : world) (ev : nat) : bool :=
  default false (events w !! ev).

Definition set_event (w : world) (ev : nat) : world :=
  World (CACHE w) (CACHE_LOCKS w) (<[ev := true]> (events w)) (clock w)
    (history w ++ [Signalled ev]).

Definition record_call (w : world) (call : invocation) : world :=
  World (CACHE w) (CACHE_LOCKS w) (events w) (clock w) (history w ++ [Called call]).

Definition at_time (w : world) (t : Z) : world :=
  World (CACHE w) (CACHE_LOCKS w) (events w) t (history w).

(** A task of the loop: not yet started, awaiting the decorated function,
    waiting for an event, or done. *)
Inductive task (A : Type) : Type :=
  | Ready (c : coro A)
  | InFlight (call : invocation) (k : result json -> coro A)
  | Blocked (ev : nat) (k : coro A)
  | Finished (r : result A).
Arguments Ready {A} c.
Arguments InFlight {A} call k.
Arguments Blocked {A} ev k.
Arguments Finished {A} r.

(** A task runs without interruption up to its next suspension: the call of
    the decorated function, or the wait for an event that is not set.  The
    store is the in-memory one, whose [get] and [set] hand control to no
    other task. *)
Fixpoint run {A} (w : world) (c : coro A) : world * task A :=
  match c with
  | Finish r => (w, Finished r)
  | CacheGet key k => run w (k (store_get w key))
  | CacheSet key obj ttl k => run (store_set w key obj ttl) k
  | LocksGet key k => run w (k (CACHE_LOCKS w !! key))
  | LocksNewEvent key k => run (locks_set_new w key) k
  | LocksDel key k => run (locks_del w key) k
  | EventWait ev k => if is_set w ev then run w k else (w, Blocked ev k)
  | EventSet ev k => run (set_event w ev) k
  | Await call k => (record_call w call, InFlight call k)
  end.

(** What the loop does next: it starts or wakes task [i] at time [t], or
    the function task [i] awaits comes back with [r] at time [t]. *)
Inductive turn : Type :=
  | Step (i : nat) (t : Z)
  | Complete (i : nat) (t : Z) (r : result json).

Definition turn_time (e : turn) : Z :=
  match e with Step _ t | Complete _ t _ => t end.

Definition turn_task (e : turn) : nat :=
  match e with Step i _ | Complete i _ _ => i end.

(** [None]: the task cannot take this turn. *)
Definition take_turn {A} (w : world) (e : turn) (tk : task A)
    : option (world * task A) :=
  match e, tk with
  | Step _ _, Ready c => Some (run w c)
  | Step _ _, Blocked ev k => if is_set w ev then Some (run w k) else None
  | Complete _ _ r, InFlight _ k => Some (run w (k r))
  | _, _ => None
  end.

Definition loop_turn {A} (e : turn) (cfg : world * list (task A))
    : option (world * list (task A)) :=
  let '(w, tasks) := cfg in
  if (turn_time e <? clock w)%Z then None
  else
    tk ← tasks !! turn_task e;
    '(w', tk') ← take_turn (at_time w (turn_time e)) e tk;
    Some (w', <[turn_task e := tk']> tasks).

Fixpoint loop {A} (es : list turn) (cfg : world * list (task A))
    : option (world * list (task A)) :=
  match es with
  | [] => Some cfg
  | e :: es' => cfg' ← loop_turn e cfg; loop es' cfg'
  end.

(** The calls of the decorated function a history records. *)
Definition calls (h : list effect) : list invocation :=
  omap (fun e => match e with Called c => Some c | _ => None end) h.

End Mypermobil.

(** ** Vocabulary of the statements *)

Module Statements.

Import Const Mypermobil.

(** A call fails with a usage error and leaves the client as it was. *)
Definition usage_error {A} (out : result A * MyPermobil) (self : MyPermobil) : Prop :=
  exists e, is_client_error e = true /\ out = (Raise e, self).

Definition is_ok {A} (r : result A) : bool :=
  match r with
  | Ok _ => true
  | Raise _ => false
  end.

(** A setter that checks its argument with [validate] and stores it with
    [update]. *)
Definition validating_setter (set : option string -> method unit)
    (validate : option string -> result string)
    (update : option string -> MyPermobil -> MyPermobil) : Prop :=
  forall v self,
    if authenticated self then usage_error (set v self) self
    else match validate v with
         | Ok x => set v self = (Ok tt, update (Some x) self)
         | Raise _ => usage_error (set v self) self
         end.

(** Region, email, token and expiration date of the client pass their
    validators. *)
Definition credentials_valid (now : Datetime.datetime) (self : MyPermobil) : bool :=
  is_ok (validate_region (region self)) && is_ok (validate_email (email self))
  && is_ok (validate_token (token self))
  && is_ok (validate_expiration_date now (expiration_date self)).

Definition is_quote (q : ascii) : Prop :=
  q = Repr.single_quote \/ q = Repr.double_quote.

(** A display is delimited when no display is a proper prefix of another:
    what follows it in a longer string is determined. *)
Definition delimited {A} (f : A -> string) : Prop :=
  forall a a' r r', f a ++ r = f a' ++ r' -> a = a' /\ r = r'.

(** The characters that open no display of a value: the brackets that
    close a tuple or a dictionary and the comma that separates elements. *)
Definition closes (c : ascii) : Prop :=
  c = ")"%char \/ c = "}"%char \/ c = ","%char.

(** The expiration date a call of [request_application_token] is supplied
    with, as the specification reads it: the argument, or else the
    attribute of the client. *)
Definition supplied_expiration_date (expiration_date : option string)
    (self : MyPermobil) : option string :=
  match expiration_date with
  | Some d => Some d
  | None => Mypermobil.expiration_date self
  end.

(** The request [request_application_token] posts. *)
Definition token_request (self : MyPermobil)
    (email code region : string) (application expiration_date : option string)
    : request :=
  Request (region ++ ENDPOINT_APPLICATIONAUTHENTICATIONS)
    (Some (JObj [ ("username", JStr email); ("code", JStr code);
                  ("application", json_of_option application);
                  ("expirationDate", json_of_option expiration_date) ]))
    None (request_timeout self).

Definition or_attr (given attribute : option string) : option string :=
  match given with
  | Some v => Some v
  | None => attribute
  end.

(** What a caller is doing, and [ttl] and [stored] for what the wrapper
    keeps of a result of the decorated function. *)
Inductive phase : Type :=
  | NotStarted
  | Fetching
  | Waiting
  | Over (r : result json).

Definition phase_of (tk : task json) : phase :=
  match tk with
  | Ready _ => NotStarted
  | InFlight _ _ => Fetching
  | Blocked _ _ => Waiting
  | Finished r => Over r
  end.

Definition stored (r : result json) : pyobj :=
  match r with
  | Ok v => Val v
  | Raise e => Exc e
  end.

Definition ttl (r : result json) : Z :=
  match r with
  | Ok _ => CACHE_TTL
  | Raise _ => CACHE_ERROR_TTL
  end.

(** The decorated function returned, or raised an [Exception]: it was not
    cancelled. *)
Definition completes (r : result json) : bool :=
  match r with
  | Ok _ => true
  | Raise e => is_Exception e
  end.

(** What [async_get_cache] makes of a stored object. *)
Definition replay (obj : pyobj) : result json :=
  match obj with
  | Val v => Ok v
  | Exc e => Raise e
  end.

(** The store answers [None], or a value that counts as false, for [key]. *)
Definition misses (w : world) (key : string) : Prop :=
  exists v, store_get w key = Val v /\ truthy v = false.

(** What is left of a leader once the decorated function is back: it
    stores the result unless the function was cancelled, sets the event
    [ev] of [key], removes the entry of [key] from [CACHE_LOCKS] and ends as
    the function did. *)
Definition leader_exit (w : world) (key : string) (ev : nat) (r : result json)
    : world :=
  locks_del
    (set_event (if completes r then store_set w key (stored r) (ttl r) else w) ev)
    key.

Definition finishes_as_leader (key : string) (ev : nat)
    (k : result json -> coro json) : Prop :=
  forall w r,
    CACHE_LOCKS w !! key = Some ev ->
    run w (k r) = (leader_exit w key ev r, Finished r).

(** What is left of a follower once its event is set: it reads the store
    and ends with what it finds. *)
Definition reads_as_follower (key : string) (k : coro json) : Prop :=
  forall w, run w k = (w, Finished (replay (store_get w key))).

Definition sample_call : invocation :=
  Invocation "request_endpoint"
    [ Repr.Atom (Repr.AObject 140234866261392);
      Repr.Atom (Repr.AStr ENDPOINT_BATTERY_INFO);
      Repr.Atom Repr.ANone ] [].

Definition sample_call_regions : invocation :=
  Invocation "request_regions"
    [ Repr.Atom (Repr.AObject 140234866261392) ]
    [ ("include_icons", Repr.Atom (Repr.ABool false));
      ("include_internal", Repr.Atom (Repr.ABool false)) ].

Definition empty_world : world := World ∅ ∅ [] 0 [].

(** A client with valid credentials, a registered application and a date
    on the session; [T256] is a token of 256 characters. *)
Definition T256 : string :=
  Eval vm_compute in String.concat "" (repeat "0123456789abcdef" 16).

Definition sample_client (application : option string) : MyPermobil :=
  init application (Some 1%positive) (Some "user@example.com")
    (Some "https://eu.permobil.com") (Some "123456") (Some T256)
    (Some "2030-01-01") 10.

Definition sample_now : Datetime.datetime := Datetime.Datetime 2026 11 3 13 29 0 0.

Definition sample_transport : transport :=
  fun _ => inr (Response 200 (JObj [("token", JStr T256)]) "").

End Statements.

(** ** mypermobil.py: the remaining methods *)

From stdpp Require pretty.

Module Rest.

Import Const Mypermobil.

Definition with_session (v : option positive) (s : MyPermobil) : MyPermobil :=
  Build_MyPermobil (application s) v (email s) (region s) (code s) (token s)
    (expiration_date s) (request_timeout s) (authenticated s).

(** [close_session]: closing the HTTP session itself changes nothing of
    the client but the attribute. *)
Definition close_session : method unit :=
  s ← attr session;
  match s with
  | None => lift (client_error "Session does not exist")
  | Some _ => assign (with_session None)
  end.

(** [str(x)] for an attribute that is [None] or a string, as an f-string
    formats it. *)
Definition str_attr (x : option string) : string := default "None" x.

(** [MyPermobil.__str__] *)
Definition __str__ (self : MyPermobil) : string :=
  "Permobil(" ++ str_attr (application self) ++ ", " ++ str_attr (email self)
  ++ ", " ++ str_attr (region self) ++ ", " ++ str_attr (code self) ++ ", "
  ++ str_attr (token self) ++ ", " ++ str_attr (expiration_date self) ++ ")".

(** A call of a method of the client, its result dropped. *)
Inductive call : Type :=
  | SetEmail (v : option string)
  | SetRegion (v : option string)
  | SetCode (v : option string)
  | SetToken (v : option string)
  | SetExpirationDate (v : option string)
  | SetApplication (v : option string)
  | SelfAuthenticate
  | Deauthenticate
  | Headers
  | CloseSession.

Definition drop {A} (m : method A) : method unit := m ≫= fun _ => mret tt.

Definition perform (now : Datetime.datetime) (c : call) : method unit :=
  match c with
  | SetEmail v => set_email v
  | SetRegion v => set_region v
  | SetCode v => set_code v
  | SetToken v => set_token v
  | SetExpirationDate v => set_expiration_date now v
  | SetApplication v => set_application v
  | SelfAuthenticate => self_authenticate now
  | Deauthenticate => deauthenticate
  | Headers => drop headers
  | CloseSession => close_session
  end.

(** The calls made one after the other, whether they raise or not, each at
    its own reading of the clock: the results, and the client at the end. *)
Fixpoint perform_all (cs : list (Datetime.datetime * call)) (self : MyPermobil)
    : list (result unit) * MyPermobil :=
  match cs with
  | [] => ([], self)
  | (now, c) :: cs' =>
      let '(r, self') := perform now c self in
      let '(rs, self'') := perform_all cs' self' in
      (r :: rs, self'')
  end.

(** The calls that change what the client is: the setters and
    [self_authenticate]. *)
Definition changes_identity (c : call) : bool :=
  match c with
  | Deauthenticate | Headers | CloseSession => false
  | _ => true
  end.

(** *** The request helpers *)

(** The handlers of [get_request] and of [post_request], in the order in
    which they are tried; a cancellation is no [Exception] and passes
    them. *)
Definition transport_failure {A} (err : transport_error) : result A :=
  match err with
  | ClientConnectorError => connection_error "Connection error"
  | TimeoutError => connection_error "Connection timeout"
  | ClientError => connection_error "Client error"
  | OtherError => api_error (JStr "Unknown error")
  | Cancelled => Raise (Exception_ CancelledError JNull)
  end.

(** [self.get_request(url)] and [self.get_request(url, headers=h)].  A
    closed session is [None], which has no [get]: the [AttributeError] is
    raised inside the [try] and the last handler catches it. *)
Definition get_request (get : transport) (url : string)
    (headers : option (list (string * string))) : method response :=
  t ← attr request_timeout;
  a ← attr authenticated;
  h ← match headers with
      | Some h => mret (Some h)
      | None =>
          if a : bool
          then (h ← Mypermobil.headers; mret (Some h))
               : method (option (list (string * string)))
          else mret None
      end;
  s ← attr session;
  match s with
  | None => lift (api_error (JStr "Unknown error"))
  | Some _ =>
      match get (Request url None h t) with
      | inr resp => mret resp
      | inl err => lift (transport_failure err)
      end
  end.

Definition request_application_code (post : transport)
    (email region application : option string) : method unit :=
  email ← (if email is None then attr Mypermobil.email else mret email);
  region ← (if region is None then attr Mypermobil.region else mret region);
  application ←
    (if application is None then attr Mypermobil.application else mret application);
  a ← attr authenticated;
  when_ a (client_error "Already authenticated");;
  when_ (negb (Str.truthy application)) (client_error "Missing application name");;
  email ← lift (validate_email email);
  region ← lift (validate_region region);
  let url := region ++ ENDPOINT_APPLICATIONLINKS in
  let json := JObj [ ("username", JStr email);
                     ("application", json_of_option application) ] in
  response ← post_request post url json;
  when_ (negb (status response =? 204)%Z) (api_error (JStr (text response))).

(** [repr] and [str] of a parsed JSON value, as a formatted string literal
    writes it. *)
Fixpoint repr_json (v : json) : string :=
  match v with
  | JNull => "None"
  | JBool true => "True"
  | JBool false => "False"
  | JNum n => pretty.pretty_Z n
  | JStr s => Repr.repr_str s
  | JList items => "[" ++ Repr.join (map repr_json items) "]"
  | JObj members =>
      "{" ++ Repr.join
               (map (fun kv => match kv with
                               | (k, v) => Repr.repr_str k ++ ": " ++ repr_json v
                               end) members) "}"
  end.

Definition str_json (v : json) : string :=
  match v with
  | JStr s => s
  | _ => repr_json v
  end.

(** A [TypeError] of the interpreter, which is none of the exception
    classes above. *)
Inductive type_error : Type := TypeError (msg : string).

(** The body of [request_endpoint], which [cacheable] decorates.
    [self.region + endpoint] is a [TypeError] when the region is [None]. *)
Definition request_endpoint (get : transport) (endpoint : string)
    (headers : option (list (string * string))) (self : MyPermobil)
    : type_error + result json * MyPermobil :=
  match (if headers is Some h then mret h else Mypermobil.headers) self with
  | (Raise e, self) => inr (Raise e, self)
  | (Ok _, self) =>
      match region self with
      | None =>
          inl (TypeError "unsupported operand type(s) for +: 'NoneType' and 'str'")
      | Some region =>
          inr ((resp ← get_request get (region ++ endpoint) None;
                let status := status resp in
                let json := body resp in
                if (200 <=? status)%Z && (status <? 300)%Z then mret json
                else
                  msg ← lift (json_get json "error" (JStr (text resp)));
                  lift (api_error
                          (JStr ("Permobil API " ++ pretty.pretty_Z status ++ ": "
                                 ++ str_json msg)))) self)
      end
  end.

(** *** The regions *)

(** [v == n] and [v == s] for a parsed JSON value [v] and an integer or a
    string: a boolean is an integer. *)
Definition int_of_bool (b : bool) : Z := if b then 1 else 0.

Definition eq_int (v : json) (n : Z) : bool :=
  match v with
  | JNum m => (m =? n)%Z
  | JBool b => (int_of_bool b =? n)%Z
  | _ => false
  end.

Definition eq_str (v : json) (s : string) : bool :=
  match v with
  | JStr x => String.eqb x s
  | _ => false
  end.

(** A dictionary whose keys are parsed JSON values, in insertion order.
    A key is hashable, which lists and dictionaries are not, and keys are
    compared with [==]. *)
Definition pydict (V : Type) : Type := list (json * V).

Definition unhashable (v : json) : option type_error :=
  match v with
  | JList _ => Some (TypeError "unhashable type: 'list'")
  | JObj _ => Some (TypeError "unhashable type: 'dict'")
  | _ => None
  end.

Definition key_eqb (a b : json) : bool :=
  match a, b with
  | JNull, JNull => true
  | JStr x, JStr y => String.eqb x y
  | JBool x, JBool y => (int_of_bool x =? int_of_bool y)%Z
  | JBool x, JNum y => (int_of_bool x =? y)%Z
  | JNum x, JBool y => (x =? int_of_bool y)%Z
  | JNum x, JNum y => (x =? y)%Z
  | _, _ => false
  end.

(** [d[k] = v]: the value of an equal key is replaced where it is, a new
    key goes to the end. *)
Fixpoint dict_set {V} (d : pydict V) (k : json) (v : V) : pydict V :=
  match d with
  | [] => [(k, v)]
  | (k', v') :: rest =>
      if key_eqb k' k then (k', v) :: rest else (k', v') :: dict_set rest k v
  end.

(** [d[k]] *)
Fixpoint dict_get {V} (d : pydict V) (k : json) : option V :=
  match d with
  | [] => None
  | (k', v') :: rest => if key_eqb k' k then Some v' else dict_get rest k
  end.

(** [for x in v]: the elements of a list, the keys of a dictionary, the
    characters of a string; the other values are not iterable. *)
Definition iterate (v : json) : type_error + list json :=
  match v with
  | JList items => inr items
  | JObj members => inr (map (fun kv => JStr (fst kv)) members)
  | JStr s => inr (map (fun c => JStr (String c "")) (list_ascii_of_string s))
  | JNull => inl (TypeError "'NoneType' object is not iterable")
  | JBool _ => inl (TypeError "'bool' object is not iterable")
  | JNum _ => inl (TypeError "'int' object is not iterable")
  end.

(** What [request_regions] keeps of a region. *)
Definition region_info : Type := list (string * json).

(** One round of the loop of [request_regions]. *)
Definition region_round (include_icons include_internal : bool)
    (regions : pydict region_info) (region : json)
    : type_error + result (pydict region_info) :=
  match
    (skip ← (if include_internal then Ok false
             else
               port ← json_get region "backendPort" JNull;
               if negb (eq_int port 443) then Ok true
               else
                 server ← json_get region "serverType" JNull;
                 Ok (negb (eq_str server "Production")));
     if skip : bool then Ok None
     else
       region_id ← json_get region "_id" JNull;
       Ok (Some region_id)) with
  | Raise e => inr (Raise e)
  | Ok None => inr (Ok regions)
  | Ok (Some region_id) =>
      match unhashable region_id with
      | Some t => inl t
      | None =>
          inr (name ← json_get region "name" JNull;
               port ← json_get region "backendPort" JNull;
               port' ← json_get region "backendPort" JNull;
               let protocol := if eq_int port' 443 then "https" else "http" in
               host ← json_get region "host" JNull;
               let info := [ ("name", name); ("port", port);
                             ("url", JStr (protocol ++ "://" ++ str_json host)) ] in
               if include_icons : bool then
                 flag ← json_get region "flag" JNull;
                 Ok (dict_set regions region_id (info ++ [("icon", flag)])%list)
               else Ok (dict_set regions region_id info))
      end
  end.

Fixpoint regions_loop (include_icons include_internal : bool)
    (items : list json) (regions : pydict region_info)
    : type_error + result (pydict region_info) :=
  match items with
  | [] => inr (Ok regions)
  | region :: rest =>
      match region_round include_icons include_internal regions region with
      | inr (Ok regions') =>
          regions_loop include_icons include_internal rest regions'
      | stop => stop
      end
  end.

(** The body of [request_regions], which [cacheable] decorates; [None] is
    what a function returns that ends without a [return]. *)
Definition request_regions (get : transport)
    (include_icons include_internal : bool) (self : MyPermobil)
    : type_error + result (option (pydict region_info)) * MyPermobil :=
  match get_request get GET_REGIONS (Some []) self with
  | (Raise e, self) => inr (Raise e, self)
  | (Ok response, self) =>
      if (status response =? 200)%Z then
        match iterate (body response) with
        | inl t => inl t
        | inr items =>
            match regions_loop include_icons include_internal items [] with
            | inl t => inl t
            | inr (Raise e) => inr (Raise e, self)
            | inr (Ok regions) => inr (Ok (Some regions), self)
            end
        end
      else if (status response =? 404)%Z || (status response =? 500)%Z then
        inr (api_error (JStr (text response)), self)
      else inr (Ok None, self)
  end.

(** The dictionary comprehension of [request_region_names], applied to
    what the awaited [request_regions] gave: for every key the name and the
    address are looked up, then the pair is stored. *)
Definition region_lookup (regions : pydict region_info) (region_id : json)
    (field : string) : result json :=
  match dict_get regions region_id with
  | None => Raise (Exception_ KeyError (JStr (repr_json region_id)))
  | Some info => Ok (members_get info field JNull)
  end.

Fixpoint names_loop (regions : pydict region_info) (ids : list json)
    (names : pydict json) : type_error + result (pydict json) :=
  match ids with
  | [] => inr (Ok names)
  | region_id :: rest =>
      match (name ← region_lookup regions region_id "name";
             url ← region_lookup regions region_id "url";
             Ok (name, url)) with
      | Raise e => inr (Raise e)
      | Ok (name, url) =>
          match unhashable name with
          | Some t => inl t
          | None => names_loop regions rest (dict_set names name url)
          end
      end
  end.

Definition region_names (regions : option (pydict region_info))
    : type_error + result (pydict json) :=
  match regions with
  | None => inl (TypeError "'NoneType' object is not iterable")
  | Some regions => names_loop regions (map fst regions) []
  end.

(** Vocabulary of the further statements. *)

(** The result is a usage error. *)
Definition raises_usage_error {A} (r : result A) : Prop :=
  exists e, is_client_error e = true /\ r = Raise e.

(** What a call of a frozen (authenticated) client must answer. *)
Definition frozen_answer (c : call) (r : result unit) : Prop :=
  match c with
  | CloseSession => True
  | Deauthenticate | Headers => r = Ok tt
  | _ => raises_usage_error r
  end.

(** What [request_item] makes of a field when it is given no endpoint and
    has the headers [h]. *)
Definition resolved (item : string) (h : list (string * string))
    : result (string * list (string * string)) :=
  match first_declaring ITEM_LOOKUP item with
  | Some e => Ok (e, h)
  | None => client_error ("No endpoint for item: " ++ item)
  end.

(** The checks of the [datetime] constructor on the date and on the time
    of day: every [datetime] object passes them. *)
Definition is_datetime (t : Datetime.datetime) : bool :=
  (Datetime.valid_date (Datetime.year t) (Datetime.month t) (Datetime.day t)
   && (0 <=? Datetime.hour t) && (Datetime.hour t <? 24)
   && (0 <=? Datetime.minute t) && (Datetime.minute t <? 60)
   && (0 <=? Datetime.second t) && (Datetime.second t <? 60)
   && (0 <=? Datetime.microsecond t) && (Datetime.microsecond t <? 1000000))%Z.

(** The time of day is 00:00:00.000000. *)
Definition midnight (t : Datetime.datetime) : bool :=
  ((Datetime.hour t =? 0) && (Datetime.minute t =? 0)
   && (Datetime.second t =? 0) && (Datetime.microsecond t =? 0))%Z.

(** The headers [get_request] and [post_request] add to a call that gives
    none. *)
Definition own_headers (self : MyPermobil) : option (list (string * string)) :=
  if authenticated self
  then Some [("Authorization", "Bearer " ++ str_attr (token self))]
  else None.

(** The request [request_application_code] posts. *)
Definition code_request (self : MyPermobil) (email region application : string)
    : request :=
  Request (region ++ ENDPOINT_APPLICATIONLINKS)
    (Some (JObj [ ("username", JStr email); ("application", JStr application) ]))
    None (request_timeout self).

(** The request [request_endpoint] makes. *)
Definition endpoint_request (self : MyPermobil) (region endpoint : string)
    : request :=
  Request (region ++ endpoint) None (own_headers self) (request_timeout self).

(** The exception comes from the handlers of the request helpers, or is
    the cancellation that passes them. *)
Definition is_transport_exception (e : exception) : Prop :=
  class e = MyPermobilConnectionException
  \/ e = Exception_ MyPermobilAPIException (JStr "Unknown error")
  \/ class e = CancelledError.

(** The request the helpers send with the address [url] and the body
    [body], when the call gives the headers [h] or none. *)
Definition helper_request (self : MyPermobil) (url : string)
    (body : option json) (h : option (list (string * string))) : request :=
  Request url body
    (match h with Some h => Some h | None => own_headers self end)
    (request_timeout self).

(** The request [request_regions] makes: it carries an empty dictionary
    of headers. *)
Definition regions_request (self : MyPermobil) : request :=
  Request GET_REGIONS None (Some []) (request_timeout self).

(** What [request_regions] has kept of a region: the name, the port, the
    address with the protocol that goes with the port and, if icons are
    asked for, the flag. *)
Definition region_info_of (include_icons : bool) (info : region_info) : Prop :=
  exists name port host flag,
    info = ([ ("name", name); ("port", port);
              ("url", JStr ((if eq_int port 443 then "https" else "http")
                            ++ "://" ++ host)) ]
            ++ (if include_icons then [("icon", flag)] else []))%list.

(** The region is served on port 443, over https. *)
Definition https_region (info : region_info) : Prop :=
  members_get info "port" JNull = JNum 443
  /\ exists host, members_get info "url" JNull = JStr ("https://" ++ host).

(** An answer of the service to the request for the regions: a production
    region on port 443 and a development region on port 8080. *)
Definition sample_regions_transport : transport :=
  fun _ =>
    inr (Response 200
           (JList [ JObj [ ("_id", JStr "eu"); ("name", JStr "Europe");
                           ("host", JStr "eu.permobil.com");
                           ("backendPort", JNum 443);
                           ("serverType", JStr "Production");
                           ("flag", JStr "eu.png") ];
                    JObj [ ("_id", JStr "dev"); ("name", JStr "Development");
                           ("host", JStr "dev.permobil.com");
                           ("backendPort", JNum 8080);
                           ("serverType", JStr "Development") ] ])
           "").

Definition sample_regions : pydict region_info :=
  [ (JStr "eu", [ ("name", JStr "Europe"); ("port", JNum 443);
                  ("url", JStr "https://eu.permobil.com") ]) ].

(** No character of [s] is an at sign. *)
Definition no_at (s : string) : bool := negb (Repr.contains "@" s).

End Rest.


(** * Properties *)

Import Const Datetime Mypermobil Statements.

(** ** Strings *)

Section Strings.

Implicit Types (a b c s : string) (x y : ascii).

Lemma app_cons x a b : String x a ++ b = String x (a ++ b).
Proof. reflexivity. Qed.

Lemma app_empty_l a : "" ++ a = a.
Proof. reflexivity. Qed.

Lemma app_assoc_s a b c : (a ++ b) ++ c = a ++ (b ++ c).
Proof. induction a as [|x a IH]; [done|]. by rewrite !app_cons, IH. Qed.

Lemma app_empty_r a : a ++ "" = a.
Proof. induction a as [|x a IH]; [done|]. by rewrite app_cons, IH. Qed.

Lemma length_app_s a b :
  String.length (a ++ b) = (String.length a + String.length b)%nat.
Proof. induction a as [|x a IH]; [done|]. rewrite app_cons. cbn. by rewrite IH. Qed.

End Strings.

(** ** The field index *)

Section FieldIndex.

Implicit Types (tbl : table) (d : gmap string string) (name endpoint : string).

Lemma store_item_pairs endpoint items d name :
  store_pairs d (item_pairs endpoint items) !! name
  = if item_in name items then Some endpoint else d !! name.
Proof.
  revert d. induction items as [|i items IH]; intros d; [reflexivity|].
  destruct i as [n|entries]; cbn.
  - fold (item_pairs endpoint items).
    change (store_pairs (<[n:=endpoint]> d) (item_pairs endpoint items) !! name
            = if String.eqb name n || item_in name items
              then Some endpoint else d !! name).
    rewrite IH. destruct (item_in name items); [by rewrite orb_true_r|].
    rewrite orb_false_r. destruct (String.eqb_spec name n) as [->|Hne].
    + by rewrite lookup_insert_eq.
    + by rewrite lookup_insert_ne.
  - apply IH.
Qed.

Lemma first_declaring_cons endpoint items tbl name :
  first_declaring ((endpoint, items) :: tbl) name
  = if item_in name items then Some endpoint else first_declaring tbl name.
Proof.
  unfold first_declaring, declaring. rewrite filter_cons. simpl.
  destruct (item_in name items); reflexivity.
Qed.

Lemma build_endpoint_lookup_cons endpoint items tbl name :
  build_endpoint_lookup ((endpoint, items) :: tbl) !! name
  = if item_in name items then Some endpoint
    else build_endpoint_lookup tbl !! name.
Proof.
  unfold build_endpoint_lookup, dict_of_pairs, comprehension_pairs, store_pairs.
  rewrite reverse_cons, flat_map_app, foldl_app. cbn.
  rewrite app_nil_r. apply store_item_pairs.
Qed.

End FieldIndex.

(** C4, as amended: a field name resolves to the endpoint that declares it
    first in the declaration order of the table (and to nothing when no
    endpoint declares it), whatever the table is; so it does for
    [ITEM_LOOKUP] and [ENDPOINT_LOOKUP]. *)
Theorem endpoint_lookup_first_declared :
  (forall (tbl : table) (name : string),
      build_endpoint_lookup tbl !! name = first_declaring tbl name)
  /\ (forall name : string,
         ENDPOINT_LOOKUP !! name = first_declaring ITEM_LOOKUP name).
Proof.
  assert (H : forall (tbl : table) (name : string),
             build_endpoint_lookup tbl !! name = first_declaring tbl name).
  { intros tbl name. induction tbl as [|[endpoint items] tbl IH]; [done|].
    by rewrite build_endpoint_lookup_cons, first_declaring_cons, IH. }
  split; [exact H | intros name; apply H].
Qed.

(** C4, as first stated, fails: [distanceUnit] is declared
    under three endpoints, the last of which is the usage records one, and
    it resolves to the battery one. *)
Lemma endpoint_lookup_not_last_declared :
  ~ (forall (name endpoint : string),
        2 <= length (declaring ITEM_LOOKUP name) ->
        last_declaring ITEM_LOOKUP name = Some endpoint ->
        ENDPOINT_LOOKUP !! name = Some endpoint).
Proof.
  intros H.
  specialize (H BATTERY_DISTANCE_UNIT ENDPOINT_VA_USAGE_RECORDS).
  assert (E : ENDPOINT_LOOKUP !! BATTERY_DISTANCE_UNIT = Some ENDPOINT_BATTERY_INFO)
    by (vm_compute; reflexivity).
  rewrite E in H. 
  assert (C : Some ENDPOINT_BATTERY_INFO = Some ENDPOINT_VA_USAGE_RECORDS).
  { apply H; vm_compute; [lia | reflexivity]. }
  discriminate C.
Qed.

(** ** [request_item] with an explicit endpoint *)

(** C5: for every endpoint declared in [ITEM_LOOKUP], whatever the field,
    the client and the headers, [request_item] called with that endpoint
    raises the usage error [Invalid endpoint ...]: the endpoint is looked up
    among the keys of [ENDPOINT_LOOKUP], which are field names. *)
Theorem request_item_rejects_declared_endpoints :
  forall (self : MyPermobil) (item : string) (h : list (string * string)),
    Forall (fun ei =>
              request_item_target item (Some (fst ei)) (Some h) self
              = (client_error ("Invalid endpoint " ++ fst ei), self))
           ITEM_LOOKUP.
Proof.
  intros self item h. unfold ITEM_LOOKUP.
  repeat (apply Forall_cons; split; [vm_compute; reflexivity|]).
  apply Forall_nil. done.
Qed.

(** A field, asked for at the endpoint that declares it. *)
Example request_item_state_of_charge (self : MyPermobil) :
  fst (request_item_target BATTERY_STATE_OF_CHARGE (Some ENDPOINT_BATTERY_INFO)
         (Some []) self)
  = client_error "Invalid endpoint /api/v1/products/battery-info".
Proof. vm_compute. reflexivity. Qed.

(** Without an endpoint the same field resolves and passes the check. *)
Example request_item_resolved (self : MyPermobil) :
  fst (request_item_target BATTERY_STATE_OF_CHARGE None (Some []) self)
  = Ok (ENDPOINT_BATTERY_INFO, []).
Proof. vm_compute. reflexivity. Qed.

(** An endpoint that is a field name passes the first check and fails in
    the table with a [KeyError]. *)
Example request_item_field_as_endpoint (self : MyPermobil) :
  fst (request_item_target STATUS_STATUS (Some STATUS_STATUS) (Some []) self)
  = Raise (Exception_ KeyError (JStr "status")).
Proof. vm_compute. reflexivity. Qed.

(** ** The session *)

Ltac unfold_method :=
  cbv [mbind method_bind mret method_ret attr when_ lift assign].

Section Session.

Lemma validate_email_error v e :
  validate_email v = Raise e -> is_client_error e = true.
Proof.
  unfold validate_email, client_error.
  intros H; repeat case_match; by simplify_eq.
Qed.

Lemma validate_region_error v e :
  validate_region v = Raise e -> is_client_error e = true.
Proof.
  unfold validate_region, client_error.
  intros H; repeat case_match; by simplify_eq.
Qed.

Lemma validate_code_error v e :
  validate_code v = Raise e -> is_client_error e = true.
Proof.
  unfold validate_code, client_error.
  intros H; repeat case_match; by simplify_eq.
Qed.

Lemma validate_token_error v e :
  validate_token v = Raise e -> is_client_error e = true.
Proof.
  unfold validate_token, client_error.
  intros H; repeat case_match; by simplify_eq.
Qed.

Lemma validate_expiration_date_error now v e :
  validate_expiration_date now v = Raise e -> is_client_error e = true.
Proof.
  unfold validate_expiration_date, client_error.
  intros H; repeat case_match; by simplify_eq.
Qed.

(** A validator returns the string it was given. *)
Lemma validate_email_ok v x : validate_email v = Ok x -> v = Some x.
Proof. unfold validate_email, client_error. intros; repeat case_match; by simplify_eq. Qed.
Lemma validate_region_ok v x : validate_region v = Ok x -> v = Some x.
Proof. unfold validate_region, client_error. intros; repeat case_match; by simplify_eq. Qed.
Lemma validate_code_ok v x : validate_code v = Ok x -> v = Some x.
Proof. unfold validate_code, client_error. intros; repeat case_match; by simplify_eq. Qed.


Ltac setter validate_error :=
  intros v self; unfold_method;
  destruct (authenticated self) eqn:Ha;
  [ eexists; split; [|reflexivity]; reflexivity
  | match goal with
    | |- context [match ?r with Ok _ => _ | Raise _ => _ end] =>
        destruct r eqn:Hv
    end;
    [ reflexivity
    | match goal with
      | Hv : _ = Raise ?e |- _ =>
          exists e; split; [by eapply validate_error | reflexivity]
      end ] ].

Lemma set_email_spec : validating_setter set_email validate_email with_email.
Proof. unfold validating_setter, set_email, usage_error. setter validate_email_error. Qed.

Lemma set_region_spec : validating_setter set_region validate_region with_region.
Proof. unfold validating_setter, set_region, usage_error. setter validate_region_error. Qed.

Lemma set_code_spec : validating_setter set_code validate_code with_code.
Proof. unfold validating_setter, set_code, usage_error. setter validate_code_error. Qed.

Lemma set_token_spec : validating_setter set_token validate_token with_token.
Proof. unfold validating_setter, set_token, usage_error. setter validate_token_error. Qed.

Lemma set_expiration_date_spec now :
  validating_setter (set_expiration_date now) (validate_expiration_date now)
    with_expiration_date.
Proof.
  unfold validating_setter, set_expiration_date, usage_error.
  setter (validate_expiration_date_error now).
Qed.

Lemma set_application_spec v self :
  if authenticated self then usage_error (set_application v self) self
  else set_application v self = (Ok tt, with_application v self).
Proof.
  unfold set_application, usage_error. unfold_method.
  destruct (authenticated self); [|reflexivity].
  eexists; split; [|reflexivity]; reflexivity.
Qed.

Lemma self_authenticate_spec now self :
  if negb (authenticated self) && Str.truthy (application self)
     && credentials_valid now self
  then self_authenticate now self = (Ok tt, with_authenticated true self)
  else usage_error (self_authenticate now self) self.
Proof.
  unfold self_authenticate, credentials_valid, usage_error. unfold_method.
  destruct (authenticated self); cbn [negb andb].
  { eexists; split; [|reflexivity]; reflexivity. }
  destruct (Str.truthy (application self)); cbn [negb andb].
  2: { eexists; split; [|reflexivity]; reflexivity. }
  destruct (validate_region (region self)) as [?|e] eqn:Hr; cbn [is_ok andb].
  2: { exists e; split; [by eapply validate_region_error | reflexivity]. }
  destruct (validate_email (email self)) as [?|e] eqn:He; cbn [is_ok andb].
  2: { exists e; split; [by eapply validate_email_error | reflexivity]. }
  destruct (validate_token (token self)) as [?|e] eqn:Ht; cbn [is_ok andb].
  2: { exists e; split; [by eapply validate_token_error | reflexivity]. }
  destruct (validate_expiration_date now (expiration_date self)) as [?|e] eqn:Hd;
    cbn [is_ok andb].
  2: { exists e; split; [by eapply validate_expiration_date_error | reflexivity]. }
  reflexivity.
Qed.

End Session.

(** C7, as amended.  The setters of email, region, code, token and
    expiration date fail with a usage error and leave the client unchanged
    when it is authenticated or when the validator rejects the argument, and
    otherwise store the validated argument; [set_application] has no
    validator and only refuses an authenticated client.  [self_authenticate]
    succeeds, setting the flag and nothing else, exactly when the client is
    not yet authenticated, has an application name, and its region, email,
    token and expiration date are valid; in every other case (so whenever
    one of the four is missing or invalid) it fails with a usage error and
    changes nothing. *)
Theorem session_setters_and_authenticate :
  forall now : Datetime.datetime,
    validating_setter set_email validate_email with_email
    /\ validating_setter set_region validate_region with_region
    /\ validating_setter set_code validate_code with_code
    /\ validating_setter set_token validate_token with_token
    /\ validating_setter (set_expiration_date now) (validate_expiration_date now)
         with_expiration_date
    /\ (forall v self,
           if authenticated self then usage_error (set_application v self) self
           else set_application v self = (Ok tt, with_application v self))
    /\ (forall self,
           if negb (authenticated self) && Str.truthy (application self)
              && credentials_valid now self
           then self_authenticate now self = (Ok tt, with_authenticated true self)
           else usage_error (self_authenticate now self) self).
Proof.
  intros now.
  split; [exact set_email_spec|].
  split; [exact set_region_spec|].
  split; [exact set_code_spec|].
  split; [exact set_token_spec|].
  split; [exact (set_expiration_date_spec now)|].
  split; [exact set_application_spec|].
  exact (self_authenticate_spec now).
Qed.

(** C7, as first stated, fails: validity of region, email,
    token and expiration date is not enough for [self_authenticate] to
    succeed.  A client created with an empty application name is
    refused. *)
Lemma self_authenticate_needs_more_than_credentials :
  ~ (forall (now : Datetime.datetime) (self : MyPermobil),
        credentials_valid now self = true
        <-> fst (self_authenticate now self) = Ok tt).
Proof.
  intros H.
  destruct (H sample_now (sample_client (Some ""))) as [H1 _].
  assert (E : fst (self_authenticate sample_now (sample_client (Some "")))
              = client_error "Missing application name")
    by (vm_compute; reflexivity).
  rewrite E in H1. discriminate H1. vm_compute. reflexivity.
Qed.

(** C8: [deauthenticate] raises the usage error on a client that is not
    authenticated, and on an authenticated one returns with the client as it
    was, the flag still set. *)
Theorem deauthenticate_changes_nothing :
  forall self : MyPermobil,
    deauthenticate self
    = if authenticated self then (Ok tt, self)
      else (client_error "Not authenticated", self).
Proof.
  intros self. unfold deauthenticate. unfold_method.
  destruct (authenticated self); reflexivity.
Qed.

(** After [self_authenticate] and [deauthenticate] the sample client is
    still authenticated. *)
Example deauthenticate_sample :
  let self := snd (self_authenticate sample_now (sample_client (Some "app"))) in
  authenticated self = true
  /\ authenticated (snd (deauthenticate self)) = true.
Proof. vm_compute. split; reflexivity. Qed.

(** ** The application token *)

Section Calendar.

#[local] Open Scope Z_scope.

Ltac split_tests :=
  repeat match goal with
         | |- context [?x =? ?y] => destruct (Z.eqb_spec x y)
         | |- context [?x <? ?y] => destruct (Z.ltb_spec x y)
         end;
  cbn [andb orb negb].

(** Years are counted in cycles of 400, 100, 4 and 1 years. *)
Lemma is_leap_cycles a b c d :
  0 <= b <= 3 -> 0 <= c <= 24 -> 0 <= d <= 3 ->
  is_leap (400 * a + 100 * b + 4 * c + d + 1)
  = (d =? 3) && (negb (c =? 24) || (b =? 3)).
Proof.
  intros Hb Hc Hd. unfold is_leap. split_tests; try reflexivity;
    exfalso; Z.div_mod_to_equations; lia.
Qed.

Lemma days_before_year_cycles a b c d :
  0 <= b <= 3 -> 0 <= c <= 24 -> 0 <= d <= 3 ->
  days_before_year (400 * a + 100 * b + 4 * c + d + 1)
  = 146097 * a + 36524 * b + 1461 * c + 365 * d.
Proof.
  intros. unfold days_before_year. cbv zeta.
  replace (400 * a + 100 * b + 4 * c + d + 1 - 1)
    with (400 * a + 100 * b + 4 * c + d) by lia.
  Z.div_mod_to_equations. lia.
Qed.

Lemma ymd2ord_cycles a b c d m k :
  0 <= b <= 3 -> 0 <= c <= 24 -> 0 <= d <= 3 ->
  ymd2ord (400 * a + 100 * b + 4 * c + d + 1) m k
  = 146097 * a + 36524 * b + 1461 * c + 365 * d + DAYS_BEFORE_MONTH m
    + (if (2 <? m) && ((d =? 3) && (negb (c =? 24) || (b =? 3))) then 1 else 0)
    + k.
Proof.
  intros. unfold ymd2ord, days_before_month.
  rewrite days_before_year_cycles, is_leap_cycles by lia. lia.
Qed.

(** The date [ord2ymd] gives for a day number has that day number. *)
Lemma ymd2ord_ord2ymd n :
  (let '(y, m, d) := ord2ymd n in ymd2ord y m d) = n.
Proof.
  unfold ord2ymd. cbv zeta. unfold DI400Y, DI100Y, DI4Y.
  set (n0 := n - 1).
  set (a := n0 / 146097). set (r1 := n0 mod 146097).
  set (b := r1 / 36524). set (r2 := r1 mod 36524).
  set (c := r2 / 1461). set (r3 := r2 mod 1461).
  set (d := r3 / 365). set (r4 := r3 mod 365).
  assert (Hn : n = 146097 * a + r1 + 1)
    by (unfold a, r1, n0; Z.div_mod_to_equations; lia).
  assert (Hr1 : 0 <= r1 < 146097) by (unfold r1; apply Z.mod_pos_bound; lia).
  assert (Er1 : r1 = 36524 * b + r2) by (unfold b, r2; Z.div_mod_to_equations; lia).
  assert (Hr2 : 0 <= r2 < 36524) by (unfold r2; apply Z.mod_pos_bound; lia).
  assert (Er2 : r2 = 1461 * c + r3) by (unfold c, r3; Z.div_mod_to_equations; lia).
  assert (Hr3 : 0 <= r3 < 1461) by (unfold r3; apply Z.mod_pos_bound; lia).
  assert (Er3 : r3 = 365 * d + r4) by (unfold d, r4; Z.div_mod_to_equations; lia).
  assert (Hr4 : 0 <= r4 < 365) by (unfold r4; apply Z.mod_pos_bound; lia).
  assert (Hb : 0 <= b <= 4) by (unfold b; Z.div_mod_to_equations; lia).
  assert (Hc : 0 <= c <= 24) by (unfold c; Z.div_mod_to_equations; lia).
  assert (Hd : 0 <= d <= 4) by (unfold d; Z.div_mod_to_equations; lia).
  clearbody a r1 b r2 c r3 d r4. clear n0.
  rewrite Z.shiftr_div_pow2 by lia. change (2 ^ 5) with 32.
  set (m := (r4 + 50) / 32).
  assert (Hm : 32 * m <= r4 + 50 < 32 * m + 32)
    by (unfold m; Z.div_mod_to_equations; lia).
  clearbody m.
  destruct (Z.eqb_spec d 4) as [Ed|Nd]; [|destruct (Z.eqb_spec b 4) as [Eb|Nb]];
    cbn [orb]; cbv beta iota.
  - replace (a * 400 + 1 + b * 100 + c * 4 + d - 1)
      with (400 * a + 100 * b + 4 * c + 3 + 1) by lia.
    rewrite ymd2ord_cycles by lia. split_tests; cbn [DAYS_BEFORE_MONTH]; lia.
  - replace (a * 400 + 1 + b * 100 + c * 4 + d - 1)
      with (400 * a + 100 * 3 + 4 * 24 + 3 + 1) by lia.
    rewrite ymd2ord_cycles by lia. split_tests; cbn [DAYS_BEFORE_MONTH]; lia.
  - replace (a * 400 + 1 + b * 100 + c * 4 + d)
      with (400 * a + 100 * b + 4 * c + d + 1) by lia.
    assert (Hm12 : m = 1 \/ m = 2 \/ m = 3 \/ m = 4 \/ m = 5 \/ m = 6 \/ m = 7
                   \/ m = 8 \/ m = 9 \/ m = 10 \/ m = 11 \/ m = 12) by lia.
    destruct Hm12
      as [-> | [-> | [-> | [-> | [-> | [-> | [-> | [-> | [-> | [-> | [-> | -> ]]]]]]]]]]];
      repeat match goal with
             | |- context [Z.pos ?p - 1] =>
                 let v := eval vm_compute in (Z.pos p - 1) in
                 change (Z.pos p - 1) with v
             end;
      cbn [DAYS_BEFORE_MONTH DAYS_IN_MONTH];
      match goal with
      | |- context [if ?t then _ else _] => destruct t eqn:Et
      end;
      rewrite ymd2ord_cycles by lia;
      cbn [DAYS_BEFORE_MONTH];
      revert Et; split_tests; intros Et; try discriminate Et; try lia.
Qed.

(** Adding days to a date adds them to its day number. *)
Lemma add_days_toordinal t n t' :
  add_days t n = Some t' -> toordinal t' = toordinal t + n.
Proof.
  unfold add_days. case_match; [|done].
  pose proof (ymd2ord_ord2ymd (toordinal t + n)) as E.
  destruct (ord2ymd (toordinal t + n)) as [[y m] d].
  intros [= <-]. exact E.
Qed.

Lemma zero_padded_length w n : String.length (zero_padded w n) = w.
Proof.
  revert n. induction w as [|w IH]; intros n; [done|].
  cbn [zero_padded]. rewrite length_app_s, IH. cbn. lia.
Qed.

Lemma strftime_ymd_length t : String.length (strftime_ymd t) = 10%nat.
Proof.
  unfold strftime_ymd.
  rewrite !length_app_s, !zero_padded_length. reflexivity.
Qed.

End Calendar.

(** C10, as amended.  On an unauthenticated client with an open session
    whose email, region and code (given, or else the attributes of the
    client) are valid, when the service answers the request with status 200
    and an object, and the date 365 days ahead exists: the token of the
    answer comes back with the
    [expiration_date] argument unchanged when there is one, and otherwise,
    whatever expiration date the client holds, with the date whose day
    number is 365 more than today's, written as ten characters
    [YYYY-MM-DD]; the client is not changed. *)
Theorem request_application_token_expiration :
  forall (now : Datetime.datetime) (post : transport)
         (email code region application expiration_date : option string)
         (self : MyPermobil) (e c r : string) (resp : response)
         (members : list (string * json)) (date : Datetime.datetime),
    authenticated self = false ->
    is_Some (session self) ->
    validate_email (or_attr email (Mypermobil.email self)) = Ok e ->
    validate_region (or_attr region (Mypermobil.region self)) = Ok r ->
    validate_code (or_attr code (Mypermobil.code self)) = Ok c ->
    post (token_request self e c r
            (or_attr application (Mypermobil.application self)) expiration_date)
    = inr resp ->
    status resp = 200%Z ->
    body resp = JObj members ->
    add_days now 365 = Some date ->
    request_application_token now post email code region application
      expiration_date self
    = (Ok (members_get members "token" JNull,
           match expiration_date with
           | Some d => d
           | None => strftime_ymd date
           end), self)
    /\ toordinal date = (toordinal now + 365)%Z
    /\ String.length (strftime_ymd date) = 10.
Proof.
  intros now post email code region application expiration_date self e c r
    resp members date Ha [s Hs] He Hr Hc Hpost Hstatus Hbody Hdate.
  split; [|split; [by apply add_days_toordinal | apply strftime_ymd_length]].
  unfold request_application_token, post_request, token_request in *.
  unfold one_year_from.
  destruct email, code, region, application; cbn [or_attr] in *; unfold_method;
    repeat (first [ rewrite Ha | rewrite Hs | rewrite He | rewrite Hr
                  | rewrite Hc | rewrite Hpost | rewrite Hstatus
                  | rewrite Hbody | rewrite Hdate ];
            cbn [Z.eqb Pos.eqb json_get]; cbv beta iota);
    by destruct expiration_date.
Qed.

Lemma request_application_token_expiration_witness :
  request_application_token sample_now sample_transport None None None None None
    (sample_client (Some "app"))
  = (Ok (JStr T256, "2027-11-03"), sample_client (Some "app")).
Proof.
  refine (proj1 (request_application_token_expiration
                   sample_now sample_transport None None None None None
                   (sample_client (Some "app"))
                   "user@example.com" "123456" "https://eu.permobil.com"
                   (Response 200 (JObj [("token", JStr T256)]) "")
                   [("token", JStr T256)] (Datetime 2027 11 3 13 29 0 0)
                   _ _ _ _ _ _ _ _ _)); first [reflexivity | by eexists].
Defined.

(** C10, as first stated, fails: the sample client holds the
    expiration date 2030-01-01, no date is passed as an argument, and the
    call returns the date one year ahead, not the one of the client. *)
Lemma request_application_token_ignores_client_date :
  ~ (forall (now : Datetime.datetime) (post : transport)
            (email code region application expiration_date : option string)
            (self : MyPermobil) (tok : json) (d d' : string),
        supplied_expiration_date expiration_date self = Some d ->
        fst (request_application_token now post email code region application
               expiration_date self) = Ok (tok, d') ->
        d' = d).
Proof.
  intros H.
  specialize (H sample_now sample_transport None None None None None
                (sample_client (Some "app")) (JStr T256)
                "2030-01-01" "2027-11-03").
  assert (C : "2027-11-03" = "2030-01-01").
  { apply H; vm_compute; reflexivity. }
  discriminate C.
Qed.

(** ** The cache key *)

Section CacheKey.

Import Repr.

Implicit Types (s r : string) (c q : ascii).

Lemma contains_app c a b : contains c (a ++ b) = contains c a || contains c b.
Proof.
  induction a as [|x a IH]; [done|].
  rewrite app_cons. cbn [contains]. by rewrite IH, orb_assoc.
Qed.

(** A string is cut in one way at the first occurrence of a character. *)
Lemma cut_at_first c a a' r r' :
  contains c a = false -> contains c a' = false ->
  a ++ String c r = a' ++ String c r' -> a = a' /\ r = r'.
Proof.
  revert a'. induction a as [|x a IH]; intros [|x' a'] Ha Ha' E;
    rewrite ?app_cons, ?app_empty_l in E; cbn [contains] in *.
  - by simplify_eq.
  - simplify_eq. by rewrite Ascii.eqb_refl in Ha'.
  - simplify_eq. by rewrite Ascii.eqb_refl in Ha.
  - apply orb_false_elim in Ha as [_ Ha]. apply orb_false_elim in Ha' as [_ Ha'].
    simplify_eq. destruct (IH a' Ha Ha' ltac:(done)) as [-> ->]. done.
Qed.

Lemma quote_of_is_quote s : is_quote (quote_of s).
Proof. unfold quote_of, is_quote. case_match; auto. Qed.

Ltac each_char c := destruct c as [[] [] [] [] [] [] [] []].

Lemma unescape_escape_char q c r :
  is_quote q -> unescape_char (escape_char q c ++ r) = Some (c, r).
Proof. intros [-> | ->]; each_char c; vm_compute; reflexivity. Qed.

Lemma escape_char_not_quote q c r r' :
  is_quote q -> escape_char q c ++ r <> String q r'.
Proof. intros [-> | ->]; each_char c; vm_compute; discriminate. Qed.

Lemma escape_delimited q s s' r r' :
  is_quote q ->
  escape q s ++ String q r = escape q s' ++ String q r' -> s = s' /\ r = r'.
Proof.
  intros Hq. revert s'.
  induction s as [|c s IH]; intros [|c' s'] E; cbn [escape] in E;
    rewrite ?app_assoc_s, ?app_empty_l in E.
  - by simplify_eq.
  - symmetry in E. by apply escape_char_not_quote in E.
  - by apply escape_char_not_quote in E.
  - apply (f_equal unescape_char) in E.
    rewrite !unescape_escape_char in E by done. simplify_eq.
    destruct (IH s' ltac:(done)) as [-> ->]. done.
Qed.

Lemma repr_str_delimited : delimited repr_str.
Proof.
  intros s s' r r' E. unfold repr_str in E.
  rewrite !app_cons, !app_assoc_s, !app_cons, !app_empty_l in E.
  injection E as Eq E. rewrite <- Eq in E.
  by apply (escape_delimited _ _ _ _ _ (quote_of_is_quote s)) in E.
Qed.


(** *** Addresses *)

Lemma raw_of_pos_digits p :
  forall rest, exists ds,
    HexString.Raw.of_pos p rest = ds ++ rest /\ contains ">" ds = false.
Proof.
  remember (Pos.size_nat p) as n eqn:Hn.
  assert (Hle : (Pos.size_nat p <= n)%nat) by lia. clear Hn.
  revert p Hle. induction n as [|n IH]; intros p Hle rest.
  { destruct p; cbn in Hle; lia. }
  destruct p as [[[[p|p|]|[p|p|]|]|[[p|p|]|[p|p|]|]|]|[[[p|p|]|[p|p|]|]|[[p|p|]|[p|p|]|]|]|];
    cbn [HexString.Raw.of_pos];
    first
      [ match goal with
        | |- exists ds, HexString.Raw.of_pos ?p (String ?c ?rest) = _ /\ _ =>
            destruct (IH p ltac:(cbn in Hle; lia) (String c rest)) as [ds [E H]];
            exists (ds ++ String c ""); rewrite E, app_assoc_s; split;
            [ reflexivity | rewrite contains_app, H; reflexivity ]
        end
      | match goal with
        | |- exists ds, String ?c ?rest = _ /\ _ =>
            exists (String c ""); split; reflexivity
        end ].
Qed.

Lemma of_N_no_gt n : contains ">" (HexString.of_N n) = false.
Proof.
  destruct n as [|p]; [reflexivity|].
  cbn [HexString.of_N]. unfold HexString.of_pos.
  destruct (raw_of_pos_digits p "") as [ds [E H]].
  rewrite E, app_empty_r. cbn [contains]. rewrite H. reflexivity.
Qed.

Lemma of_N_inj n n' : HexString.of_N n = HexString.of_N n' -> n = n'.
Proof.
  intros E. apply (f_equal HexString.to_N) in E.
  by rewrite !HexString.to_N_of_N in E.
Qed.

(** *** Atoms *)

Lemma single_quote_char : single_quote = "'"%char.
Proof. reflexivity. Qed.

Lemma double_quote_char :
  double_quote = Ascii.Ascii false true false false false true false false.
Proof. reflexivity. Qed.

(** Brings the first character of both sides of [E] to the front. *)
Ltac heads E :=
  unfold repr_atom, repr_str, repr_dict in E;
  rewrite ?app_cons, ?app_empty_l in E;
  repeat match type of E with
         | context [quote_of ?s] =>
             let Hq := fresh "Hq" in
             destruct (quote_of_is_quote s) as [Hq | Hq]; rewrite Hq in E
         end;
  rewrite ?single_quote_char, ?double_quote_char in E.

Lemma repr_atom_delimited : delimited repr_atom.
Proof.
  intros a a' r r' E.
  destruct a as [|[]|s|n], a' as [|[]|s'|n'];
    try (heads E; discriminate E);
    try (cbn [repr_atom] in E; rewrite ?app_cons, ?app_empty_l in E;
         by simplify_eq).
  - cbn [repr_atom] in E. by apply repr_str_delimited in E as [-> ->].
  - cbn [repr_atom] in E. rewrite !app_assoc_s in E.
    apply String.app_inj in E.
    apply cut_at_first in E as [E ->]; [|apply of_N_no_gt..].
    by apply of_N_inj in E as ->.
Qed.

Lemma repr_atom_not_closing a r c r' :
  closes c \/ c = "{"%char -> repr_atom a ++ r <> String c r'.
Proof.
  intros Hc E.
  destruct a as [|[]|s|n]; heads E;
    destruct Hc as [[-> | [-> | ->]] | ->]; discriminate E.
Qed.

Lemma repr_str_not_closing s r c r' :
  closes c -> repr_str s ++ r <> String c r'.
Proof.
  intros Hc E. apply (repr_atom_not_closing (AStr s) r c r'); [by left | done].
Qed.

(** *** Sequences *)

Lemma join_cons x parts close :
  join (x :: parts) close
  = x ++ match parts with
         | [] => close
         | _ :: _ => ", " ++ join parts close
         end.
Proof. by destruct parts. Qed.

Lemma join_delimited {A} (g : A -> string) (close : ascii) :
  delimited g ->
  (forall a r r', g a ++ r <> String close r') ->
  close <> ","%char ->
  delimited (fun l => join (map g l) (String close "")).
Proof.
  intros Hg Hclose Hcomma l.
  induction l as [|x l IH]; intros [|x' l'] r r' E;
    cbn [map] in E; rewrite ?join_cons, ?app_assoc_s in E.
  - cbn [join] in E. rewrite !app_cons, !app_empty_l in E. by simplify_eq.
  - cbn [join] in E. rewrite !app_cons, !app_empty_l in E.
    symmetry in E. by apply Hclose in E.
  - cbn [join] in E. rewrite !app_cons, !app_empty_l in E.
    by apply Hclose in E.
  - apply Hg in E as [-> E].
    destruct l as [|y l], l' as [|y' l']; cbn [map] in E;
      rewrite ?app_assoc_s, ?app_cons, ?app_empty_l in E.
    + by simplify_eq.
    + by simplify_eq.
    + by simplify_eq.
    + injection E as E. by apply (IH (y' :: l')) in E as [-> ->].
Qed.

Lemma repr_dict_delimited {V} (f : V -> string) :
  delimited f -> delimited (repr_dict f).
Proof.
  intros Hf es es' r r' E. unfold repr_dict in E.
  rewrite !app_cons, !app_empty_l in E. injection E as E.
  eapply (join_delimited
            (fun kv => repr_str (fst kv) ++ ": " ++ f (snd kv)) "}") in E;
    [done | | | done].
  - intros [k v] [k' v'] q q' Eq. cbn [fst snd] in Eq.
    rewrite !app_assoc_s in Eq.
    apply repr_str_delimited in Eq as [-> Eq].
    rewrite !app_cons, !app_empty_l in Eq. simplify_eq.
    by apply Hf in Eq as [-> ->].
  - intros [k v] q q' Eq. cbn [fst snd] in Eq. rewrite !app_assoc_s in Eq.
    apply repr_str_not_closing in Eq; [done|]. right; by left.
Qed.

Lemma repr_delimited : delimited repr.
Proof.
  intros [a|es] [a'|es'] r r' E; cbn [repr] in E.
  - by apply repr_atom_delimited in E as [-> ->].
  - unfold repr_dict in E. rewrite !app_cons, !app_empty_l in E.
    apply repr_atom_not_closing in E; [done | by right].
  - unfold repr_dict in E. rewrite !app_cons, !app_empty_l in E.
    symmetry in E. apply repr_atom_not_closing in E; [done | by right].
  - by apply (repr_dict_delimited _ repr_atom_delimited) in E as [-> ->].
Qed.

Lemma repr_not_closing v r c r' : closes c -> repr v ++ r <> String c r'.
Proof.
  intros Hc E. destruct v as [a|es]; cbn [repr] in E.
  - apply repr_atom_not_closing in E; [done | by left].
  - unfold repr_dict in E. rewrite !app_cons, !app_empty_l in E.
    destruct Hc as [-> | [-> | ->]]; discriminate E.
Qed.

Lemma str_tuple_delimited : delimited str_tuple.
Proof.
  assert (J : delimited (fun l => join (map repr l) ")")).
  { apply join_delimited; [apply repr_delimited | | done].
    intros v q q'. apply repr_not_closing. by left. }
  assert (C : forall v (t t' : string), repr v ++ t <> String ")" t').
  { intros v t t'. apply repr_not_closing. by left. }
  intros l l' r r' E.
  destruct l as [|x [|y l]], l' as [|x' [|y' l']];
    unfold str_tuple in E; rewrite ?app_cons, ?app_empty_l in E;
    injection E as E.
  - rewrite ?app_cons, ?app_empty_l in E. by simplify_eq.
  - rewrite ?app_assoc_s in E. symmetry in E. by apply C in E.
  - rewrite ?app_assoc_s in E.
    symmetry in E. by apply C in E.
  - rewrite ?app_assoc_s in E. by apply C in E.
  - rewrite ?app_assoc_s in E. apply repr_delimited in E as [-> E].
    rewrite ?app_cons, ?app_empty_l in E. by simplify_eq.
  - rewrite ?app_assoc_s in E.
    apply repr_delimited in E as [-> E]. discriminate E.
  - rewrite ?app_assoc_s in E. by apply C in E.
  - rewrite ?app_assoc_s in E.
    apply repr_delimited in E as [-> E]. discriminate E.
  - by apply (J (x :: y :: l) (x' :: y' :: l')) in E as [-> ->].
Qed.

Lemma str_dict_delimited : delimited str_dict.
Proof. apply repr_dict_delimited, repr_delimited. Qed.

Lemma identifier_no_paren s : is_identifier s = true -> contains "(" s = false.
Proof.
  unfold is_identifier. destruct s as [|c0 s0]; [done|].
  intros [_ H]%andb_true_iff. revert H. generalize (String c0 s0). clear.
  intros s. induction s as [|c s IH]; [done|].
  cbn [Str.all_chars contains]. intros [Hc H]%andb_true_iff.
  rewrite (IH H), orb_false_r.
  destruct (Ascii.eqb_spec c "(") as [-> | ]; [discriminate Hc | done].
Qed.

End CacheKey.

(** C9: on calls of functions named by identifiers, with the client object,
    [None], booleans, strings and dictionaries of these as arguments, the
    key is a function of the name, the positional arguments and the keyword
    arguments in the order they were passed, and it tells apart any two
    calls that differ in one of them: two calls have the same key exactly
    when they have the same name, the same positional arguments and the same
    keyword arguments. *)
Theorem cache_key_same_iff_same_call :
  forall call call' : invocation,
    Repr.is_identifier (func_name call) = true ->
    Repr.is_identifier (func_name call') = true ->
    (cache_key call = cache_key call' <->
     func_name call = func_name call' /\ args call = args call'
     /\ kwargs call = kwargs call').
Proof.
  intros [n a k] [n' a' k'] Hn Hn'. cbn [func_name args kwargs] in *.
  unfold cache_key. cbn [func_name args kwargs]. split.
  - intros E.
    assert (Ha : exists t, Repr.str_tuple a = String "(" t)
      by (destruct a as [|? [|? ?]]; eexists; reflexivity).
    assert (Ha' : exists t, Repr.str_tuple a' = String "(" t)
      by (destruct a' as [|? [|? ?]]; eexists; reflexivity).
    destruct Ha as [t Ht], Ha' as [t' Ht'].
    pose proof E as E0. rewrite Ht, Ht', !app_cons in E0.
    apply cut_at_first in E0 as [-> _]; [|by apply identifier_no_paren..].
    apply String.app_inj in E.
    apply str_tuple_delimited in E as [-> E].
    rewrite <- (app_empty_r (Repr.str_dict k)),
      <- (app_empty_r (Repr.str_dict k')) in E.
    by apply str_dict_delimited in E as [-> _].
  - by intros (-> & -> & ->).
Qed.

Lemma cache_key_same_iff_same_call_witness :
  cache_key sample_call = cache_key sample_call_regions <->
  func_name sample_call = func_name sample_call_regions
  /\ args sample_call = args sample_call_regions
  /\ kwargs sample_call = kwargs sample_call_regions.
Proof.
  apply (cache_key_same_iff_same_call sample_call sample_call_regions);
    reflexivity.
Defined.

(** ** The decorator *)

Section Decorator.

Implicit Types (w : world) (call : invocation) (key : string) (r : result json).

Ltac unfold_coro :=
  cbn [mbind coro_bind mret coro_ret continue_with raise try_except try_finally
       cache_get cache_set event_wait event_set await locks_contains
       locks_getitem locks_new_event locks_delitem async_get_cache run].

(** A caller that finds a usable entry returns or raises it at once. *)
Lemma wrapper_hit w call v :
  store_get w (cache_key call) = Val v -> truthy v = true ->
  run w (wrapper call) = (w, Finished (Ok v)).
Proof.
  intros Hget Ht. unfold wrapper. unfold_coro. rewrite Hget. unfold_coro.
  rewrite Ht. reflexivity.
Qed.

Lemma wrapper_hit_error w call e :
  store_get w (cache_key call) = Exc e ->
  run w (wrapper call) = (w, Finished (Raise e)).
Proof.
  intros Hget. unfold wrapper. unfold_coro. rewrite Hget. reflexivity.
Qed.

(** A caller that misses and finds no event for its key becomes the
    leader: it creates the event and calls the decorated function. *)
Lemma wrapper_leader w call :
  misses w (cache_key call) ->
  CACHE_LOCKS w !! cache_key call = None ->
  exists k,
    run w (wrapper call)
    = (record_call (locks_set_new w (cache_key call)) call, InFlight call k)
    /\ finishes_as_leader (cache_key call) (length (events w)) k.
Proof.
  intros (v & Hget & Ht) Hlock. unfold wrapper. unfold_coro.
  rewrite Hget. unfold_coro. rewrite Ht. unfold_coro. rewrite Hlock. cbn.
  eexists. split; [reflexivity|].
  intros w' r Hl. unfold leader_exit.
  destruct r as [v'|e]; [|destruct (is_Exception e) eqn:He];
    cbn; rewrite ?He; cbn; rewrite Hl; cbn; rewrite Hl; reflexivity.
Qed.

(** A caller that misses and finds an event for its key waits for it. *)
Lemma wrapper_follower w call ev :
  misses w (cache_key call) ->
  CACHE_LOCKS w !! cache_key call = Some ev ->
  is_set w ev = false ->
  exists k,
    run w (wrapper call) = (w, Blocked ev k)
    /\ reads_as_follower (cache_key call) k.
Proof.
  intros (v & Hget & Ht) Hlock Hset. unfold wrapper. unfold_coro.
  rewrite Hget. unfold_coro. rewrite Ht. unfold_coro. rewrite Hlock.
  cbn -[is_set]. rewrite Hlock. cbn -[is_set]. rewrite Hset.
  eexists. split; [reflexivity|].
  intros w'. unfold_coro. by destruct (store_get w' (cache_key call)).
Qed.

(** *** The store and the events *)

Lemma live_entry_later w t t' key :
  live_entry w t key = None -> (t <= t')%Z -> live_entry w t' key = None.
Proof.
  unfold live_entry. destruct (CACHE w !! key) as [[obj expires]|]; [|done].
  destruct (Z.ltb_spec t expires); [done|]. intros _ Hle.
  destruct (Z.ltb_spec t' expires); [lia | done].
Qed.

Lemma misses_no_entry w t key :
  live_entry w t key = None -> clock w = t -> misses w key.
Proof.
  intros Hl <-. exists JNull. unfold store_get. by rewrite Hl.
Qed.

Lemma calls_app h h' : calls (h ++ h')%list = (calls h ++ calls h')%list.
Proof. unfold calls. apply omap_app. Qed.

(** The state a leader leaves: the entry is in the store, the event is
    set, the key is out of [CACHE_LOCKS], and the history ends with the
    store, the signal and the removal, in this order. *)
Lemma leader_exit_state w key ev r :
  completes r = true -> (ev < length (events w))%nat ->
  let w' := leader_exit w key ev r in
  CACHE w' !! key = Some (stored r, (clock w + ttl r)%Z)
  /\ is_set w' ev = true
  /\ CACHE_LOCKS w' !! key = None
  /\ clock w' = clock w
  /\ history w'
     = (history w ++ [Stored key (stored r) (clock w + ttl r)%Z; Signalled ev;
                      Unlocked key])%list.
Proof.
  intros Hr Hev. unfold leader_exit. rewrite Hr. cbn.
  repeat split.
  - apply lookup_insert_eq.
  - unfold is_set. cbn. by rewrite list_lookup_insert_eq.
  - apply lookup_delete_eq.
  - by rewrite <- !app_assoc.
Qed.

(** After a cancellation the event is set and the key removed, and the
    store is as it was. *)
Lemma leader_exit_cancelled w key ev r :
  completes r = false -> (ev < length (events w))%nat ->
  let w' := leader_exit w key ev r in
  CACHE w' = CACHE w /\ is_set w' ev = true /\ CACHE_LOCKS w' !! key = None.
Proof.
  intros Hr Hev. unfold leader_exit. rewrite Hr. cbn.
  repeat split.
  - unfold is_set. cbn. by rewrite list_lookup_insert_eq.
  - apply lookup_delete_eq.
Qed.

Lemma ttl_positive r : (0 < ttl r)%Z.
Proof. by destruct r. Qed.

Lemma replay_stored r : replay (stored r) = r.
Proof. by destruct r. Qed.

(** *** Turns of the loop *)

Lemma loop_turn_eq {A} (e : turn) (w : world) (tasks : list (task A)) tk w' tk' :
  (clock w <= turn_time e)%Z ->
  tasks !! turn_task e = Some tk ->
  take_turn (at_time w (turn_time e)) e tk = Some (w', tk') ->
  loop_turn e (w, tasks) = Some (w', <[turn_task e := tk']> tasks).
Proof.
  intros Ht Htk Htake. unfold loop_turn.
  destruct (Z.ltb_spec (turn_time e) (clock w)); [lia|].
  rewrite Htk. cbn. rewrite Htake. reflexivity.
Qed.

Lemma loop_turn_disabled {A} (e : turn) (w : world) (tasks : list (task A)) tk :
  tasks !! turn_task e = Some tk ->
  take_turn (at_time w (turn_time e)) e tk = None ->
  loop_turn e (w, tasks) = None.
Proof.
  intros Htk Htake. unfold loop_turn.
  destruct (Z.ltb_spec (turn_time e) (clock w)); [done|].
  rewrite Htk. cbn. rewrite Htake. reflexivity.
Qed.

(** Two callers of the same call, on a store without an entry and without
    an event for its key: the first to run is the leader, the other one
    waits, and once the function is back both end with its result. *)
Lemma two_callers w call r t1 t2 t3 t4 (first_is_leader : bool) :
  let key := cache_key call in
  let i := if first_is_leader then 0%nat else 1%nat in
  let j := if first_is_leader then 1%nat else 0%nat in
  let start := (w, [Ready (wrapper call); Ready (wrapper call)]) in
  live_entry w t1 key = None ->
  CACHE_LOCKS w !! key = None ->
  (clock w <= t1)%Z -> (t1 <= t2)%Z -> (t2 <= t3)%Z -> (t3 <= t4)%Z ->
  (exists w2 tasks2,
      loop [Step i t1; Step j t2] start = Some (w2, tasks2)
      /\ map phase_of tasks2 = (if first_is_leader then [Fetching; Waiting]
                                else [Waiting; Fetching])
      /\ calls (history w2) = (calls (history w) ++ [call])%list
      /\ (forall t, loop_turn (Step j t) (w2, tasks2) = None)
      /\ (forall t, loop_turn (Step i t) (w2, tasks2) = None)
      /\ (forall t r', loop_turn (Complete j t r') (w2, tasks2) = None)
      /\ (completes r = true -> (t4 < t3 + ttl r)%Z ->
          exists w4,
            loop [Complete i t3 r; Step j t4] (w2, tasks2)
            = Some (w4, [Finished r; Finished r])
            /\ calls (history w4) = calls (history w2)
            /\ live_entry w4 t4 key = Some (stored r)
            /\ CACHE_LOCKS w4 !! key = None)).
Proof.
  intros key i j start Hlive Hlock H01 H12 H23 H34. subst key i j start.
  set (ev := length (events w)).
  (* the leader enters *)
  destruct (wrapper_leader (at_time w t1) call) as (k & Hrun1 & Hk).
  { by eapply misses_no_entry. }
  { done. }
  (* the follower enters *)
  destruct (wrapper_follower
              (at_time (record_call (locks_set_new (at_time w t1) (cache_key call)) call) t2)
              call ev) as (kf & Hrun2 & Hkf).
  { eapply misses_no_entry; [|done]. eapply live_entry_later; [exact Hlive|done]. }
  { cbn. apply lookup_insert_eq. }
  { unfold is_set. cbn. fold ev. by rewrite lookup_app_r, Nat.sub_diag. }
  set (w1 := record_call (locks_set_new (at_time w t1) (cache_key call)) call) in *.
  exists (at_time w1 t2),
    (if first_is_leader then [InFlight call k; Blocked ev kf]
     else [Blocked ev kf; InFlight call k]).
  assert (Hnotset : forall t, is_set (at_time (at_time w1 t2) t) ev = false).
  { intros t. unfold is_set. cbn. fold ev. by rewrite lookup_app_r, Nat.sub_diag. }
  split; [|split; [by destruct first_is_leader|split; [|split; [|split; [|split]]]]].
  - cbn [loop].
    destruct first_is_leader.
    + erewrite (loop_turn_eq (Step 0 t1) _ _ (Ready (wrapper call)));
        [|cbn; lia|done|cbn [take_turn turn_time]; rewrite Hrun1; done].
      cbn [mbind option_bind].
      erewrite (loop_turn_eq (Step 1 t2) _ _ (Ready (wrapper call)));
        [|cbn; lia|done|cbn [take_turn turn_time]; rewrite Hrun2; done].
      reflexivity.
    + erewrite (loop_turn_eq (Step 1 t1) _ _ (Ready (wrapper call)));
        [|cbn; lia|done|cbn [take_turn turn_time]; rewrite Hrun1; done].
      cbn [mbind option_bind].
      erewrite (loop_turn_eq (Step 0 t2) _ _ (Ready (wrapper call)));
        [|cbn; lia|done|cbn [take_turn turn_time]; rewrite Hrun2; done].
      reflexivity.
  - cbn. by rewrite !calls_app, app_nil_r.
  - intros t. destruct first_is_leader;
      (eapply loop_turn_disabled; [reflexivity|]); cbn [take_turn turn_time];
      by rewrite Hnotset.
  - intros t. destruct first_is_leader;
      by (eapply loop_turn_disabled; [reflexivity|]).
  - intros t r'. destruct first_is_leader;
      by (eapply loop_turn_disabled; [reflexivity|]).
  - intros Hr H4.
    set (w2 := at_time (at_time w1 t2) t3).
    assert (Hev : (ev < length (events w2))%nat).
    { cbn. rewrite length_app. cbn. fold ev. lia. }
    destruct (leader_exit_state w2 (cache_key call) ev r Hr Hev)
      as (Hc & Hs & Hl & Hclock & Hh).
    specialize (Hk w2 r ltac:(cbn; apply lookup_insert_eq)).
    set (w3 := leader_exit w2 (cache_key call) ev r) in *.
    assert (Hlive4 : live_entry (at_time w3 t4) t4 (cache_key call) = Some (stored r)).
    { unfold live_entry. cbn [CACHE at_time]. rewrite Hc. cbn [clock w2 at_time].
      destruct (Z.ltb_spec t4 (t3 + ttl r)); [done | lia]. }
    assert (Hturn3 : forall n,
               take_turn (at_time (at_time w1 t2) t3) (Complete n t3 r)
                 (InFlight call k) = Some (w3, Finished r)).
    { intros n. cbn [take_turn]. exact (f_equal Some Hk). }
    assert (Hturn4 : forall n,
               take_turn (at_time w3 t4) (Step n t4) (Blocked ev kf)
               = Some (at_time w3 t4, Finished r)).
    { intros n. cbn [take_turn].
      assert (Hset4 : is_set (at_time w3 t4) ev = true) by exact Hs.
      rewrite Hset4, Hkf. unfold store_get. cbn [clock at_time].
      rewrite Hlive4. cbn [default from_option id]. by rewrite replay_stored. }
    assert (Hcalls : calls (history (at_time w3 t4)) = calls (history (at_time w1 t2))).
    { cbn [history at_time]. rewrite Hh. rewrite !calls_app. cbn.
      by rewrite !app_nil_r. }
    exists (at_time w3 t4). cbn [loop].
    destruct first_is_leader.
    + erewrite (loop_turn_eq (Complete 0 t3 r) _ _ (InFlight call k));
        [|cbn; lia|done|exact (Hturn3 0%nat)].
      cbn [mbind option_bind].
      erewrite (loop_turn_eq (Step 1 t4) _ _ (Blocked ev kf));
        [|rewrite Hclock; cbn; lia|done|exact (Hturn4 1%nat)].
      by repeat split.
    + erewrite (loop_turn_eq (Complete 1 t3 r) _ _ (InFlight call k));
        [|cbn; lia|done|exact (Hturn3 1%nat)].
      cbn [mbind option_bind].
      erewrite (loop_turn_eq (Step 0 t4) _ _ (Blocked ev kf));
        [|rewrite Hclock; cbn; lia|done|exact (Hturn4 0%nat)].
      by repeat split.
Qed.

Lemma loop_app {A} (es es' : list turn) (cfg : world * list (task A)) :
  loop (es ++ es')%list cfg = loop es cfg ≫= loop es'.
Proof.
  revert cfg. induction es as [|e es IH]; intros cfg; [done|].
  cbn [loop app]. destruct (loop_turn e cfg) as [cfg'|]; [|done].
  cbn. apply IH.
Qed.

(** One caller on a store without an entry and without an event for its
    key: it calls the function and leaves as a leader does. *)
Lemma one_caller w call r t0 t1 :
  let key := cache_key call in
  let w1 := record_call (locks_set_new (at_time w t0) key) call in
  live_entry w t0 key = None ->
  CACHE_LOCKS w !! key = None ->
  (clock w <= t0)%Z -> (t0 <= t1)%Z ->
  loop [Step 0 t0; Complete 0 t1 r] (w, [Ready (wrapper call)])
  = Some (leader_exit (at_time w1 t1) key (length (events w)) r, [Finished r]).
Proof.
  intros key w1 Hlive Hlock H0 H1. subst key w1.
  destruct (wrapper_leader (at_time w t0) call) as (k & Hrun & Hk).
  { by eapply misses_no_entry. }
  { done. }
  specialize (Hk (at_time (record_call (locks_set_new (at_time w t0) (cache_key call))
                             call) t1) r ltac:(cbn; apply lookup_insert_eq)).
  cbn [loop].
  erewrite (loop_turn_eq (Step 0 t0) _ _ (Ready (wrapper call)));
    [|cbn; lia|done|cbn [take_turn turn_time]; rewrite Hrun; done].
  cbn [mbind option_bind].
  erewrite (loop_turn_eq (Complete 0 t1 r) _ _ (InFlight call k));
    [|cbn; lia|done|cbn [take_turn turn_time]; exact (f_equal Some Hk)].
  reflexivity.
Qed.

End Decorator.

(** The part of C1 that holds.  On a store that holds no entry and no
    event for the key of a call, two callers of that call, whichever runs
    first, make one call of the decorated function between them: the first
    becomes the leader and calls it, the second waits, nothing but the
    return of the function can happen next, and when the function has
    returned or raised the [Exception] [r] and the second caller wakes up
    within the lifetime of the entry, both end with [r]. *)
Theorem concurrent_callers_share_one_fetch :
  forall (w : world) (call : invocation) (r : result json)
         (t1 t2 t3 t4 : Z) (first_is_leader : bool),
    let key := cache_key call in
    let i := if first_is_leader then 0%nat else 1%nat in
    let j := if first_is_leader then 1%nat else 0%nat in
    let start := (w, [Ready (wrapper call); Ready (wrapper call)]) in
    live_entry w t1 key = None ->
    CACHE_LOCKS w !! key = None ->
    (clock w <= t1)%Z -> (t1 <= t2)%Z -> (t2 <= t3)%Z -> (t3 <= t4)%Z ->
    (t4 < t3 + ttl r)%Z ->
    completes r = true ->
    (exists w4,
        loop [Step i t1; Step j t2; Complete i t3 r; Step j t4] start
        = Some (w4, [Finished r; Finished r])
        /\ calls (history w4) = (calls (history w) ++ [call])%list)
    /\ (forall e, loop [Step i t1; Step j t2; e] start <> None ->
                  exists t r', e = Complete i t r').
Proof.
  intros w call r t1 t2 t3 t4 first_is_leader key i j start
    Hlive Hlock H01 H12 H23 H34 H4 Hr.
  destruct (two_callers w call r t1 t2 t3 t4 first_is_leader
              Hlive Hlock H01 H12 H23 H34)
    as (w2 & tasks2 & Hloop & Hphases & Hcalls & Hj & Hi & Hcj & Hend).
  fold key i j start in Hloop, Hj, Hi, Hcj, Hend.
  split.
  - destruct (Hend Hr H4) as (w4 & Hloop4 & Hcalls4 & _).
    exists w4. split; [|by rewrite Hcalls4].
    change [Step i t1; Step j t2; Complete i t3 r; Step j t4]
      with ([Step i t1; Step j t2] ++ [Complete i t3 r; Step j t4])%list.
    rewrite loop_app, Hloop. exact Hloop4.
  - intros e He.
    change [Step i t1; Step j t2; e] with ([Step i t1; Step j t2] ++ [e])%list in He.
    rewrite loop_app, Hloop in He. cbn [mbind option_bind loop] in He.
    assert (Hlen : length tasks2 = 2%nat).
    { rewrite <- (length_map phase_of), Hphases. by destruct first_is_leader. }
    assert (Hout : forall e', (2 <= turn_task e')%nat ->
                              loop_turn e' (w2, tasks2) = None).
    { intros e' Hge. unfold loop_turn.
      destruct (turn_time e' <? clock w2)%Z; [done|].
      by rewrite (lookup_ge_None_2 tasks2 (turn_task e')) by lia. }
    assert (Hij : forall n, n = i \/ n = j \/ (2 <= n)%nat).
    { intros n. subst i j. destruct first_is_leader; lia. }
    destruct e as [n t | n t r'].
    + exfalso. apply He.
      destruct (Hij n) as [-> | [-> | Hn]];
        [by rewrite Hi | by rewrite Hj | by rewrite Hout].
    + destruct (Hij n) as [-> | [-> | Hn]]; [by eauto | |];
        exfalso; apply He; [by rewrite Hcj | by rewrite Hout].
Qed.

Lemma concurrent_callers_share_one_fetch_witness :
  (exists w4,
      loop [Step 0 1; Step 1 2;
            Complete 0 3 (Ok (JObj [("stateOfCharge", JNum 80)])); Step 1 4]
        (empty_world, [Ready (wrapper sample_call); Ready (wrapper sample_call)])
      = Some (w4, [Finished (Ok (JObj [("stateOfCharge", JNum 80)]));
                   Finished (Ok (JObj [("stateOfCharge", JNum 80)]))])
      /\ calls (history w4) = (calls (history empty_world) ++ [sample_call])%list)
  /\ (forall e,
         loop [Step 0 1; Step 1 2; e]
           (empty_world, [Ready (wrapper sample_call); Ready (wrapper sample_call)])
         <> None ->
         exists t r', e = Complete 0 t r').
Proof.
  apply (concurrent_callers_share_one_fetch empty_world sample_call
           (Ok (JObj [("stateOfCharge", JNum 80)])) 1 2 3 4 true);
    first [reflexivity | vm_compute; discriminate].
Defined.

(** C1: the two callers do not always end alike.  On the empty store, with
    the first caller started at time 1 and the second at time 2, one call
    of the function is made in both runs below.  In the first the call is
    cancelled at time 3: the leader raises the cancellation, nothing is
    stored, and the follower, woken at time 4, returns [None].  In the
    second the call raises an [Exception] at time 3 and the follower wakes
    at time 14, when the entry of the exception, kept for 10, is over: the
    leader raises the exception and the follower returns [None]. *)
Theorem follower_of_a_lost_fetch_returns_none :
  let cancelled := Raise (Exception_ CancelledError JNull) in
  let failed :=
    Raise (Exception_ MyPermobilAPIException (JStr "Permobil API 500: maintenance")) in
  let start :=
    (empty_world, [Ready (wrapper sample_call); Ready (wrapper sample_call)]) in
  let outcome es :=
    option_map (fun cfg => (map phase_of (snd cfg), calls (history (fst cfg))))
      (loop es start) in
  outcome [Step 0 1; Step 1 2; Complete 0 3 cancelled; Step 1 4]
  = Some ([Over cancelled; Over (Ok JNull)], [sample_call])
  /\ outcome [Step 0 1; Step 1 2; Complete 0 3 failed; Step 1 14]
     = Some ([Over failed; Over (Ok JNull)], [sample_call]).
Proof. split; vm_compute; reflexivity. Qed.

(** Two field fetches of [stateOfCharge] on an empty store: one call of
    [request_endpoint] on the battery endpoint, and both get the value. *)
Example two_field_fetches_one_request :
  let client := sample_client (Some "app") in
  let fetch := request_item 255 BATTERY_STATE_OF_CHARGE None (Some []) client in
  option_map (fun cfg => (map phase_of (snd cfg), calls (history (fst cfg))))
    (loop [Step 0 1; Step 1 2;
           Complete 0 3 (Ok (JObj [(BATTERY_STATE_OF_CHARGE, JNum 80)])); Step 1 4]
       (empty_world, [Ready fetch; Ready fetch]))
  = Some ([Over (Ok (JNum 80)); Over (Ok (JNum 80))],
          [Invocation "request_endpoint"
             [ Repr.Atom (Repr.AObject 255);
               Repr.Atom (Repr.AStr ENDPOINT_BATTERY_INFO); Repr.Dict [] ] []]).
Proof. vm_compute. reflexivity. Qed.



(** When the decorated function is cancelled the leader still sets the
    event and removes the key, and stores nothing: a follower then finds
    what the store held before. *)
Lemma leader_cancelled (w : world) (call : invocation) (r : result json) :
  let key := cache_key call in
  let ev := length (events w) in
  misses w key ->
  CACHE_LOCKS w !! key = None ->
  completes r = false ->
  exists k,
    run w (wrapper call)
    = (record_call (locks_set_new w key) call, InFlight call k)
    /\ forall w2,
         CACHE_LOCKS w2 !! key = Some ev ->
         (ev < length (events w2))%nat ->
         exists w3,
           run w2 (k r) = (w3, Finished r)
           /\ CACHE w3 = CACHE w2
           /\ is_set w3 ev = true
           /\ CACHE_LOCKS w3 !! key = None.
Proof.
  intros key ev Hmiss Hlock Hr.
  destruct (wrapper_leader w call Hmiss Hlock) as (k & Hrun & Hk).
  exists k. split; [exact Hrun|]. intros w2 Hl2 Hev2.
  destruct (leader_exit_cancelled w2 key ev r Hr Hev2) as (Hc & Hs & Hl).
  exists (leader_exit w2 key ev r). by rewrite Hk.
Qed.

(** C3: a caller whose call of the decorated function raises the
    [Exception] [e] raises [e], and leaves [e] in the store under the key
    with the failure lifetime of 10, shorter than the 300 of a success;
    until that lifetime is over every call with the same key raises the same
    [e] and changes nothing, so that the function is not called; from then
    on a call with this key calls the function again. *)
Theorem failure_is_replayed_until_it_expires :
  forall (w : world) (call : invocation) (e : exception) (t0 t1 : Z),
    let key := cache_key call in
    live_entry w t0 key = None ->
    CACHE_LOCKS w !! key = None ->
    is_Exception e = true ->
    (clock w <= t0)%Z -> (t0 <= t1)%Z ->
    exists w1,
      loop [Step 0 t0; Complete 0 t1 (Raise e)] (w, [Ready (wrapper call)])
      = Some (w1, [Finished (Raise e)])
      /\ CACHE w1 !! key = Some (Exc e, (t1 + CACHE_ERROR_TTL)%Z)
      /\ (CACHE_ERROR_TTL < CACHE_TTL)%Z
      /\ (forall (call' : invocation) (t : Z),
             cache_key call' = key ->
             (t1 <= t)%Z -> (t < t1 + CACHE_ERROR_TTL)%Z ->
             run (at_time w1 t) (wrapper call')
             = (at_time w1 t, Finished (Raise e)))
      /\ (forall (call' : invocation) (t : Z),
             cache_key call' = key ->
             (t1 + CACHE_ERROR_TTL <= t)%Z ->
             exists k,
               run (at_time w1 t) (wrapper call')
               = (record_call (locks_set_new (at_time w1 t) key) call',
                  InFlight call' k)).
Proof.
  intros w call e t0 t1 key Hlive Hlock He H0 H1.
  pose proof (one_caller w call (Raise e) t0 t1 Hlive Hlock H0 H1) as Hloop.
  cbv zeta in Hloop. fold key in Hloop.
  set (w0 := at_time (record_call (locks_set_new (at_time w t0) key) call) t1) in *.
  assert (Hev : (length (events w) < length (events w0))%nat).
  { cbn. rewrite length_app. cbn. lia. }
  destruct (leader_exit_state w0 key (length (events w)) (Raise e) He Hev)
    as (Hc & Hs & Hl & Hclock & Hh).
  set (w1 := leader_exit w0 key (length (events w)) (Raise e)) in *.
  cbn [stored ttl] in Hc. change (clock w0) with t1 in Hc.
  exists w1. split; [exact Hloop|]. split; [exact Hc|]. split; [done|]. split.
  - intros call' t Hkey Ht1 Ht2. apply wrapper_hit_error.
    rewrite Hkey. unfold store_get, live_entry. cbn [CACHE at_time clock].
    rewrite Hc. by destruct (Z.ltb_spec t (t1 + CACHE_ERROR_TTL)); [|lia].
  - intros call' t Hkey Ht.
    destruct (wrapper_leader (at_time w1 t) call') as (k & Hrun & _).
    + exists JNull. split; [|done]. rewrite Hkey.
      unfold store_get, live_entry. cbn [CACHE at_time clock].
      rewrite Hc. by destruct (Z.ltb_spec t (t1 + CACHE_ERROR_TTL)); [lia|].
    + rewrite Hkey. exact Hl.
    + exists k. by rewrite <- Hkey.
Qed.


Lemma failure_is_replayed_until_it_expires_witness :
  exists w1,
    loop [Step 0 1; Complete 0 2 (Raise (Exception_ MyPermobilAPIException
                                           (JStr "Permobil API 500: maintenance")))]
      (empty_world, [Ready (wrapper sample_call)])
    = Some (w1, [Finished (Raise (Exception_ MyPermobilAPIException
                                    (JStr "Permobil API 500: maintenance")))])
    /\ run (at_time w1 11) (wrapper sample_call)
       = (at_time w1 11,
          Finished (Raise (Exception_ MyPermobilAPIException
                             (JStr "Permobil API 500: maintenance")))).
Proof.
  destruct (failure_is_replayed_until_it_expires empty_world sample_call
              (Exception_ MyPermobilAPIException (JStr "Permobil API 500: maintenance"))
              1 2)
    as (w1 & Hloop & _ & _ & Hreplay & _);
    [reflexivity | reflexivity | reflexivity
    | vm_compute; discriminate | vm_compute; discriminate |].
  exists w1. split; [exact Hloop|].
  apply Hreplay; [reflexivity | vm_compute; discriminate | reflexivity].
Defined.

(** ** Successful results *)

Section Success.

(** What the store holds once a single caller has fetched [v]. *)
Lemma success_is_stored (w : world) (call : invocation) (v : json) (t0 t1 : Z) :
  let key := cache_key call in
  live_entry w t0 key = None ->
  CACHE_LOCKS w !! key = None ->
  (clock w <= t0)%Z -> (t0 <= t1)%Z ->
  exists w1,
    loop [Step 0 t0; Complete 0 t1 (Ok v)] (w, [Ready (wrapper call)])
    = Some (w1, [Finished (Ok v)])
    /\ CACHE w1 !! key = Some (Val v, (t1 + CACHE_TTL)%Z)
    /\ CACHE_LOCKS w1 !! key = None.
Proof.
  intros key Hlive Hlock H0 H1.
  pose proof (one_caller w call (Ok v) t0 t1 Hlive Hlock H0 H1) as Hloop.
  cbv zeta in Hloop. fold key in Hloop.
  set (w0 := at_time (record_call (locks_set_new (at_time w t0) key) call) t1) in *.
  assert (Hev : (length (events w) < length (events w0))%nat).
  { cbn. rewrite length_app. cbn. lia. }
  destruct (leader_exit_state w0 key (length (events w)) (Ok v) eq_refl Hev)
    as (Hc & Hs & Hl & Hclock & Hh).
  eexists. split; [exact Hloop|]. split; [exact Hc | exact Hl].
Qed.

(** The part of C2 that holds.  A stored value that counts as true is
    returned, without a call of the function, until its lifetime is over;
    and once the lifetime of a stored value is over, the next call with the
    key calls the function, once. *)
Lemma truthy_success_is_replayed (w1 : world) (call : invocation) (v : json)
    (expires t : Z) :
  CACHE w1 !! cache_key call = Some (Val v, expires) ->
  truthy v = true ->
  (t < expires)%Z ->
  run (at_time w1 t) (wrapper call) = (at_time w1 t, Finished (Ok v)).
Proof.
  intros Hc Hv Ht. apply wrapper_hit; [|done].
  unfold store_get, live_entry. cbn [CACHE at_time clock]. rewrite Hc.
  by destruct (Z.ltb_spec t expires); [|lia].
Qed.

Lemma expired_success_is_fetched_again (w1 : world) (call : invocation)
    (v : json) (expires t : Z) :
  CACHE w1 !! cache_key call = Some (Val v, expires) ->
  CACHE_LOCKS w1 !! cache_key call = None ->
  (expires <= t)%Z ->
  exists k,
    run (at_time w1 t) (wrapper call)
    = (record_call (locks_set_new (at_time w1 t) (cache_key call)) call,
       InFlight call k)
    /\ calls (history (record_call (locks_set_new (at_time w1 t) (cache_key call)) call))
       = (calls (history w1) ++ [call])%list.
Proof.
  intros Hc Hl Ht.
  destruct (wrapper_leader (at_time w1 t) call) as (k & Hrun & _).
  - exists JNull. split; [|done].
    unfold store_get, live_entry. cbn [CACHE at_time clock]. rewrite Hc.
    by destruct (Z.ltb_spec t expires); [lia|].
  - exact Hl.
  - exists k. split; [exact Hrun|]. cbn. by rewrite !calls_app, app_nil_r.
Qed.

(** The part of C2 that fails.  A stored value that counts as false (an
    empty object or list, zero, the empty string, [False], [None]) is taken
    for a miss: a call with the key within its lifetime calls the function
    again. *)
Lemma falsy_success_is_fetched_again (w1 : world) (call : invocation)
    (v : json) (expires t : Z) :
  CACHE w1 !! cache_key call = Some (Val v, expires) ->
  CACHE_LOCKS w1 !! cache_key call = None ->
  truthy v = false ->
  exists k,
    run (at_time w1 t) (wrapper call)
    = (record_call (locks_set_new (at_time w1 t) (cache_key call)) call,
       InFlight call k)
    /\ calls (history (record_call (locks_set_new (at_time w1 t) (cache_key call)) call))
       = (calls (history w1) ++ [call])%list.
Proof.
  intros Hc Hl Hv.
  destruct (wrapper_leader (at_time w1 t) call) as (k & Hrun & _).
  - unfold misses, store_get, live_entry. cbn [CACHE at_time clock]. rewrite Hc.
    destruct (Z.ltb_spec t expires); [by exists v | by exists JNull].
  - exact Hl.
  - exists k. split; [exact Hrun|]. cbn. by rewrite !calls_app, app_nil_r.
Qed.

End Success.

(** C2: an endpoint answers the empty object; the first caller fetches it
    at time 1 and has it at time 2, when it is stored for 300; the second
    caller, at time 3, does not get it from the store: it calls the function
    again, which the history shows called twice. *)
Theorem empty_result_is_fetched_again :
  option_map (fun cfg => (map phase_of (snd cfg), calls (history (fst cfg))))
    (loop [Step 0 1; Complete 0 2 (Ok (JObj [])); Step 1 3]
       (empty_world, [Ready (wrapper sample_call); Ready (wrapper sample_call)]))
  = Some ([Over (Ok (JObj [])); Fetching], [sample_call; sample_call]).
Proof. vm_compute. reflexivity. Qed.

(** With a result that counts as true the second caller is served from the
    store. *)
Example nonempty_result_is_replayed :
  option_map (fun cfg => (map phase_of (snd cfg), calls (history (fst cfg))))
    (loop [Step 0 1; Complete 0 2 (Ok (JObj [("stateOfCharge", JNum 80)])); Step 1 3]
       (empty_world, [Ready (wrapper sample_call); Ready (wrapper sample_call)]))
  = Some ([Over (Ok (JObj [("stateOfCharge", JNum 80)]));
           Over (Ok (JObj [("stateOfCharge", JNum 80)]))], [sample_call]).
Proof. vm_compute. reflexivity. Qed.

(** * Further properties *)

Import Rest.

(** ** Resolution of a field *)

Section Resolution.

Lemma endpoint_lookup_lookup (name : string) :
  ENDPOINT_LOOKUP !! name = first_declaring ITEM_LOOKUP name.
Proof.
  unfold ENDPOINT_LOOKUP.
  induction ITEM_LOOKUP as [|[endpoint items] tbl IH]; [done|].
  by rewrite build_endpoint_lookup_cons, first_declaring_cons, IH.
Qed.

Lemma table_get_key (tbl : table) (e : string) items :
  table_get tbl e = Some items -> e ∈ map fst tbl.
Proof.
  induction tbl as [|[e0 items0] tbl IH]; [done|]. cbn [table_get map fst].
  destruct (String.eqb_spec e0 e) as [-> | Hne]; [intros _; apply list_elem_of_here|].
  intros H. apply list_elem_of_further. auto.
Qed.

(** In a table with distinct keys, the endpoint a field resolves to is
    a key of the table whose list holds the field. *)
Lemma first_declaring_sound (tbl : table) (name e : string) :
  NoDup (map fst tbl) ->
  first_declaring tbl name = Some e ->
  exists items, table_get tbl e = Some items /\ item_in name items = true.
Proof.
  induction tbl as [|[e0 items0] tbl IH]; [done|].
  cbn [map fst]. intros [Hnotin Hnodup]%NoDup_cons.
  rewrite first_declaring_cons. destruct (item_in name items0) eqn:Hin.
  - intros [= <-]. exists items0. cbn [table_get]. by rewrite String.eqb_refl.
  - intros Hfirst. destruct (IH Hnodup Hfirst) as (items & Hget & Hitems).
    exists items. split; [|done]. cbn [table_get].
    destruct (String.eqb_spec e0 e) as [-> | Hne]; [|done].
    by apply table_get_key in Hget.
Qed.

Lemma ITEM_LOOKUP_keys_distinct : NoDup (map fst ITEM_LOOKUP).
Proof. apply (bool_decide_unpack _). vm_compute. reflexivity. Qed.

(** No endpoint is a field name: what is a key of [ITEM_LOOKUP] is no key
    of [ENDPOINT_LOOKUP]. *)
Lemma endpoint_is_no_field (e : string) items :
  table_get ITEM_LOOKUP e = Some items -> ENDPOINT_LOOKUP !! e = None.
Proof.
  intros H%table_get_key. revert H. unfold ITEM_LOOKUP. cbn [map fst].
  rewrite !elem_of_cons, elem_of_nil.
  intros [-> | [-> | [-> | [-> | [-> | [-> | []]]]]]]; vm_compute; reflexivity.
Qed.


Lemma request_item_target_without_endpoint :
  forall (item : string) (headers : option (list (string * string)))
         (self : MyPermobil),
    request_item_target item None headers self
    = (match headers with
       | Some h => resolved item h
       | None =>
           if authenticated self
           then resolved item [("Authorization", "Bearer " ++ str_attr (token self))]
           else client_error "Not authenticated"
       end, self).
Proof.
  intros item headers self.
  assert (Hres : forall h,
             match ENDPOINT_LOOKUP !! item with
             | Some e =>
                 match table_get ITEM_LOOKUP e with
                 | Some items =>
                     if negb (item_in item items)
                     then (client_error (item ++ " not in endpoint " ++ e), self)
                     else (Ok (e, h), self)
                 | None => (Raise (Exception_ KeyError (JStr e)), self)
                 end
             | None => (client_error ("No endpoint for item: " ++ item), self)
             end
             = (resolved item h, self)).
  { intros h. unfold resolved. rewrite endpoint_lookup_lookup.
    destruct (first_declaring ITEM_LOOKUP item) as [e|] eqn:Hfirst; [|done].
    destruct (first_declaring_sound _ _ _ ITEM_LOOKUP_keys_distinct Hfirst)
      as (items & -> & ->). done. }
  unfold request_item_target, Mypermobil.headers. unfold_method.
  destruct headers as [h|]; [|destruct (authenticated self)];
    cbv beta iota; try done.
  - rewrite <- (Hres h).
    destruct (ENDPOINT_LOOKUP !! item) as [e|]; try done;
      destruct (table_get ITEM_LOOKUP e); try done;
      by destruct (item_in item l).
  - rewrite <- (Hres _). unfold str_attr.
    destruct (ENDPOINT_LOOKUP !! item) as [e|]; try done;
      destruct (table_get ITEM_LOOKUP e); try done;
      by destruct (item_in item l).
Qed.

Lemma request_item_target_with_endpoint :
  forall (item e : string) (headers : option (list (string * string)))
         (self : MyPermobil),
    exists err,
      request_item_target item (Some e) headers self = (Raise err, self)
      /\ (is_client_error err = true \/ class err = KeyError).
Proof.
  intros item e headers self.
  unfold request_item_target, Mypermobil.headers. unfold_method.
  assert (Hstep : forall h : list (string * string),
             exists err,
               (if negb (bool_decide (is_Some (ENDPOINT_LOOKUP !! e)))
                then (client_error ("Invalid endpoint " ++ e), self)
                else
                  match table_get ITEM_LOOKUP e with
                  | Some items =>
                      if negb (item_in item items)
                      then (client_error (item ++ " not in endpoint " ++ e), self)
                      else (Ok (e, h), self)
                  | None => (Raise (Exception_ KeyError (JStr e)), self)
                  end)
               = (Raise err, self)
               /\ (is_client_error err = true \/ class err = KeyError)).
  { intros h. destruct (ENDPOINT_LOOKUP !! e) as [e'|] eqn:Hl.
    - cbn [negb]. rewrite bool_decide_true by eauto. cbn [negb].
      destruct (table_get ITEM_LOOKUP e) as [items|] eqn:Hg.
      + apply endpoint_is_no_field in Hg. congruence.
      + eexists. split; [reflexivity|]. by right.
    - rewrite bool_decide_false by (by intros [? ?]). cbn [negb].
      eexists. split; [reflexivity|]. by left. }
  destruct headers as [h|]; [|destruct (authenticated self)]; cbv beta iota.
  - destruct (Hstep h) as (err & Heq & Hc). exists err. split; [|done].
    rewrite <- Heq. destruct (negb (bool_decide (is_Some (ENDPOINT_LOOKUP !! e))));
      [done|]. destruct (table_get ITEM_LOOKUP e); [|done].
    by destruct (negb (item_in item l)).
  - destruct (Hstep [("Authorization", "Bearer " ++ default "None" (token self))])
      as (err & Heq & Hc). exists err. split; [|done].
    rewrite <- Heq. destruct (negb (bool_decide (is_Some (ENDPOINT_LOOKUP !! e))));
      [done|]. destruct (table_get ITEM_LOOKUP e); [|done].
    by destruct (negb (item_in item l)).
  - eexists. split; [reflexivity|]. by left.
Qed.

End Resolution.

(** X1: [request_item] without an endpoint, with headers given or on an
    authenticated client: the request goes to the endpoint that declares the
    field first, and a field no endpoint declares is refused with a usage
    error; the checks against the table cannot fail on a resolved endpoint.
    An unauthenticated client without headers is refused before the field is
    looked at. *)
Theorem request_item_resolves :
  forall (item : string) (headers : option (list (string * string)))
         (self : MyPermobil),
    request_item_target item None headers self
    = (match headers with
       | Some h => resolved item h
       | None =>
           if authenticated self
           then resolved item [("Authorization", "Bearer " ++ str_attr (token self))]
           else client_error "Not authenticated"
       end, self).
Proof.
  intros item headers self.
  rewrite request_item_target_without_endpoint.
  by destruct headers, (authenticated self).
Qed.

(** X2: [request_item] called with an endpoint never gets as far as the
    request, whatever the endpoint, the field, the headers and the client:
    it raises a usage error, or the [KeyError] of the table when the
    endpoint given is a field name. *)
Theorem request_item_with_endpoint_fails :
  forall (item e : string) (headers : option (list (string * string)))
         (self : MyPermobil),
    exists err,
      request_item_target item (Some e) headers self = (Raise err, self)
      /\ (is_client_error err = true \/ class err = KeyError).
Proof.
  intros item e headers self.
  destruct (request_item_target_with_endpoint item e headers self)
    as (err & Heq & Hclass).
  exists err. split; [exact Heq | exact Hclass].
Qed.

(** X3: when [request_item] does reach the request, no endpoint was given,
    the endpoint requested declares the field as one of its names, and it
    is not the products endpoint, whose fields sit in a nested dictionary
    that the index leaves out. *)
Theorem request_item_never_targets_products :
  forall (item : string) (endpoint : option string)
         (headers : option (list (string * string))) (self : MyPermobil)
         (e : string) (h : list (string * string)),
    fst (request_item_target item endpoint headers self) = Ok (e, h) ->
    endpoint = None
    /\ first_declaring ITEM_LOOKUP item = Some e
    /\ e <> ENDPOINT_PRODUCTS
    /\ exists items, table_get ITEM_LOOKUP e = Some items
                     /\ item_in item items = true.
Proof.
  intros item endpoint headers self e h H.
  destruct endpoint as [e0|].
  { destruct (request_item_target_with_endpoint item e0 headers self)
      as (err & Heq & _). rewrite Heq in H. discriminate H. }
  split; [done|]. rewrite request_item_target_without_endpoint in H.
  assert (Hfirst : first_declaring ITEM_LOOKUP item = Some e).
  { unfold resolved, client_error in H.
    destruct headers, (authenticated self);
      destruct (first_declaring ITEM_LOOKUP item); cbn [fst] in H; congruence. }
  split; [done|].
  destruct (first_declaring_sound _ _ _ ITEM_LOOKUP_keys_distinct Hfirst)
    as (items & Hget & Hin).
  split; [|by eauto]. intros ->.
  vm_compute in Hget. injection Hget as <-. discriminate Hin.
Qed.

Lemma request_item_never_targets_products_witness :
  @None string = None
  /\ first_declaring ITEM_LOOKUP BATTERY_DISTANCE_UNIT = Some ENDPOINT_BATTERY_INFO
  /\ ENDPOINT_BATTERY_INFO <> ENDPOINT_PRODUCTS
  /\ exists items, table_get ITEM_LOOKUP ENDPOINT_BATTERY_INFO = Some items
                   /\ item_in BATTERY_DISTANCE_UNIT items = true.
Proof.
  apply (request_item_never_targets_products BATTERY_DISTANCE_UNIT None
           (Some []) (sample_client (Some "app")) ENDPOINT_BATTERY_INFO []).
  vm_compute. reflexivity.
Defined.

(** ** The life of a client *)

Section Life.

Implicit Types (self : MyPermobil) (c : call) (now : Datetime.datetime).

Lemma validate_token_ok v x : validate_token v = Ok x -> v = Some x.
Proof. unfold validate_token, client_error. intros; repeat case_match; by simplify_eq. Qed.

Lemma validate_expiration_date_ok now v x :
  validate_expiration_date now v = Ok x -> v = Some x.
Proof.
  unfold validate_expiration_date, client_error.
  intros; repeat case_match; by simplify_eq.
Qed.

Lemma usage_error_raises {A} (out : result A * MyPermobil) self :
  usage_error out self -> raises_usage_error (fst out) /\ snd out = self.
Proof. intros (e & He & ->). split; [by exists e | done]. Qed.

(** On an authenticated client a call changes nothing but, for
    [close_session], the session. *)
Lemma perform_frozen now c self :
  authenticated self = true ->
  frozen_answer c (fst (perform now c self))
  /\ snd (perform now c self)
     = match c with
       | CloseSession => with_session None self
       | _ => self
       end.
Proof.
  intros Ha. destruct c as [v|v|v|v|v|v| | | |]; cbn [perform frozen_answer].
  - pose proof (set_email_spec v self) as H. rewrite Ha in H.
    by apply usage_error_raises in H.
  - pose proof (set_region_spec v self) as H. rewrite Ha in H.
    by apply usage_error_raises in H.
  - pose proof (set_code_spec v self) as H. rewrite Ha in H.
    by apply usage_error_raises in H.
  - pose proof (set_token_spec v self) as H. rewrite Ha in H.
    by apply usage_error_raises in H.
  - pose proof (set_expiration_date_spec now v self) as H. rewrite Ha in H.
    by apply usage_error_raises in H.
  - pose proof (set_application_spec v self) as H. rewrite Ha in H.
    by apply usage_error_raises in H.
  - pose proof (self_authenticate_spec now self) as H. rewrite Ha in H.
    by apply usage_error_raises in H.
  - unfold deauthenticate. unfold_method. by rewrite Ha.
  - unfold drop, headers. unfold_method. by rewrite Ha.
  - unfold close_session. unfold_method.
    destruct self as [? [s|] ? ? ? ? ? ? ?]; done.
Qed.

Lemma perform_all_frozen (cs : list (Datetime.datetime * call)) self :
  authenticated self = true ->
  Forall2 (fun nc r => frozen_answer (snd nc) r) cs (fst (perform_all cs self))
  /\ snd (perform_all cs self)
     = with_session (session (snd (perform_all cs self))) self.
Proof.
  revert self. induction cs as [|[now c] cs IH]; intros self Ha.
  { split; [constructor|]. by destruct self. }
  cbn [perform_all].
  destruct (perform_frozen now c self Ha) as [Hans Hstate].
  destruct (perform now c self) as [r self1]. cbn [fst snd] in Hans, Hstate.
  assert (Ha1 : authenticated self1 = true) by (subst self1; by destruct c).
  destruct (IH self1 Ha1) as [Hrs Hfinal].
  destruct (perform_all cs self1) as [rs self2]. cbn [fst snd] in *.
  split; [by constructor|].
  rewrite Hfinal at 1. subst self1. by destruct c.
Qed.

(** A setter that returned has stored its argument, which its validator
    accepts. *)
Lemma setter_returned set validate update v self :
  validating_setter set validate update ->
  (forall x, validate v = Ok x -> v = Some x) ->
  authenticated self = false ->
  fst (set v self) = Ok tt ->
  set v self = (Ok tt, update v self) /\ is_ok (validate v) = true.
Proof.
  intros Hset Hsame Ha Hok. specialize (Hset v self). rewrite Ha in Hset.
  destruct (validate v) as [x|err] eqn:Hv.
  - rewrite (Hsame x eq_refl) in Hset |- *. done.
  - destruct Hset as (e & _ & Heq). rewrite Heq in Hok. discriminate Hok.
Qed.

End Life.

(** X4: once a client is authenticated, whatever methods are then called on
    it, in whatever order and with whatever arguments, every setter and
    every [self_authenticate] raises a usage error, [deauthenticate] and the
    [headers] property succeed, and the client at the end differs from the
    one at the start in nothing but its HTTP session, which [close_session]
    may have closed: it is still authenticated, with the same application,
    email, region, code, token and expiration date. *)
Theorem authenticated_client_is_frozen :
  forall (cs : list (Datetime.datetime * call)) (self : MyPermobil),
    authenticated self = true ->
    let '(rs, self') := perform_all cs self in
    Forall2 (fun nc r => frozen_answer (snd nc) r) cs rs
    /\ self' = with_session (session self') self
    /\ authenticated self' = true.
Proof.
  intros cs self Ha.
  destruct (perform_all_frozen cs self Ha) as [Hrs Hfinal].
  destruct (perform_all cs self) as [rs self']. cbn [fst snd] in *.
  split; [exact Hrs|]. split; [exact Hfinal|].
  rewrite Hfinal. exact Ha.
Qed.

Lemma authenticated_client_is_frozen_witness :
  let self := snd (self_authenticate sample_now (sample_client (Some "app"))) in
  let '(rs, self') :=
    perform_all [ (sample_now, SetEmail (Some "other@example.com"));
                  (sample_now, Headers); (sample_now, CloseSession);
                  (sample_now, SetToken None); (sample_now, SelfAuthenticate) ]
      self in
  Forall2 (fun nc r => frozen_answer (snd nc) r)
    [ (sample_now, SetEmail (Some "other@example.com"));
      (sample_now, Headers); (sample_now, CloseSession);
      (sample_now, SetToken None); (sample_now, SelfAuthenticate) ] rs
  /\ self' = with_session (session self') self
  /\ authenticated self' = true.
Proof.
  apply (authenticated_client_is_frozen
           [ (sample_now, SetEmail (Some "other@example.com"));
             (sample_now, Headers); (sample_now, CloseSession);
             (sample_now, SetToken None); (sample_now, SelfAuthenticate) ]
           (snd (self_authenticate sample_now (sample_client (Some "app"))))).
  vm_compute. reflexivity.
Defined.

(** X5: on a client that is not authenticated, when [set_application],
    [set_region], [set_email], [set_token] and [set_expiration_date] are
    called in this order, one after the other with no call in between and
    at one reading of the clock, and none of them raises, and the
    application name passed is not empty, then [self_authenticate] called
    next at the same reading of the clock succeeds; the client then holds
    exactly the values passed, keeps its code, session and timeout, and its
    [headers] carry the token that was set. *)
Theorem setters_then_authenticate :
  forall (now : Datetime.datetime) (self : MyPermobil)
         (app r e t d : option string),
    authenticated self = false ->
    Str.truthy app = true ->
    let '(rs, self') :=
      perform_all [ (now, SetApplication app); (now, SetRegion r);
                    (now, SetEmail e); (now, SetToken t);
                    (now, SetExpirationDate d) ] self in
    Forall (fun r => r = Ok tt) rs ->
    self' = Build_MyPermobil app (session self) e r (code self) t d
              (request_timeout self) false
    /\ self_authenticate now self' = (Ok tt, with_authenticated true self')
    /\ fst (headers (with_authenticated true self'))
       = Ok [("Authorization", "Bearer " ++ str_attr t)].
Proof.
  intros now self app r e t d Ha Happ.
  cbn [perform_all perform].
  destruct (set_application app self) as [r1 s1] eqn:E1.
  destruct (set_region r s1) as [r2 s2] eqn:E2.
  destruct (set_email e s2) as [r3 s3] eqn:E3.
  destruct (set_token t s3) as [r4 s4] eqn:E4.
  destruct (set_expiration_date now d s4) as [r5 s5] eqn:E5.
  intros HF.
  apply Forall_cons in HF as [-> HF]. apply Forall_cons in HF as [-> HF].
  apply Forall_cons in HF as [-> HF]. apply Forall_cons in HF as [-> HF].
  apply Forall_cons in HF as [-> _].
  pose proof (set_application_spec app self) as H1. rewrite Ha, E1 in H1.
  injection H1 as ->.
  destruct (setter_returned set_region validate_region with_region r
              (with_application app self) set_region_spec
              (validate_region_ok r) Ha ltac:(by rewrite E2)) as [H2 V2].
  rewrite E2 in H2. injection H2 as ->.
  destruct (setter_returned set_email validate_email with_email e
              (with_region r (with_application app self)) set_email_spec
              (validate_email_ok e) Ha ltac:(by rewrite E3)) as [H3 V3].
  rewrite E3 in H3. injection H3 as ->.
  destruct (setter_returned set_token validate_token with_token t
              (with_email e (with_region r (with_application app self)))
              set_token_spec (validate_token_ok t) Ha ltac:(by rewrite E4))
    as [H4 V4].
  rewrite E4 in H4. injection H4 as ->.
  destruct (setter_returned (set_expiration_date now)
              (validate_expiration_date now) with_expiration_date d
              (with_token t (with_email e (with_region r (with_application app self))))
              (set_expiration_date_spec now) (validate_expiration_date_ok now d)
              Ha ltac:(by rewrite E5)) as [H5 V5].
  rewrite E5 in H5. injection H5 as ->.
  split; [by rewrite <- Ha|]. split; [|reflexivity].
  pose proof (self_authenticate_spec now
                (with_expiration_date d
                   (with_token t
                      (with_email e (with_region r (with_application app self))))))
    as H6.
  unfold credentials_valid in H6.
  cbn [authenticated application region email token expiration_date
         with_expiration_date with_token with_email with_region
         with_application] in H6.
  by rewrite Ha, Happ, V2, V3, V4, V5 in H6.
Qed.

Lemma setters_then_authenticate_witness :
  let self' :=
    Build_MyPermobil (Some "app") (Some 1%positive) (Some "user@example.com")
      (Some "https://eu.permobil.com") None (Some T256) (Some "2030-01-01") 10
      false in
  self_authenticate sample_now self' = (Ok tt, with_authenticated true self').
Proof.
  pose proof (setters_then_authenticate sample_now
                (init None (Some 1%positive) None None None None None 10)
                (Some "app") (Some "https://eu.permobil.com")
                (Some "user@example.com") (Some T256) (Some "2030-01-01")
                eq_refl eq_refl) as H.
  vm_compute in H. vm_compute.
  refine (proj1 (proj2 (H _))). repeat constructor.
Defined.

(** X6: [close_session] leaves every attribute but the session as it was,
    and the session closed, on any client, authenticated or not; called a
    second time it raises a usage error and changes nothing. *)
Theorem close_session_twice :
  forall self : MyPermobil,
    snd (close_session self) = with_session None self
    /\ fst (close_session self)
       = (if session self is Some _ then Ok tt
          else client_error "Session does not exist")
    /\ close_session (snd (close_session self))
       = (client_error "Session does not exist", with_session None self).
Proof.
  intros self. unfold close_session. unfold_method.
  destruct self as [a [s|] e r c t d q au]; cbn; done.
Qed.

(** ** The validators *)

Section Validators.

Implicit Types (s r : string) (c : ascii) (p : list Re.atom).

(** A pattern that matches a prefix of a string matches a prefix of every
    extension of it. *)
Lemma matches_extends p s r :
  Re.matches p s = true -> Re.matches p (s ++ r) = true.
Proof.
  revert s. induction p as [|[c|c] p IH]; intros s; [done| |].
  - cbn [Re.matches]. destruct s as [|x s]; [done|]. rewrite app_cons.
    intros [-> H]%andb_true_iff. by rewrite (IH _ H).
  - cbn [Re.matches]. induction s as [|x s IHs]; [done|]. rewrite app_cons.
    intros [-> [H|H]%orb_true_iff]%andb_true_iff; cbn [andb].
    + by rewrite (IHs H).
    + by rewrite (IH _ H), orb_true_r.
Qed.

(** What [[^c]+] followed by a pattern matches. *)
Lemma matches_not_plus c p s :
  Re.matches (Re.NotPlus c :: p) s = true <->
  exists a r, s = a ++ r /\ a <> "" /\ Repr.contains c a = false
              /\ Re.matches p r = true.
Proof.
  cbn [Re.matches]. split.
  - induction s as [|x s IHs]; [done|].
    intros [Hx [H|H]%orb_true_iff]%andb_true_iff.
    + destruct (IHs H) as (a & r & -> & _ & Ha & Hr).
      exists (String x a), r. repeat split; [done| |done].
      cbn [Repr.contains]. rewrite Ha, orb_false_r.
      by destruct (Ascii.eqb x c).
    + exists (String x ""), s. repeat split; [done| |done].
      cbn [Repr.contains]. by destruct (Ascii.eqb x c).
  - intros (a & r & -> & Hne & Ha & Hr).
    induction a as [|x a IHa]; [done|]. rewrite app_cons.
    cbn [Repr.contains] in Ha. apply orb_false_elim in Ha as [Hx Ha].
    rewrite Hx. cbn [negb andb]. destruct a as [|y a].
    + rewrite app_empty_l, Hr. apply orb_true_r.
    + by rewrite IHa.
Qed.

Lemma matches_lit c p s :
  Re.matches (Re.Lit c :: p) s = true <->
  exists r, s = String c r /\ Re.matches p r = true.
Proof.
  cbn [Re.matches]. destruct s as [|x s]; [split; [done | by intros (? & ? & _)]|].
  rewrite andb_true_iff. split.
  - intros [->%Ascii.eqb_eq H]. by exists s.
  - intros (r & [= -> ->] & H). by rewrite Ascii.eqb_refl.
Qed.

End Validators.

(** X7: a validator gives back the very string it was given, or raises a
    usage error: it never alters a value and never raises anything else. *)
Theorem validators_return_their_argument :
  forall (now : Datetime.datetime) (v : option string),
    let returns_argument (r : result string) :=
      match r with
      | Ok x => v = Some x
      | Raise e => is_client_error e = true
      end in
    returns_argument (validate_email v)
    /\ returns_argument (validate_code v)
    /\ returns_argument (validate_token v)
    /\ returns_argument (validate_expiration_date now v)
    /\ returns_argument (validate_region v).
Proof.
  intros now v returns_argument. subst returns_argument. cbv beta.
  repeat split.
  - destruct (validate_email v) eqn:E;
      [by apply validate_email_ok | by eapply validate_email_error].
  - destruct (validate_code v) eqn:E;
      [by apply validate_code_ok | by eapply validate_code_error].
  - destruct (validate_token v) eqn:E;
      [by apply validate_token_ok | by eapply validate_token_error].
  - destruct (validate_expiration_date now v) eqn:E;
      [by eapply validate_expiration_date_ok
      | by eapply validate_expiration_date_error].
  - destruct (validate_region v) eqn:E;
      [by apply validate_region_ok | by eapply validate_region_error].
Qed.

(** X8: [validate_email] accepts exactly the strings that begin with a
    non-empty part without at sign, an at sign, a non-empty part without at
    sign, a dot, and a non-empty part without at sign; what follows is not
    looked at. *)
Theorem validate_email_accepts :
  forall s : string,
    validate_email (Some s) = Ok s <->
    exists l d t rest,
      s = l ++ "@" ++ d ++ "." ++ t ++ rest
      /\ l <> "" /\ d <> "" /\ t <> ""
      /\ no_at l = true /\ no_at d = true /\ no_at t = true.
Proof.
  intros s. unfold no_at.
  assert (Hm : Re.matches EMAIL_REGEX s = true <->
               exists l d t rest,
                 s = l ++ "@" ++ d ++ "." ++ t ++ rest
                 /\ l <> "" /\ d <> "" /\ t <> ""
                 /\ negb (Repr.contains "@" l) = true
                 /\ negb (Repr.contains "@" d) = true
                 /\ negb (Repr.contains "@" t) = true).
  { unfold EMAIL_REGEX. rewrite matches_not_plus. split.
    - intros (l & r1 & -> & Hl & Hcl & (r2 & -> & H2)%matches_lit).
      apply matches_not_plus in H2 as (d & r3 & -> & Hd & Hcd & (r4 & -> & H4)%matches_lit).
      apply matches_not_plus in H4 as (t & rest & -> & Ht & Hct & _).
      exists l, d, t, rest. rewrite Hcl, Hcd, Hct. by rewrite ?app_cons, ?app_empty_l.
    - intros (l & d & t & rest & -> & Hl & Hd & Ht & Hcl & Hcd & Hct).
      apply negb_true_iff in Hcl, Hcd, Hct.
      exists l, ("@" ++ d ++ "." ++ t ++ rest). repeat split; [done..|].
      rewrite app_cons, app_empty_l. apply matches_lit. eexists. split; [done|].
      apply matches_not_plus. exists d, ("." ++ t ++ rest). repeat split; [done..|].
      rewrite app_cons, app_empty_l. apply matches_lit. eexists. split; [done|].
      apply matches_not_plus. exists t, rest. by repeat split. }
  rewrite <- Hm. unfold validate_email, client_error.
  destruct s as [|c s]; [split; [done | intros H; vm_compute in H; discriminate H]|].
  destruct (Re.matches EMAIL_REGEX (String c s)); cbn [negb]; split; done.
Qed.

(** X9: [validate_email] matches at the start of the string only: an
    accepted address stays accepted whatever is appended to it. *)
Theorem validate_email_ignores_what_follows :
  forall s r : string,
    validate_email (Some s) = Ok s ->
    validate_email (Some (s ++ r)) = Ok (s ++ r).
Proof.
  intros s r. unfold validate_email, client_error.
  destruct s as [|c s]; [done|]. rewrite app_cons.
  destruct (Re.matches EMAIL_REGEX (String c s)) eqn:Hm; [|done].
  intros _. rewrite <- app_cons. by rewrite (matches_extends _ _ r Hm).
Qed.

Lemma validate_email_ignores_what_follows_witness :
  validate_email (Some ("user@example.com" ++ "@@ not an address"))
  = Ok ("user@example.com" ++ "@@ not an address").
Proof.
  apply (validate_email_ignores_what_follows "user@example.com"
           "@@ not an address").
  reflexivity.
Defined.

(** ** Dates *)

Section Dates.

#[local] Open Scope Z_scope.

Ltac split_tests :=
  repeat match goal with
         | |- context [?x =? ?y] => destruct (Z.eqb_spec x y)
         | |- context [?x <? ?y] => destruct (Z.ltb_spec x y)
         | |- context [?x <=? ?y] => destruct (Z.leb_spec x y)
         end;
  cbn [andb orb negb].

Lemma decimal_value_digit_char k :
  Str.decimal_value (digit_char k) = Some (k mod 10).
Proof.
  unfold digit_char.
  assert (H : 0 <= k mod 10 < 10) by (apply Z.mod_pos_bound; lia).
  set (j := k mod 10) in *. clearbody j.
  assert (Hj : j = 0 \/ j = 1 \/ j = 2 \/ j = 3 \/ j = 4 \/ j = 5 \/ j = 6
               \/ j = 7 \/ j = 8 \/ j = 9) by lia.
  destruct Hj as [-> | [-> | [-> | [-> | [-> | [-> | [-> | [-> | [-> | -> ]]]]]]]]];
    reflexivity.
Qed.

Lemma zero_padded_4 n :
  zero_padded 4 n
  = String (digit_char (n / 10 / 10 / 10))
      (String (digit_char (n / 10 / 10))
         (String (digit_char (n / 10)) (String (digit_char n) ""))).
Proof. reflexivity. Qed.

Lemma year_group_zero_padded y rest :
  0 <= y <= 9999 ->
  year_group (zero_padded 4 y ++ rest) = [(y, rest)].
Proof.
  intros Hy. rewrite zero_padded_4, !app_cons, app_empty_l.
  cbn [year_group]. rewrite !decimal_value_digit_char.
  do 3 f_equal. Z.div_mod_to_equations. lia.
Qed.

(** Reading back a date that was written with [%Y-%m-%d]. *)
Lemma strptime_matches_strftime y m d :
  0 <= y <= 9999 -> 1 <= m <= 12 -> 1 <= d <= 31 ->
  exists more,
    strptime_matches
      (zero_padded 4 y ++ "-" ++ zero_padded 2 m ++ "-" ++ zero_padded 2 d)
    = (y, m, d, "") :: more.
Proof.
  intros Hy Hm Hd. unfold strptime_matches.
  rewrite (year_group_zero_padded y _ Hy).
  assert (Hm' : m = 1 \/ m = 2 \/ m = 3 \/ m = 4 \/ m = 5 \/ m = 6 \/ m = 7
                \/ m = 8 \/ m = 9 \/ m = 10 \/ m = 11 \/ m = 12) by lia.
  assert (Hd' : d = 1 \/ d = 2 \/ d = 3 \/ d = 4 \/ d = 5 \/ d = 6 \/ d = 7
                \/ d = 8 \/ d = 9 \/ d = 10 \/ d = 11 \/ d = 12 \/ d = 13
                \/ d = 14 \/ d = 15 \/ d = 16 \/ d = 17 \/ d = 18 \/ d = 19
                \/ d = 20 \/ d = 21 \/ d = 22 \/ d = 23 \/ d = 24 \/ d = 25
                \/ d = 26 \/ d = 27 \/ d = 28 \/ d = 29 \/ d = 30 \/ d = 31)
    by lia.
  clear Hy Hm Hd.
  repeat (destruct Hm' as [-> | Hm']; [|]); try subst m;
    repeat (destruct Hd' as [-> | Hd']; [|]); try subst d;
    vm_compute; eexists; reflexivity.
Qed.

Lemma strptime_strftime y m d h mi s us :
  valid_date y m d = true ->
  strptime_ymd (strftime_ymd (Datetime y m d h mi s us))
  = Some (Datetime y m d 0 0 0 0).
Proof.
  intros Hv. pose proof Hv as Hv'. unfold valid_date, MINYEAR, MAXYEAR in Hv'.
  assert (Hd : d <= 31).
  { unfold days_in_month, DAYS_IN_MONTH in Hv'.
    repeat (apply andb_true_iff in Hv' as [Hv' ?]).
    repeat case_match; lia. }
  repeat (apply andb_true_iff in Hv' as [Hv' ?]).
  unfold strptime_ymd, strftime_ymd. cbn [year month day].
  destruct (strptime_matches_strftime y m d) as [more ->]; [lia..|].
  by rewrite Hv.
Qed.

Lemma valid_date_spec y m d :
  valid_date y m d = true <->
  1 <= y <= 9999 /\ 1 <= m <= 12 /\ 1 <= d <= days_in_month y m.
Proof.
  unfold valid_date, MINYEAR, MAXYEAR. rewrite !andb_true_iff, !Z.leb_le. lia.
Qed.

(** Computes the tests on numerals. *)
Ltac numeral_tests :=
  repeat match goal with
         | |- context [Z.eqb (Z.pos ?a) (Z.pos ?b)] =>
             let v := eval vm_compute in (Z.eqb (Z.pos a) (Z.pos b)) in
             change (Z.eqb (Z.pos a) (Z.pos b)) with v
         | |- context [Z.ltb (Z.pos ?a) (Z.pos ?b)] =>
             let v := eval vm_compute in (Z.ltb (Z.pos a) (Z.pos b)) in
             change (Z.ltb (Z.pos a) (Z.pos b)) with v
         | |- context [Z.pos ?p - 1] =>
             let v := eval vm_compute in (Z.pos p - 1) in
             change (Z.pos p - 1) with v
         end;
  cbn [andb orb negb DAYS_BEFORE_MONTH DAYS_IN_MONTH].

(** The date of a day number in range is a date. *)
Lemma ord2ymd_valid n :
  1 <= n <= MAXORDINAL ->
  (let '(y, m, d) := ord2ymd n in valid_date y m d) = true.
Proof.
  intros Hrange. unfold MAXORDINAL in Hrange.
  unfold ord2ymd. cbv zeta. unfold DI400Y, DI100Y, DI4Y.
  set (n0 := n - 1).
  set (a := n0 / 146097). set (r1 := n0 mod 146097).
  set (b := r1 / 36524). set (r2 := r1 mod 36524).
  set (c := r2 / 1461). set (r3 := r2 mod 1461).
  set (d := r3 / 365). set (r4 := r3 mod 365).
  assert (Hn : n = 146097 * a + r1 + 1)
    by (unfold a, r1, n0; Z.div_mod_to_equations; lia).
  assert (Hr1 : 0 <= r1 < 146097) by (unfold r1; apply Z.mod_pos_bound; lia).
  assert (Er1 : r1 = 36524 * b + r2) by (unfold b, r2; Z.div_mod_to_equations; lia).
  assert (Hr2 : 0 <= r2 < 36524) by (unfold r2; apply Z.mod_pos_bound; lia).
  assert (Er2 : r2 = 1461 * c + r3) by (unfold c, r3; Z.div_mod_to_equations; lia).
  assert (Hr3 : 0 <= r3 < 1461) by (unfold r3; apply Z.mod_pos_bound; lia).
  assert (Er3 : r3 = 365 * d + r4) by (unfold d, r4; Z.div_mod_to_equations; lia).
  assert (Hr4 : 0 <= r4 < 365) by (unfold r4; apply Z.mod_pos_bound; lia).
  assert (Hb : 0 <= b <= 4) by (unfold b; Z.div_mod_to_equations; lia).
  assert (Hc : 0 <= c <= 24) by (unfold c; Z.div_mod_to_equations; lia).
  assert (Hd : 0 <= d <= 4) by (unfold d; Z.div_mod_to_equations; lia).
  assert (Ha : 0 <= a <= 24) by (unfold a, n0; Z.div_mod_to_equations; lia).
  clearbody a r1 b r2 c r3 d r4. clear n0.
  rewrite Z.shiftr_div_pow2 by lia. change (2 ^ 5) with 32.
  set (m := (r4 + 50) / 32).
  assert (Hm : 32 * m <= r4 + 50 < 32 * m + 32)
    by (unfold m; Z.div_mod_to_equations; lia).
  clearbody m.
  destruct (Z.eqb_spec d 4) as [Ed|Nd]; [|destruct (Z.eqb_spec b 4) as [Eb|Nb]];
    cbn [orb]; cbv beta iota.
  - apply valid_date_spec. unfold days_in_month. numeral_tests. lia.
  - apply valid_date_spec. unfold days_in_month. numeral_tests. lia.
  - replace (a * 400 + 1 + b * 100 + c * 4 + d)
      with (400 * a + 100 * b + 4 * c + d + 1) by lia.
    set (leap := (d =? 3) && (negb (c =? 24) || (b =? 3))).
    assert (Hleap : is_leap (400 * a + 100 * b + 4 * c + d + 1) = leap)
      by (apply is_leap_cycles; lia).
    assert (Hyear : 1 <= 400 * a + 100 * b + 4 * c + d + 1 <= 9999) by lia.
    clearbody leap.
    assert (Hm12 : m = 1 \/ m = 2 \/ m = 3 \/ m = 4 \/ m = 5 \/ m = 6 \/ m = 7
                   \/ m = 8 \/ m = 9 \/ m = 10 \/ m = 11 \/ m = 12) by lia.
    destruct Hm12
      as [-> | [-> | [-> | [-> | [-> | [-> | [-> | [-> | [-> | [-> | [-> | -> ]]]]]]]]]]];
      destruct leap; numeral_tests;
      match goal with
      | |- context [if ?t then _ else _] => destruct t eqn:Et
      end;
      apply valid_date_spec; unfold days_in_month; rewrite Hleap;
      numeral_tests;
      (apply Z.ltb_lt in Et || apply Z.ltb_ge in Et); lia.
Qed.

Lemma days_before_year_succ y :
  days_before_year (y + 1)
  = days_before_year y + 365 + (if is_leap y then 1 else 0).
Proof.
  unfold days_before_year, is_leap. cbv zeta.
  replace (y + 1 - 1) with y by lia.
  repeat match goal with
         | |- context [?x =? ?z] => destruct (Z.eqb_spec x z)
         end;
    cbn [andb orb negb]; Z.div_mod_to_equations; lia.
Qed.

Lemma days_before_year_mono y y' :
  y <= y' -> days_before_year y <= days_before_year y'.
Proof. intros H. unfold days_before_year. cbv zeta. Z.div_mod_to_equations. lia. Qed.

Lemma ymd2ord_within_year y m d :
  1 <= m <= 12 -> 1 <= d <= days_in_month y m ->
  days_before_year y < ymd2ord y m d <= days_before_year (y + 1).
Proof.
  intros Hm Hd. rewrite days_before_year_succ.
  unfold ymd2ord, days_before_month, days_in_month in *.
  assert (Hm12 : m = 1 \/ m = 2 \/ m = 3 \/ m = 4 \/ m = 5 \/ m = 6 \/ m = 7
                 \/ m = 8 \/ m = 9 \/ m = 10 \/ m = 11 \/ m = 12) by lia.
  destruct Hm12
    as [-> | [-> | [-> | [-> | [-> | [-> | [-> | [-> | [-> | [-> | [-> | -> ]]]]]]]]]]];
    destruct (is_leap y); cbn in Hd |- *; lia.
Qed.

Lemma ymd2ord_month_mono y m d m' d' :
  1 <= m -> m < m' -> m' <= 12 -> d <= days_in_month y m -> 1 <= d' ->
  ymd2ord y m d < ymd2ord y m' d'.
Proof.
  intros Hm Hlt Hm' Hd Hd'.
  unfold ymd2ord, days_before_month, days_in_month in *.
  assert (Hm12 : m = 1 \/ m = 2 \/ m = 3 \/ m = 4 \/ m = 5 \/ m = 6 \/ m = 7
                 \/ m = 8 \/ m = 9 \/ m = 10 \/ m = 11) by lia.
  assert (Hm12' : m' = 2 \/ m' = 3 \/ m' = 4 \/ m' = 5 \/ m' = 6 \/ m' = 7
                  \/ m' = 8 \/ m' = 9 \/ m' = 10 \/ m' = 11 \/ m' = 12) by lia.
  destruct (is_leap y);
    destruct Hm12
      as [-> | [-> | [-> | [-> | [-> | [-> | [-> | [-> | [-> | [-> | -> ]]]]]]]]]];
    destruct Hm12'
      as [-> | [-> | [-> | [-> | [-> | [-> | [-> | [-> | [-> | [-> | -> ]]]]]]]]]];
    try lia; cbn in Hd |- *; lia.
Qed.

(** Among dates, the day number grows with the date. *)
Lemma ymd2ord_lt y m d y' m' d' :
  valid_date y m d = true -> valid_date y' m' d' = true ->
  list_lt [y; m; d] [y'; m'; d'] = true ->
  ymd2ord y m d < ymd2ord y' m' d'.
Proof.
  intros (Hy & Hm & Hd)%valid_date_spec (Hy' & Hm' & Hd')%valid_date_spec.
  cbn [list_lt]. rewrite andb_false_r, orb_false_r.
  repeat (rewrite orb_true_iff || rewrite andb_true_iff).
  rewrite !Z.ltb_lt, !Z.eqb_eq.
  intros [Hlt | [-> [Hlt | [-> Hlt]]]].
  - pose proof (ymd2ord_within_year y m d Hm Hd).
    pose proof (ymd2ord_within_year y' m' d' Hm' Hd').
    pose proof (days_before_year_mono (y + 1) y' ltac:(lia)). lia.
  - apply ymd2ord_month_mono; lia.
  - unfold ymd2ord. lia.
Qed.

(** A date at midnight is before a moment exactly when its day is before
    the day of the moment, or the same day and the moment is past
    midnight. *)
Lemma lt_midnight y m d (now : Datetime.datetime) :
  Datetime.lt (Datetime y m d 0 0 0 0) now
  = list_lt [y; m; d] [year now; month now; day now]
    || ((y =? year now) && (m =? month now) && (d =? day now)
        && list_lt [0; 0; 0; 0] [hour now; minute now; second now; microsecond now]).
Proof.
  unfold Datetime.lt, fields. cbn [year month day hour minute second microsecond list_lt].
  destruct (y <? year now), (y =? year now), (m <? month now), (m =? month now),
    (d <? day now), (d =? day now); cbn [andb orb]; try reflexivity;
    by rewrite ?orb_false_r.
Qed.

Lemma list_lt_total3 y m d y' m' d' :
  list_lt [y; m; d] [y'; m'; d'] = false ->
  (y = y' /\ m = m' /\ d = d') \/ list_lt [y'; m'; d'] [y; m; d] = true.
Proof.
  cbn [list_lt]. split_tests; intros Hf; try discriminate Hf; try lia;
    (left; lia) || (right; reflexivity).
Qed.

(** Among dates, comparing year, month and day in this order is comparing
    the day numbers. *)
Lemma list_lt_ymd2ord y m d y' m' d' :
  valid_date y m d = true -> valid_date y' m' d' = true ->
  list_lt [y; m; d] [y'; m'; d'] = (ymd2ord y m d <? ymd2ord y' m' d').
Proof.
  intros Hv Hv'.
  destruct (list_lt [y; m; d] [y'; m'; d']) eqn:E; symmetry.
  - apply Z.ltb_lt. by apply ymd2ord_lt.
  - apply Z.ltb_ge. apply list_lt_total3 in E as [(-> & -> & ->) | E]; [lia|].
    apply ymd2ord_lt in E; [lia | done | done].
Qed.

Lemma same_day_ymd2ord y m d y' m' d' :
  valid_date y m d = true -> valid_date y' m' d' = true ->
  (y =? y') && (m =? m') && (d =? d') = (ymd2ord y m d =? ymd2ord y' m' d').
Proof.
  intros Hv Hv'.
  destruct (list_lt [y; m; d] [y'; m'; d']) eqn:E.
  - pose proof E as E'. apply ymd2ord_lt in E; [|done|done].
    rewrite (proj2 (Z.eqb_neq (ymd2ord y m d) (ymd2ord y' m' d'))) by lia.
    revert E'. cbn [list_lt]. split_tests; intros; try reflexivity;
      try discriminate; lia.
  - apply list_lt_total3 in E as [(-> & -> & ->) | E].
    + by rewrite !Z.eqb_refl.
    + pose proof E as E'. apply ymd2ord_lt in E; [|done|done].
      rewrite (proj2 (Z.eqb_neq (ymd2ord y m d) (ymd2ord y' m' d'))) by lia.
      revert E'. cbn [list_lt]. split_tests; intros; try reflexivity;
        try discriminate; lia.
Qed.

Lemma is_datetime_date t :
  is_datetime t = true -> valid_date (year t) (month t) (day t) = true.
Proof. unfold is_datetime. rewrite !andb_true_iff. tauto. Qed.

Lemma past_midnight t :
  is_datetime t = true ->
  list_lt [0; 0; 0; 0] [hour t; minute t; second t; microsecond t]
  = negb (midnight t).
Proof.
  unfold is_datetime, midnight. rewrite !andb_true_iff, !Z.leb_le, !Z.ltb_lt.
  intros Hf. cbn [list_lt]. split_tests; try reflexivity; lia.
Qed.

(** The start of a day compared with the clock. *)
Lemma lt_day_start y m d now :
  valid_date y m d = true -> is_datetime now = true ->
  Datetime.lt (Datetime y m d 0 0 0 0) now
  = (ymd2ord y m d <? toordinal now)
    || ((ymd2ord y m d =? toordinal now) && negb (midnight now)).
Proof.
  intros Hd Hnow. pose proof (is_datetime_date _ Hnow) as Hd'.
  rewrite lt_midnight, past_midnight by exact Hnow.
  rewrite list_lt_ymd2ord, same_day_ymd2ord by done.
  reflexivity.
Qed.

(** [add_days] gives [datetime] objects. *)
Lemma add_days_is_datetime t n t' :
  is_datetime t = true -> add_days t n = Some t' -> is_datetime t' = true.
Proof.
  intros Ht. unfold add_days. case_match eqn:Er; [|done].
  apply andb_true_iff in Er as [Hlo Hhi]. apply Z.leb_le in Hlo, Hhi.
  pose proof (ord2ymd_valid (toordinal t + n) (conj Hlo Hhi)) as Hv.
  destruct (ord2ymd (toordinal t + n)) as [[y m] d].
  intros [= <-]. revert Ht. unfold is_datetime.
  cbn [year month day hour minute second microsecond].
  rewrite Hv. rewrite !andb_true_iff. tauto.
Qed.

(** The date string of a later day is accepted. *)
Lemma validate_expiration_date_later_day now t :
  is_datetime now = true -> is_datetime t = true ->
  toordinal now < toordinal t ->
  validate_expiration_date now (Some (strftime_ymd t)) = Ok (strftime_ymd t).
Proof.
  intros Hnow Ht Hlt.
  pose proof (is_datetime_date _ Ht) as Hd.
  unfold validate_expiration_date.
  pose proof (strftime_ymd_length t) as Hlen.
  destruct (strftime_ymd t) as [|c s] eqn:Es; [discriminate Hlen|].
  rewrite <- Es. destruct t as [y m d h mi se us].
  rewrite strptime_strftime by exact Hd.
  rewrite lt_day_start by done.
  unfold toordinal in Hlt at 2. cbn [year month day] in Hlt.
  rewrite (proj2 (Z.ltb_ge (ymd2ord y m d) (toordinal now))) by lia.
  rewrite (proj2 (Z.eqb_neq (ymd2ord y m d) (toordinal now))) by lia.
  reflexivity.
Qed.

End Dates.

(** X10.  [validate_expiration_date] reads a date string as midnight of that
    day and compares it with the clock: the string of a day before today is
    rejected as expired, the string of a later day is accepted, and the
    string of today is rejected as expired too, unless the clock reads
    midnight exactly.  An accepted string is returned as it is. *)
Theorem expiration_date_is_compared_at_midnight :
  forall now t,
    is_datetime now = true -> is_datetime t = true ->
    validate_expiration_date now (Some (Datetime.strftime_ymd t))
    = if (Datetime.toordinal t <? Datetime.toordinal now)%Z
         || ((Datetime.toordinal t =? Datetime.toordinal now)%Z
             && negb (midnight now))
      then client_error "Expired token"
      else Ok (Datetime.strftime_ymd t).
Proof.
  intros now t Hnow Ht.
  pose proof (is_datetime_date _ Ht) as Hd.
  unfold validate_expiration_date.
  pose proof (strftime_ymd_length t) as Hlen.
  destruct (Datetime.strftime_ymd t) as [|c s] eqn:Es; [discriminate Hlen|].
  rewrite <- Es. destruct t as [y m d h mi se us].
  rewrite strptime_strftime by exact Hd.
  rewrite lt_day_start by done.
  reflexivity.
Qed.

Lemma expiration_date_is_compared_at_midnight_witness :
  validate_expiration_date sample_now (Some "2026-11-03")
  = client_error "Expired token".
Proof.
  exact (expiration_date_is_compared_at_midnight sample_now sample_now
           eq_refl eq_refl).
Defined.

(** X11.  The default expiration date of [request_application_token], the
    day 365 days after the clock reading, passes [validate_expiration_date]
    at the same clock reading, so it can be handed to
    [set_expiration_date]. *)
Theorem default_expiration_date_is_valid :
  forall now d,
    is_datetime now = true ->
    one_year_from now = Ok d ->
    validate_expiration_date now (Some d) = Ok d.
Proof.
  intros now d Hnow. unfold one_year_from.
  destruct (Datetime.add_days now 365) as [t|] eqn:Ea; [|discriminate].
  intros [= <-].
  apply validate_expiration_date_later_day; [done| |].
  - exact (add_days_is_datetime _ _ _ Hnow Ea).
  - rewrite (add_days_toordinal _ _ _ Ea). lia.
Qed.

Lemma default_expiration_date_is_valid_witness :
  validate_expiration_date sample_now (Some "2027-11-03") = Ok "2027-11-03".
Proof.
  exact (default_expiration_date_is_valid sample_now "2027-11-03"
           eq_refl eq_refl).
Defined.

(** ** The request helpers *)

Section Requests.

Lemma post_request_eq post url j self :
  post_request post url j self
  = (match session self with
     | None => api_error (JStr "Unknown error")
     | Some _ =>
         match post (Request url (Some j) (own_headers self)
                       (request_timeout self)) with
         | inr resp => Ok resp
         | inl err => transport_failure err
         end
     end, self).
Proof.
  unfold post_request, Mypermobil.headers, own_headers, str_attr. unfold_method.
  destruct (authenticated self) eqn:Ha; cbv beta iota; rewrite ?Ha;
    cbn [negb]; cbv beta iota;
    (destruct (session self); [|reflexivity]);
    (destruct (post _) as [[]|]; reflexivity).
Qed.

Lemma get_request_eq get url h self :
  get_request get url h self
  = (match session self with
     | None => api_error (JStr "Unknown error")
     | Some _ =>
         match get (Request url None
                      (match h with Some h => Some h | None => own_headers self end)
                      (request_timeout self)) with
         | inr resp => Ok resp
         | inl err => transport_failure err
         end
     end, self).
Proof.
  unfold get_request, Mypermobil.headers, own_headers, str_attr. unfold_method.
  destruct h as [h|];
    [|destruct (authenticated self) eqn:Ha; cbv beta iota; rewrite ?Ha;
      cbn [negb]; cbv beta iota];
    (destruct (session self); [|reflexivity]);
    (destruct (get _) as [[]|]; reflexivity).
Qed.

Lemma transport_failure_exception {A} err e :
  @transport_failure A err = Raise e -> is_transport_exception e.
Proof.
  unfold is_transport_exception.
  destruct err; intros [= <-]; cbn; auto.
Qed.

Lemma request_application_token_eq now post email code region application exp self :
  request_application_token now post email code region application exp self
  = if authenticated self then (client_error "Already authenticated", self)
    else
      match validate_email (or_attr email (Mypermobil.email self)) with
      | Raise e => (Raise e, self)
      | Ok e =>
          match validate_region (or_attr region (Mypermobil.region self)) with
          | Raise e => (Raise e, self)
          | Ok r =>
              match validate_code (or_attr code (Mypermobil.code self)) with
              | Raise e => (Raise e, self)
              | Ok c =>
                  request_application_token now
                    (fun _ => post (token_request self e c r
                                      (or_attr application (Mypermobil.application self))
                                      exp))
                    email code region application exp self
              end
          end
      end.
Proof.
  unfold request_application_token, post_request, token_request.
  destruct email as [em|], code as [cd|], region as [rg|], application as [ap|];
    cbn [or_attr]; unfold_method;
    (destruct (authenticated self) eqn:Ha; cbv beta iota; rewrite ?Ha;
     cbv beta iota; [reflexivity|]);
    (destruct (validate_email _) as [e|e] eqn:He; cbv beta iota; rewrite ?He;
     cbv beta iota; [|reflexivity]);
    (destruct (validate_region _) as [r|r] eqn:Hr; cbv beta iota; rewrite ?Hr;
     cbv beta iota; [|reflexivity]);
    (destruct (validate_code _) as [c|c] eqn:Hc; cbv beta iota; rewrite ?Hc;
     cbv beta iota; [|reflexivity]);
    reflexivity.
Qed.

(** Once the checks are passed, what the method makes of the answer to its
    request, whatever it is, leaves the client as it was. *)
Lemma request_application_token_sent now post email code region application exp
    self e r c :
  authenticated self = false ->
  validate_email (or_attr email (Mypermobil.email self)) = Ok e ->
  validate_region (or_attr region (Mypermobil.region self)) = Ok r ->
  validate_code (or_attr code (Mypermobil.code self)) = Ok c ->
  is_Some (session self) ->
  match post (token_request self e c r
                (or_attr application (Mypermobil.application self)) exp) with
  | inl err =>
      request_application_token now post email code region application exp self
      = (transport_failure err, self)
  | inr resp =>
      if (status resp =? 200)%Z then
        match body resp with
        | JObj members =>
            match exp with
            | Some d =>
                request_application_token now post email code region application
                  exp self
                = (Ok (members_get members "token" JNull, d), self)
            | None =>
                request_application_token now post email code region application
                  exp self
                = (d ← one_year_from now;
                   Ok (members_get members "token" JNull, d), self)
            end
        | _ =>
            request_application_token now post email code region application
              exp self
            = (Raise (Exception_ AttributeError (JStr "get")), self)
        end
      else
        exists x,
          request_application_token now post email code region application exp self
          = (Raise x, self)
          /\ is_client_error x = false
  end.
Proof.
  intros Ha He Hr Hc [s Hs].
  unfold request_application_token, post_request, token_request.
  destruct email as [em|], code as [cd|], region as [rg|], application as [ap|];
    cbn [or_attr] in *; unfold_method;
    repeat (first [rewrite Ha | rewrite Hs | rewrite He | rewrite Hr | rewrite Hc];
            cbv beta iota);
    (destruct (post _) as [[]|resp]; cbv beta iota; try reflexivity;
     destruct (status resp =? 200)%Z; cbv beta iota;
     [ destruct (body resp); cbn [json_get]; cbv beta iota; try reflexivity;
       destruct exp; cbv beta iota; try reflexivity;
       unfold mbind, result_bind; destruct (one_year_from now); reflexivity
     | destruct (status resp =? 401)%Z; cbv beta iota;
       [eexists; split; reflexivity|];
       destruct (status resp =? 403)%Z; cbv beta iota;
       [eexists; split; reflexivity|];
       destruct ((status resp =? 400)%Z || (status resp =? 500)%Z); cbv beta iota;
       [|eexists; split; reflexivity];
       destruct (body resp); cbn [json_get]; cbv beta iota;
       eexists; split; reflexivity ]).
Qed.

(** Once the checks are passed on a client whose session is closed, the
    method raises what [post_request] raises there. *)
Lemma request_application_token_closed now post email code region application exp
    self e r c :
  authenticated self = false ->
  validate_email (or_attr email (Mypermobil.email self)) = Ok e ->
  validate_region (or_attr region (Mypermobil.region self)) = Ok r ->
  validate_code (or_attr code (Mypermobil.code self)) = Ok c ->
  session self = None ->
  request_application_token now post email code region application exp self
  = (api_error (JStr "Unknown error"), self).
Proof.
  intros Ha He Hr Hc Hs.
  unfold request_application_token, post_request, token_request.
  destruct email as [em|], code as [cd|], region as [rg|], application as [ap|];
    cbn [or_attr] in *; unfold_method;
    repeat (first [rewrite Ha | rewrite Hs | rewrite He | rewrite Hr | rewrite Hc];
            cbv beta iota);
    reflexivity.
Qed.

(** A call that does not end with a usage error has passed the checks. *)
Lemma request_application_token_passed now post email code region application exp
    self v :
  fst (request_application_token now post email code region application exp self)
  = Ok v ->
  authenticated self = false
  /\ exists e r c,
      validate_email (or_attr email (Mypermobil.email self)) = Ok e
      /\ validate_region (or_attr region (Mypermobil.region self)) = Ok r
      /\ validate_code (or_attr code (Mypermobil.code self)) = Ok c.
Proof.
  rewrite request_application_token_eq.
  destruct (authenticated self); [discriminate|].
  destruct (validate_email _) as [e|x]; [|discriminate].
  destruct (validate_region _) as [r|x]; [|discriminate].
  destruct (validate_code _) as [c|x]; [|discriminate].
  intros _. split; [done|]. by exists e, r, c.
Qed.

End Requests.

(** X12.  [get_request] and [post_request] never change the client.  What
    they return is the answer of the open session of the client to one
    request, which carries the timeout of the client and, unless the call
    gives headers of its own, the [Authorization] header of an
    authenticated client and no headers at all otherwise.  What they raise
    is a [MyPermobilConnectionException], or the [MyPermobilAPIException]
    with the message [Unknown error], which is also what they raise on a
    closed session without consulting the service, or the cancellation of
    the call of the session, which passes the handlers: never a usage
    error. *)
Theorem request_helpers_outcome :
  forall (send : transport) (url : string) (j : json)
         (h : option (list (string * string))) (self : MyPermobil),
    (snd (post_request send url j self) = self
     /\ match fst (post_request send url j self) with
        | Ok resp =>
            is_Some (session self)
            /\ send (helper_request self url (Some j) None) = inr resp
        | Raise e =>
            is_transport_exception e /\ is_client_error e = false
            /\ (session self = None ->
                e = Exception_ MyPermobilAPIException (JStr "Unknown error"))
        end)
    /\ (snd (get_request send url h self) = self
        /\ match fst (get_request send url h self) with
           | Ok resp =>
               is_Some (session self)
               /\ send (helper_request self url None h) = inr resp
           | Raise e =>
               is_transport_exception e /\ is_client_error e = false
               /\ (session self = None ->
                   e = Exception_ MyPermobilAPIException (JStr "Unknown error"))
           end).
Proof.
  intros send url j h self. rewrite post_request_eq, get_request_eq.
  unfold helper_request. cbn [fst snd].
  split; (split; [reflexivity|]);
    (destruct (session self) as [s|] eqn:Hs;
     [|split; [by right; left|split; [reflexivity|done]]]);
    (destruct (send _) as [err|resp] eqn:E; [|by split; [eexists|]]);
    (destruct (transport_failure err) as [?|e] eqn:Ef; [by destruct err|]);
    (split; [by eapply transport_failure_exception|]);
    (split; [|discriminate]);
    destruct err; by injection Ef as <-.
Qed.

(** X13.  [request_application_token] never changes the client: the token
    it obtains is returned, not stored.  On an authenticated client, or
    when the email, the region or the code (given, or else the ones of the
    client) fails its validator, it raises a usage error and the service is
    not consulted; otherwise the service is consulted with exactly one
    request, the one of [token_request]. *)
Theorem request_application_token_guards :
  forall (now : Datetime.datetime) (post : transport)
         (email code region application expiration_date : option string)
         (self : MyPermobil),
    let run post :=
      request_application_token now post email code region application
        expiration_date self in
    let application := or_attr application (Mypermobil.application self) in
    snd (run post) = self
    /\ match authenticated self,
             validate_email (or_attr email (Mypermobil.email self)),
             validate_region (or_attr region (Mypermobil.region self)),
             validate_code (or_attr code (Mypermobil.code self)) with
       | false, Ok e, Ok r, Ok c =>
           forall post',
             post' (token_request self e c r application expiration_date)
             = post (token_request self e c r application expiration_date) ->
             run post' = run post
       | _, _, _, _ =>
           usage_error (run post) self /\ forall post', run post' = run post
       end.
Proof.
  intros now post email code region application exp self. cbv zeta.
  pose proof (request_application_token_eq now post email code region application
                exp self) as E.
  pose proof (fun post' => request_application_token_eq now post' email code region
                             application exp self) as E'.
  pose proof (request_application_token_sent now post email code region application
                exp self) as S.
  destruct (authenticated self) eqn:Ha.
  { rewrite E. split; [reflexivity|]. split.
    - eexists; split; [|reflexivity]; reflexivity.
    - intros post'. by rewrite E'. }
  destruct (validate_email _) as [e|x] eqn:He.
  2: { rewrite E. split; [reflexivity|]. split.
       - exists x; split; [by eapply validate_email_error | reflexivity].
       - intros post'. by rewrite E'. }
  destruct (validate_region _) as [r|x] eqn:Hr.
  2: { rewrite E. split; [reflexivity|]. split.
       - exists x; split; [by eapply validate_region_error | reflexivity].
       - intros post'. by rewrite E'. }
  destruct (validate_code _) as [c|x] eqn:Hc.
  2: { rewrite E. split; [reflexivity|]. split.
       - exists x; split; [by eapply validate_code_error | reflexivity].
       - intros post'. by rewrite E'. }
  split.
  - destruct (session self) as [s|] eqn:Hs.
    2: { by rewrite (request_application_token_closed _ _ _ _ _ _ _ _ e r c). }
    specialize (S e r c eq_refl eq_refl eq_refl eq_refl ltac:(by eexists)).
    destruct (post _) as [err|resp]; [by rewrite S|].
    destruct (status resp =? 200)%Z.
    + destruct (body resp), exp; rewrite S; try reflexivity.
      all: by destruct (one_year_from now).
    + by destruct S as (x & -> & _).
  - intros post' Hp. rewrite E', E, Hp. reflexivity.
Qed.

(** X14.  What a returned pair tells: the client was not authenticated and
    is unchanged; the email, the region and the code passed their
    validators; the service answered the request with status 200 and an
    object; the token is the member [token] of that object as it is,
    possibly [None], since the method applies no validator to it; and the
    date is the argument, or else the one 365 days after the clock. *)
Theorem request_application_token_success :
  forall (now : Datetime.datetime) (post : transport)
         (email code region application expiration_date : option string)
         (self self' : MyPermobil) (token : json) (date : string),
    request_application_token now post email code region application
      expiration_date self = (Ok (token, date), self') ->
    self' = self
    /\ authenticated self = false
    /\ exists e r c resp members,
        validate_email (or_attr email (Mypermobil.email self)) = Ok e
        /\ validate_region (or_attr region (Mypermobil.region self)) = Ok r
        /\ validate_code (or_attr code (Mypermobil.code self)) = Ok c
        /\ post (token_request self e c r
                   (or_attr application (Mypermobil.application self))
                   expiration_date) = inr resp
        /\ status resp = 200%Z
        /\ body resp = JObj members
        /\ token = members_get members "token" JNull
        /\ match expiration_date with
           | Some d => date = d
           | None => one_year_from now = Ok date
           end.
Proof.
  intros now post email code region application exp self self' tok date H.
  pose proof (request_application_token_eq now post email code region application
                exp self) as E.
  pose proof (request_application_token_sent now post email code region application
                exp self) as S.
  destruct (authenticated self) eqn:Ha; [rewrite E in H; discriminate|].
  destruct (validate_email _) as [e|x] eqn:He; [|rewrite E in H; discriminate].
  destruct (validate_region _) as [r|x] eqn:Hr; [|rewrite E in H; discriminate].
  destruct (validate_code _) as [c|x] eqn:Hc; [|rewrite E in H; discriminate].
  clear E.
  destruct (session self) as [s|] eqn:Hse.
  2: { by rewrite (request_application_token_closed _ _ _ _ _ _ _ _ e r c) in H. }
  revert H.
  specialize (S e r c eq_refl eq_refl eq_refl eq_refl ltac:(by eexists)).
  destruct (post _) as [err|resp] eqn:Hp.
  { rewrite S. by destruct err. }
  destruct (status resp =? 200)%Z eqn:Hs.
  2: { destruct S as (x & -> & _). discriminate. }
  apply Z.eqb_eq in Hs.
  destruct (body resp) as [| | | | |members] eqn:Hb; try (rewrite S; discriminate).
  destruct exp as [d|]; rewrite S.
  - intros [= <- <- <-]. split; [done|]. split; [done|].
    by exists e, r, c, resp, members.
  - destruct (one_year_from now) as [d|x] eqn:Hd; [|discriminate].
    intros [= <- <- <-]. split; [done|]. split; [done|].
    by exists e, r, c, resp, members.
Qed.

Lemma request_application_token_success_witness :
  exists members,
    Response 200 (JObj [("token", JStr T256)]) "" = Response 200 (JObj members) ""
    /\ JStr T256 = members_get members "token" JNull.
Proof.
  destruct (request_application_token_success sample_now sample_transport
              None None None None None (sample_client (Some "app"))
              (sample_client (Some "app")) (JStr T256) "2027-11-03" eq_refl)
    as (_ & _ & e & r & c & resp & members & _ & _ & _ & Hp & _ & Hb & Ht & _).
  exists members. injection Hp as <-. cbn in Hb. by rewrite Hb.
Defined.

(** X15.  The login flow.  On an unauthenticated client with a non-empty
    application name, when [request_application_token], called at the
    reading [now] of the clock with the email and the region of the client
    and no expiration date, returns a token that [validate_token] accepts,
    then handing the pair it returned to [set_token] and
    [set_expiration_date] and calling [self_authenticate], the three at one
    reading [now'] of the clock, succeeds whenever the calendar day of
    [now'] is before the day of the returned date, that is at most 364 days
    after the calendar day of [now], whatever the times of day: the client
    ends authenticated, holding the token and the date, and its headers
    carry the token. *)
Theorem token_request_then_authenticate :
  forall (now now' : Datetime.datetime) (post : transport)
         (code application : option string) (self : MyPermobil)
         (token date : string),
    is_datetime now = true ->
    is_datetime now' = true ->
    (Datetime.toordinal now' < Datetime.toordinal now + 365)%Z ->
    Str.truthy (Mypermobil.application self) = true ->
    validate_token (Some token) = Ok token ->
    fst (request_application_token now post None code None application None self)
    = Ok (JStr token, date) ->
    let self' :=
      with_authenticated true
        (with_expiration_date (Some date) (with_token (Some token) self)) in
    perform_all [ (now', SetToken (Some token));
                  (now', SetExpirationDate (Some date));
                  (now', SelfAuthenticate) ] self
    = ([Ok tt; Ok tt; Ok tt], self')
    /\ fst (headers self') = Ok [("Authorization", "Bearer " ++ token)].
Proof.
  intros now now' post code application self tok date Hnow Hnow' Hlt Happ Htok H.
  destruct (request_application_token_passed _ _ _ _ _ _ _ _ _ H)
    as (Ha & e & r & c & He & Hr & Hc).
  pose proof (request_application_token_sent now post None code None application
                None self e r c Ha He Hr Hc) as S.
  pose proof (request_application_token_closed now post None code None application
                None self e r c Ha He Hr Hc) as C.
  cbn [or_attr] in He, Hr.
  assert (Hdate : validate_expiration_date now' (Some date) = Ok date).
  { destruct (session self) as [s|] eqn:Hs; [|by rewrite C in H].
    specialize (S ltac:(by eexists)).
    destruct (post _) as [err|resp]; [rewrite S in H; by destruct err|].
    destruct (status resp =? 200)%Z.
    2: { destruct S as (x & S & _). rewrite S in H. discriminate H. }
    destruct (body resp); rewrite S in H; try discriminate H.
    cbn [fst] in H. unfold one_year_from in H.
    destruct (Datetime.add_days now 365) as [t|] eqn:Et; [|discriminate H].
    injection H as _ <-.
    apply validate_expiration_date_later_day; [done| |].
    - exact (add_days_is_datetime _ _ _ Hnow Et).
    - rewrite (add_days_toordinal _ _ _ Et). exact Hlt. }
  intros self'. split; [|reflexivity].
  cbn [perform_all perform].
  pose proof (set_token_spec (Some tok) self) as E1.
  rewrite Ha, Htok in E1. rewrite E1.
  pose proof (set_expiration_date_spec now' (Some date)
                (with_token (Some tok) self)) as E2.
  cbn [with_token authenticated] in E2. rewrite Ha, Hdate in E2.
  cbn [with_token]. rewrite E2.
  pose proof (self_authenticate_spec now'
                (with_expiration_date (Some date) (with_token (Some tok) self)))
    as E3.
  unfold credentials_valid in E3.
  cbn [with_token with_expiration_date authenticated Mypermobil.application
         Mypermobil.region Mypermobil.email Mypermobil.token
         Mypermobil.expiration_date] in E3.
  rewrite Ha, Happ, Hr, He, Htok, Hdate in E3. cbn [negb andb is_ok] in E3.
  cbn [with_token with_expiration_date]. rewrite E3. reflexivity.
Qed.

Lemma token_request_then_authenticate_witness :
  fst (self_authenticate sample_now
         (with_expiration_date (Some "2027-11-03")
            (with_token (Some T256) (sample_client (Some "app")))))
  = Ok tt.
Proof.
  pose proof (token_request_then_authenticate sample_now sample_now
                sample_transport None None (sample_client (Some "app"))
                T256 "2027-11-03" eq_refl eq_refl eq_refl eq_refl eq_refl eq_refl)
    as [H _].
  vm_compute in H. vm_compute. congruence.
Defined.

(** ** The application code and the endpoints *)

Section Code.

Lemma request_application_code_eq post email region application self :
  request_application_code post email region application self
  = if authenticated self then (client_error "Already authenticated", self)
    else if negb (Str.truthy (or_attr application (Mypermobil.application self)))
    then (client_error "Missing application name", self)
    else
      match validate_email (or_attr email (Mypermobil.email self)) with
      | Raise e => (Raise e, self)
      | Ok e =>
          match validate_region (or_attr region (Mypermobil.region self)) with
          | Raise e => (Raise e, self)
          | Ok r =>
              match session self with
              | None => (api_error (JStr "Unknown error"), self)
              | Some _ =>
                  match post (Request (r ++ ENDPOINT_APPLICATIONLINKS)
                                (Some (JObj [ ("username", JStr e);
                                              ("application",
                                               json_of_option
                                                 (or_attr application
                                                    (Mypermobil.application
                                                       self))) ]))
                                None (request_timeout self)) with
                  | inl err => (transport_failure err, self)
                  | inr resp =>
                      (if negb (status resp =? 204)%Z
                       then api_error (JStr (text resp)) else Ok tt, self)
                  end
              end
          end
      end.
Proof.
  unfold request_application_code, post_request.
  destruct email as [em|], region as [rg|], application as [ap|];
    cbn [or_attr]; unfold_method;
    (destruct (authenticated self) eqn:Ha; cbv beta iota; rewrite ?Ha;
     cbv beta iota; [reflexivity|]);
    (destruct (negb (Str.truthy _)) eqn:Hp; cbv beta iota; [reflexivity|]);
    (destruct (validate_email _) as [e|e] eqn:He; cbv beta iota; rewrite ?He;
     cbv beta iota; [|reflexivity]);
    (destruct (validate_region _) as [r|r] eqn:Hr; cbv beta iota; rewrite ?Hr;
     cbv beta iota; [|reflexivity]);
    rewrite ?Ha; cbv beta iota;
    (destruct (session self); cbv beta iota; [|reflexivity]);
    (destruct (post _) as [[]|resp]; cbv beta iota; try reflexivity);
    by destruct (negb (status resp =? 204)%Z).
Qed.

End Code.
Section Endpoint.

#[local] Open Scope Z_scope.

(** The body of [request_endpoint] on a client with a region. *)
Lemma request_endpoint_eq get e h self :
  request_endpoint get e h self
  = if negb (bool_decide (is_Some h)) && negb (authenticated self)
    then inr (client_error "Not authenticated", self)
    else
      match region self with
      | None =>
          inl (TypeError "unsupported operand type(s) for +: 'NoneType' and 'str'")
      | Some r =>
          match session self with
          | None => inr (api_error (JStr "Unknown error"), self)
          | Some _ =>
              match get (endpoint_request self r e) with
              | inl err => inr (transport_failure err, self)
              | inr resp =>
                  if (200 <=? status resp) && (status resp <? 300)
                  then inr (Ok (body resp), self)
                  else
                    inr (msg ← json_get (body resp) "error" (JStr (text resp));
                         api_error
                           (JStr ("Permobil API " ++ pretty.pretty_Z (status resp)
                                  ++ ": " ++ str_json msg)), self)
              end
          end
      end.
Proof.
  unfold request_endpoint, endpoint_request.
  assert (Hh : (if h is Some h0 then mret h0 else Mypermobil.headers) self
               = (if negb (bool_decide (is_Some h)) && negb (authenticated self)
                  then client_error "Not authenticated"
                  else Ok (default [("Authorization",
                                     "Bearer " ++ str_attr (token self))] h),
                  self)).
  { destruct h as [h|]; [reflexivity|].
    unfold Mypermobil.headers, str_attr. unfold_method.
    by destruct (authenticated self). }
  rewrite Hh. clear Hh.
  destruct (negb (bool_decide (is_Some h)) && negb (authenticated self));
    [reflexivity|].
  destruct (region self) as [r|]; [|reflexivity].
  f_equal.
  unfold mbind at 1. unfold method_bind. rewrite get_request_eq.
  destruct (session self); [|reflexivity].
  destruct (get _) as [err|resp]; [by destruct err|].
  cbv beta iota zeta.
  destruct ((200 <=? status resp) && (status resp <? 300)); [reflexivity|].
  unfold_method. by destruct (json_get _ _ _).
Qed.

End Endpoint.

(** X16.  [request_application_code] never changes the client, and it
    returns exactly when the client is not authenticated, the application
    name (given, or else the one of the client) is not empty, the email and
    the region pass their validators, the session of the client is open
    and the service answers the request of [code_request] with status 204;
    every other status raises, and so does a closed session. *)
Theorem request_application_code_outcome :
  forall (post : transport) (email region application : option string)
         (self : MyPermobil),
    let out := request_application_code post email region application self in
    snd out = self
    /\ (fst out = Ok tt <->
        authenticated self = false
        /\ is_Some (session self)
        /\ exists e r a resp,
            or_attr application (Mypermobil.application self) = Some a
            /\ a <> ""
            /\ validate_email (or_attr email (Mypermobil.email self)) = Ok e
            /\ validate_region (or_attr region (Mypermobil.region self)) = Ok r
            /\ post (code_request self e r a) = inr resp
            /\ status resp = 204%Z).
Proof.
  intros post email region application self. cbv zeta.
  rewrite request_application_code_eq. unfold code_request.
  destruct (authenticated self).
  { split; [reflexivity|]. split; [discriminate|]. by intros [? _]. }
  destruct (or_attr application (Mypermobil.application self)) as [[|c a]|] eqn:Ea;
    cbn [Str.truthy negb].
  1, 3: split; [reflexivity|]; split; [discriminate|];
        intros (_ & _ & e & r & a' & resp & [= <-] & Hne & _); done.
  destruct (validate_email _) as [e|x] eqn:He.
  2: { split; [reflexivity|]. split; [discriminate|].
       intros (_ & _ & e & r & a' & resp & _ & _ & [=] & _). }
  destruct (validate_region _) as [r|x] eqn:Hr.
  2: { split; [reflexivity|]. split; [discriminate|].
       intros (_ & _ & e' & r & a' & resp & _ & _ & _ & [=] & _). }
  cbn [json_of_option].
  destruct (session self) as [s|] eqn:Hse.
  2: { split; [reflexivity|]. split; [discriminate|].
       intros (_ & [s Hs'] & _). discriminate Hs'. }
  destruct (post _) as [err|resp] eqn:Hp.
  { split; [reflexivity|]. split; [by destruct err|].
    intros (_ & _ & e' & r' & a' & resp & [= <-] & _ & [= <-] & [= <-] & Hp' & _).
    rewrite Hp in Hp'. discriminate Hp'. }
  split; [reflexivity|]. cbn [fst].
  destruct (Z.eqb_spec (status resp) 204) as [Hs|Hs]; cbn [negb].
  - split; [|done]. intros _. split; [done|]. split; [by eexists|].
    exists e, r, (String c a), resp. done.
  - split; [discriminate|].
    intros (_ & _ & e' & r' & a' & resp' & [= <-] & _ & [= <-] & [= <-] & Hp'
            & Hs').
    rewrite Hp in Hp'. injection Hp' as <-. done.
Qed.

(** X17.  Once [close_session] has returned, every [get_request] of the
    client raises the [MyPermobilAPIException] with the message
    [Unknown error], whatever the address and the headers and without the
    service being consulted, and so does [request_endpoint] when it is given
    headers (on a client without a region it raises a [TypeError]
    instead). *)
Theorem closed_session_requests_fail :
  forall (self closed : MyPermobil) (get : transport) (url endpoint : string)
         (h : option (list (string * string))) (hh : list (string * string)),
    close_session self = (Ok tt, closed) ->
    get_request get url h closed = (api_error (JStr "Unknown error"), closed)
    /\ request_endpoint get endpoint (Some hh) closed
       = match region self with
         | Some _ => inr (api_error (JStr "Unknown error"), closed)
         | None =>
             inl (TypeError
                    "unsupported operand type(s) for +: 'NoneType' and 'str'")
         end.
Proof.
  intros self closed get url endpoint h hh.
  unfold close_session. unfold_method.
  destruct (session self) as [s|] eqn:Hs; [|discriminate].
  intros [= <-].
  rewrite get_request_eq, request_endpoint_eq.
  cbn [with_session session region bool_decide negb andb].
  split; [reflexivity|].
  rewrite bool_decide_true by eauto. cbn [negb andb].
  by destruct (region self).
Qed.

Lemma closed_session_requests_fail_witness :
  get_request sample_transport "https://eu.permobil.com/x" None
    (with_session None (sample_client (Some "app")))
  = (api_error (JStr "Unknown error"),
     with_session None (sample_client (Some "app"))).
Proof.
  exact (proj1 (closed_session_requests_fail
                  (sample_client (Some "app"))
                  (with_session None (sample_client (Some "app")))
                  sample_transport "https://eu.permobil.com/x" "/e" None []
                  eq_refl)).
Defined.

(** X18.  [request_endpoint] makes no use of the headers it is given: the
    request it sends carries the headers of the client itself (the
    [Authorization] header of an authenticated client, none otherwise), and
    its outcome depends on the service only through the answer to that one
    request.  On an authenticated client, passing headers or not makes no
    difference either. *)
Theorem request_endpoint_ignores_headers :
  forall (get get' : transport) (endpoint region : string)
         (h h' : list (string * string)) (self : MyPermobil),
    Mypermobil.region self = Some region ->
    get (endpoint_request self region endpoint)
    = get' (endpoint_request self region endpoint) ->
    request_endpoint get endpoint (Some h) self
    = request_endpoint get' endpoint (Some h') self
    /\ (authenticated self = true ->
        request_endpoint get endpoint None self
        = request_endpoint get endpoint (Some h) self).
Proof.
  intros get get' endpoint region h h' self Hr Hg.
  rewrite !request_endpoint_eq, Hr, Hg.
  rewrite !bool_decide_true by eauto. cbn [negb andb].
  split; [reflexivity|]. intros ->. cbn [negb andb].
  by rewrite andb_false_r.
Qed.

Lemma request_endpoint_ignores_headers_witness :
  request_endpoint sample_transport ENDPOINT_BATTERY_INFO
    (Some [("Authorization", "Bearer mine")]) (sample_client (Some "app"))
  = request_endpoint sample_transport ENDPOINT_BATTERY_INFO (Some [])
      (sample_client (Some "app")).
Proof.
  exact (proj1 (request_endpoint_ignores_headers sample_transport sample_transport
                  ENDPOINT_BATTERY_INFO "https://eu.permobil.com"
                  [("Authorization", "Bearer mine")] []
                  (sample_client (Some "app")) eq_refl eq_refl)).
Defined.

(** X19.  [request_endpoint] returns exactly when it is given headers or
    the client is authenticated, the client has a region and an open
    session, and the service answers the request with a status from 200 to
    299; what it returns is then the parsed body as it is, whether or not
    it has an [error] member, and the client is unchanged. *)
Theorem request_endpoint_success :
  forall (get : transport) (endpoint : string)
         (h : option (list (string * string))) (self self' : MyPermobil)
         (j : json),
    request_endpoint get endpoint h self = inr (Ok j, self')
    <-> self' = self
        /\ (is_Some h \/ authenticated self = true)
        /\ exists region resp,
            Mypermobil.region self = Some region
            /\ is_Some (session self)
            /\ get (endpoint_request self region endpoint) = inr resp
            /\ (200 <= status resp < 300)%Z
            /\ body resp = j.
Proof.
  intros get endpoint h self self' j. rewrite request_endpoint_eq.
  destruct (negb (bool_decide (is_Some h)) && negb (authenticated self)) eqn:Hg.
  { apply andb_true_iff in Hg as [Hh Ha].
    apply negb_true_iff, bool_decide_eq_false in Hh. apply negb_true_iff in Ha.
    split; [discriminate|]. intros (_ & [Hh' | Ha'] & _); [done|congruence]. }
  assert (Hcan : is_Some h \/ authenticated self = true).
  { apply andb_false_iff in Hg as [Hh | Ha].
    - left. by apply negb_false_iff, bool_decide_eq_true in Hh.
    - right. by apply negb_false_iff in Ha. }
  destruct (region self) as [r|] eqn:Hr.
  2: { split; [discriminate|]. by intros (_ & _ & r & resp & [=] & _). }
  destruct (session self) as [s|] eqn:Hs.
  2: { split; [discriminate|].
       intros (_ & _ & r' & resp & _ & [s Hs'] & _). discriminate Hs'. }
  destruct (get _) as [err|resp] eqn:Hp.
  { split; [by destruct err|].
    intros (_ & _ & r' & resp & [= <-] & _ & Hp' & _).
    rewrite Hp in Hp'. discriminate Hp'. }
  destruct (Z.leb_spec 200 (status resp)) as [Hlo|Hlo];
    destruct (Z.ltb_spec (status resp) 300) as [Hhi|Hhi]; cbn [andb].
  - split.
    + intros [= <- <-]. split; [done|]. split; [done|].
      exists r, resp. eauto 10.
    + intros (-> & _ & r' & resp' & [= <-] & _ & Hp' & _ & <-).
      rewrite Hp in Hp'. by injection Hp' as <-.
  - split.
    + intros H. exfalso. revert H. unfold mbind, result_bind.
      by destruct (json_get _ _ _).
    + intros (_ & _ & r' & resp' & [= <-] & _ & Hp' & Hst & _).
      rewrite Hp in Hp'. injection Hp' as <-. lia.
  - split.
    + intros H. exfalso. revert H. unfold mbind, result_bind.
      by destruct (json_get _ _ _).
    + intros (_ & _ & r' & resp' & [= <-] & _ & Hp' & Hst & _).
      rewrite Hp in Hp'. injection Hp' as <-. lia.
  - lia.
Qed.

(** ** The decorator, further *)

Section Followers.

#[local] Open Scope Z_scope.

(** What a leader leaves, whether the function completed or was
    cancelled. *)
Lemma leader_exit_any (w : world) key ev r :
  (ev < length (events w))%nat ->
  let w' := leader_exit w key ev r in
  CACHE w' = (if completes r
              then <[key := (stored r, clock w + ttl r)]> (CACHE w)
              else CACHE w)
  /\ is_set w' ev = true
  /\ CACHE_LOCKS w' = delete key (CACHE_LOCKS w)
  /\ clock w' = clock w
  /\ calls (history w') = calls (history w).
Proof.
  intros Hev. unfold leader_exit.
  destruct (completes r); cbn; repeat split;
    try (unfold is_set; cbn; by rewrite list_lookup_insert_eq);
    rewrite !calls_app; cbn; by rewrite !app_nil_r.
Qed.

End Followers.

(** X20.  Two callers of the same call on a store without an entry and an
    event for its key, in either order: one call of the function is made,
    the leader ends with its outcome [r], and the follower, when it wakes
    up, ends with what the store then holds under the key.  That is [r]
    when the function returned or raised an [Exception] and the entry is
    still alive (300 seconds for a result, 10 for an exception); it is
    [None] when the function was cancelled, since nothing is stored then,
    and when the follower wakes up after the lifetime of the entry. *)
Theorem follower_ends_with_the_stored_entry :
  forall (w : world) (call : invocation) (r : result json) (t1 t2 t3 t4 : Z)
         (first_is_leader : bool),
    let key := cache_key call in
    let i := if first_is_leader then 0%nat else 1%nat in
    let j := if first_is_leader then 1%nat else 0%nat in
    let follower :=
      if completes r && (t4 <? t3 + ttl r)%Z then r else Ok JNull in
    live_entry w t1 key = None ->
    CACHE_LOCKS w !! key = None ->
    (clock w <= t1)%Z -> (t1 <= t2)%Z -> (t2 <= t3)%Z -> (t3 <= t4)%Z ->
    exists w4,
      loop [Step i t1; Step j t2; Complete i t3 r; Step j t4]
        (w, [Ready (wrapper call); Ready (wrapper call)])
      = Some (w4, if first_is_leader
                  then [Finished r; Finished follower]
                  else [Finished follower; Finished r])
      /\ calls (history w4) = (calls (history w) ++ [call])%list
      /\ CACHE_LOCKS w4 !! key = None.
Proof.
  intros w call r t1 t2 t3 t4 first_is_leader key i j follower
    Hlive Hlock H01 H12 H23 H34.
  subst i j. set (ev := length (events w)).
  destruct (wrapper_leader (at_time w t1) call) as (k & Hrun1 & Hk).
  { by eapply misses_no_entry. }
  { done. }
  fold key in Hrun1, Hk.
  set (w1 := record_call (locks_set_new (at_time w t1) key) call) in *.
  destruct (wrapper_follower (at_time w1 t2) call ev) as (kf & Hrun2 & Hkf).
  { eapply misses_no_entry; [|done]. eapply live_entry_later; [exact Hlive|done]. }
  { cbn. apply lookup_insert_eq. }
  { unfold is_set. cbn. fold ev. by rewrite lookup_app_r, Nat.sub_diag. }
  fold key in Hkf.
  set (w2 := at_time (at_time w1 t2) t3).
  assert (Hev : (ev < length (events w2))%nat).
  { cbn. rewrite length_app. cbn. fold ev. lia. }
  destruct (leader_exit_any w2 key ev r Hev) as (Hc & Hs & Hl & Hclock & Hh).
  specialize (Hk w2 r ltac:(cbn; apply lookup_insert_eq)).
  set (w3 := leader_exit w2 key ev r) in *.
  assert (Hread : replay (store_get (at_time w3 t4) key) = follower).
  { unfold store_get, live_entry. cbn [CACHE at_time clock]. rewrite Hc.
    subst follower. destruct (completes r); cbn [andb].
    - rewrite lookup_insert_eq. change (clock w2) with t3.
      destruct (t4 <? t3 + ttl r)%Z; [apply replay_stored | reflexivity].
    - pose proof (live_entry_later w t1 t4 key Hlive ltac:(lia)) as Hlate.
      unfold live_entry in Hlate. change (CACHE w2) with (CACHE w).
      by rewrite Hlate. }
  assert (Hturn3 : forall n,
             take_turn w2 (Complete n t3 r) (InFlight call k)
             = Some (w3, Finished r)).
  { intros n. cbn [take_turn]. exact (f_equal Some Hk). }
  assert (Hturn4 : forall n,
             take_turn (at_time w3 t4) (Step n t4) (Blocked ev kf)
             = Some (at_time w3 t4, Finished follower)).
  { intros n. cbn [take_turn].
    assert (Hset4 : is_set (at_time w3 t4) ev = true) by exact Hs.
    by rewrite Hset4, Hkf, Hread. }
  exists (at_time w3 t4). split; [|split].
  - cbn [loop]. destruct first_is_leader.
    + erewrite (loop_turn_eq (Step 0 t1) _ _ (Ready (wrapper call)));
        [|cbn; lia|done|cbn [take_turn turn_time]; rewrite Hrun1; done].
      cbn [mbind option_bind].
      erewrite (loop_turn_eq (Step 1 t2) _ _ (Ready (wrapper call)));
        [|cbn; lia|done|cbn [take_turn turn_time]; rewrite Hrun2; done].
      cbn [mbind option_bind].
      erewrite (loop_turn_eq (Complete 0 t3 r) _ _ (InFlight call k));
        [|cbn; lia|done|exact (Hturn3 0%nat)].
      cbn [mbind option_bind].
      erewrite (loop_turn_eq (Step 1 t4) _ _ (Blocked ev kf));
        [|rewrite Hclock; cbn; lia|done|exact (Hturn4 1%nat)].
      reflexivity.
    + erewrite (loop_turn_eq (Step 1 t1) _ _ (Ready (wrapper call)));
        [|cbn; lia|done|cbn [take_turn turn_time]; rewrite Hrun1; done].
      cbn [mbind option_bind].
      erewrite (loop_turn_eq (Step 0 t2) _ _ (Ready (wrapper call)));
        [|cbn; lia|done|cbn [take_turn turn_time]; rewrite Hrun2; done].
      cbn [mbind option_bind].
      erewrite (loop_turn_eq (Complete 1 t3 r) _ _ (InFlight call k));
        [|cbn; lia|done|exact (Hturn3 1%nat)].
      cbn [mbind option_bind].
      erewrite (loop_turn_eq (Step 0 t4) _ _ (Blocked ev kf));
        [|rewrite Hclock; cbn; lia|done|exact (Hturn4 0%nat)].
      reflexivity.
  - cbn [history at_time]. rewrite Hh. cbn. by rewrite !calls_app, app_nil_r.
  - cbn [CACHE_LOCKS at_time]. rewrite Hl. apply lookup_delete_eq.
Qed.

Lemma follower_ends_with_the_stored_entry_witness :
  exists w4,
    loop [Step 0 1; Step 1 2;
          Complete 0 3 (Raise (Exception_ CancelledError JNull)); Step 1 4]
      (empty_world, [Ready (wrapper sample_call); Ready (wrapper sample_call)])
    = Some (w4, [Finished (Raise (Exception_ CancelledError JNull));
                 Finished (Ok JNull)]).
Proof.
  destruct (follower_ends_with_the_stored_entry empty_world sample_call
              (Raise (Exception_ CancelledError JNull)) 1 2 3 4 true)
    as (w4 & Hloop & _);
    [reflexivity | reflexivity | vm_compute; discriminate
    | vm_compute; discriminate | vm_compute; discriminate
    | vm_compute; discriminate |].
  exists w4. exact Hloop.
Defined.

(** X21.  A fetch touches the entries of its own key only.  When a single
    caller of [call] has fetched, whatever the outcome [r] of the function
    (a result, an exception or a cancellation), what the store and
    [CACHE_LOCKS] hold under the key of any other call is as before: at any
    later time a caller of that other call reads from the store what it
    would have read without the fetch. *)
Theorem fetch_leaves_other_keys :
  forall (w : world) (call call' : invocation) (r : result json) (t0 t1 : Z),
    cache_key call' <> cache_key call ->
    live_entry w t0 (cache_key call) = None ->
    CACHE_LOCKS w !! cache_key call = None ->
    (clock w <= t0)%Z -> (t0 <= t1)%Z ->
    exists w1,
      loop [Step 0 t0; Complete 0 t1 r] (w, [Ready (wrapper call)])
      = Some (w1, [Finished r])
      /\ CACHE_LOCKS w1 !! cache_key call' = CACHE_LOCKS w !! cache_key call'
      /\ forall t, store_get (at_time w1 t) (cache_key call')
                   = store_get (at_time w t) (cache_key call').
Proof.
  intros w call call' r t0 t1 Hne Hlive Hlock H0 H1.
  pose proof (one_caller w call r t0 t1 Hlive Hlock H0 H1) as Hloop.
  cbv zeta in Hloop.
  set (w0 := at_time (record_call (locks_set_new (at_time w t0) (cache_key call))
                        call) t1) in *.
  assert (Hev : (length (events w) < length (events w0))%nat).
  { cbn. rewrite length_app. cbn. lia. }
  destruct (leader_exit_any w0 (cache_key call) (length (events w)) r Hev)
    as (Hc & _ & Hl & _ & _).
  eexists. split; [exact Hloop|]. split.
  - rewrite Hl. cbn [CACHE_LOCKS w0 at_time record_call locks_set_new].
    rewrite lookup_delete_ne by done. by rewrite lookup_insert_ne.
  - intros t. unfold store_get, live_entry. cbn [CACHE at_time clock].
    rewrite Hc. destruct (completes r); [|reflexivity].
    by rewrite lookup_insert_ne.
Qed.

Lemma fetch_leaves_other_keys_witness :
  exists w1,
    loop [Step 0 1; Complete 0 2 (Ok (JObj []))]
      (empty_world, [Ready (wrapper sample_call)])
    = Some (w1, [Finished (Ok (JObj []))])
    /\ CACHE_LOCKS w1 !! cache_key sample_call_regions = None.
Proof.
  destruct (fetch_leaves_other_keys empty_world sample_call sample_call_regions
              (Ok (JObj [])) 1 2)
    as (w1 & Hloop & Hl & _);
    [vm_compute; discriminate | reflexivity | reflexivity
    | vm_compute; discriminate | vm_compute; discriminate |].
  exists w1. split; [exact Hloop | exact Hl].
Defined.

(** ** The regions *)

Section Regions.

#[local] Open Scope Z_scope.

Implicit Types (d : pydict region_info) (info : region_info).

Lemma eq_int_443 v : eq_int v 443 = true -> v = JNum 443.
Proof.
  destruct v as [|[]|n| | |]; cbn; try discriminate.
  by intros ->%Z.eqb_eq.
Qed.

Lemma key_eqb_refl k : unhashable k = None -> key_eqb k k = true.
Proof.
  destruct k as [|[]|n|s| |]; cbn; try done; intros _.
  - apply Z.eqb_refl.
  - apply String.eqb_refl.
Qed.

(** A round on a dictionary, and on anything else. *)
Lemma region_round_obj icons internal d members :
  region_round icons internal d (JObj members)
  = let get name := members_get members name JNull in
    if negb internal
       && (negb (eq_int (get "backendPort") 443)
           || negb (eq_str (get "serverType") "Production"))
    then inr (Ok d)
    else
      match unhashable (get "_id") with
      | Some t => inl t
      | None =>
          inr (Ok (dict_set d (get "_id")
                     ([ ("name", get "name"); ("port", get "backendPort");
                        ("url", JStr ((if eq_int (get "backendPort") 443
                                       then "https" else "http")
                                      ++ "://" ++ str_json (get "host"))) ]
                      ++ (if icons then [("icon", get "flag")] else []))%list))
      end.
Proof.
  unfold region_round, mbind, result_bind. cbn [json_get]. cbv beta iota zeta.
  destruct internal; cbn [negb andb]; cbv beta iota.
  - destruct (unhashable _); [reflexivity|]. destruct icons; by rewrite ?app_nil_r.
  - destruct (eq_int _ 443); cbn [negb orb]; cbv beta iota; [|reflexivity].
    destruct (eq_str _ _); cbn [negb]; cbv beta iota; [|reflexivity].
    destruct (unhashable _); [reflexivity|]. destruct icons; by rewrite ?app_nil_r.
Qed.

Lemma region_round_other icons internal d region :
  (forall members, region <> JObj members) ->
  region_round icons internal d region
  = inr (Raise (Exception_ AttributeError (JStr "get"))).
Proof.
  intros Hno. unfold region_round.
  destruct region; try (by destruct internal). by destruct (Hno members).
Qed.

Lemma dict_set_Forall {V} (K : json -> Prop) (P : V -> Prop) (d : pydict V) k v :
  K k -> P v ->
  Forall (fun kv => K (fst kv) /\ P (snd kv)) d ->
  Forall (fun kv => K (fst kv) /\ P (snd kv)) (dict_set d k v).
Proof.
  intros Hk Hv. induction 1 as [|[k' v'] d [Hk' Hv'] Hd IH]; cbn [dict_set].
  - by constructor.
  - destruct (key_eqb k' k); constructor; auto.
Qed.

Lemma dict_set_length {V} (d : pydict V) k v :
  (length (dict_set d k v) <= S (length d))%nat.
Proof.
  induction d as [|[k' v'] d IH]; cbn [dict_set]; [done|].
  destruct (key_eqb k' k); cbn [length]; lia.
Qed.

(** What the loop keeps true of the dictionary it builds. *)
Lemma regions_loop_kept icons internal items d d' :
  let kept kv :=
    unhashable (fst kv) = None
    /\ (region_info_of icons (snd kv)
        /\ (internal = false -> https_region (snd kv))) in
  Forall kept d ->
  regions_loop icons internal items d = inr (Ok d') ->
  Forall kept d' /\ (length d' <= length d + length items)%nat.
Proof.
  intros kept. revert d.
  induction items as [|region items IH]; intros d Hd; cbn [regions_loop].
  { intros [= <-]. split; [done|lia]. }
  destruct region as [| | | | |members];
    try (rewrite region_round_other by done; discriminate).
  rewrite region_round_obj. cbv zeta.
  destruct (negb internal && _) eqn:Hskip.
  { intros H. destruct (IH d Hd H) as [? ?]. split; [done|cbn [length]; lia]. }
  destruct (unhashable _) as [t|] eqn:Hkey; [discriminate|].
  intros H.
  match type of H with
  | regions_loop _ _ _ (dict_set _ ?k ?v) = _ =>
      assert (Hnew : Forall kept (dict_set d k v));
      [|destruct (IH _ Hnew H) as [? Hlen]; split; [done|];
        pose proof (dict_set_length d k v); cbn [length]; lia]
  end.
  apply (dict_set_Forall (fun k => unhashable k = None)
           (fun v => region_info_of icons v /\ (internal = false -> https_region v)));
    [exact Hkey| |exact Hd].
  split.
  - eexists _, _, _, (members_get members "flag" JNull). reflexivity.
  - intros ->. cbn [negb andb] in Hskip.
    apply orb_false_iff in Hskip as [Hport _].
    apply negb_false_iff in Hport. rewrite Hport.
    apply eq_int_443 in Hport. split.
    + by destruct icons.
    + eexists. by destruct icons.
Qed.

Lemma dict_get_elem {V} (d : pydict V) k :
  Forall (fun kv => unhashable (fst kv) = None) d ->
  k ∈ map fst d ->
  exists k' v, dict_get d k = Some v /\ (k', v) ∈ d.
Proof.
  induction 1 as [|[k0 v0] d Hk0 Hd IH]; cbn [map fst dict_get].
  { by intros ?%elem_of_nil. }
  intros Hin. destruct (key_eqb k0 k) eqn:Heq.
  - exists k0, v0. split; [done|]. apply list_elem_of_here.
  - apply elem_of_cons in Hin as [-> | Hin].
    + cbn [fst] in Hk0. by rewrite key_eqb_refl in Heq.
    + destruct (IH Hin) as (k' & v & Hget & Hel).
      exists k', v. split; [done|]. by apply list_elem_of_further.
Qed.

(** The comprehension never misses a key it iterates over; it stops on a
    name that is not hashable only. *)
Lemma names_loop_kept (Q : json -> Prop) (P : region_info -> Prop)
    regions ids names :
  Forall (fun kv => unhashable (fst kv) = None /\ P (snd kv)) regions ->
  (forall info, P info -> Q (members_get info "url" JNull)) ->
  Forall (fun k => k ∈ map fst regions) ids ->
  Forall (fun kv => True /\ Q (snd kv)) names ->
  match names_loop regions ids names with
  | inl t =>
      exists kv, kv ∈ regions
                 /\ unhashable (members_get (snd kv) "name" JNull) = Some t
  | inr (Raise _) => False
  | inr (Ok names') =>
      Forall (fun kv => True /\ Q (snd kv)) names'
      /\ (length names' <= length names + length ids)%nat
  end.
Proof.
  intros Hreg HQ Hids. revert names.
  induction Hids as [|k ids Hk Hids IH]; intros names Hnames; cbn [names_loop].
  { split; [done|lia]. }
  destruct (dict_get_elem regions k) as (k' & info & Hget & Hel); [|done|].
  { eapply Forall_impl; [exact Hreg|]. by intros ? [? _]. }
  unfold region_lookup. rewrite Hget. cbn [mbind result_bind].
  unfold mbind, result_bind.
  destruct (unhashable (members_get info "name" JNull)) as [t|] eqn:Hname.
  { by exists (k', info). }
  assert (HP : P info).
  { rewrite Forall_forall in Hreg. by destruct (Hreg _ Hel) as [_ ?]. }
  match goal with
  | |- context [names_loop _ _ (dict_set ?n ?a ?b)] =>
      specialize (IH (dict_set n a b));
      pose proof (dict_set_length n a b) as Hlen
  end.
  destruct (names_loop _ _ _) as [t|[names'|e]].
  - apply IH. apply (dict_set_Forall (fun _ => True) Q); auto.
  - destruct IH as [? ?]; [apply (dict_set_Forall (fun _ => True) Q); auto|].
    split; [done|]. cbn [length]. lia.
  - apply IH. apply (dict_set_Forall (fun _ => True) Q); auto.
Qed.

Lemma request_regions_eq get icons internal self :
  request_regions get icons internal self
  = match session self with
    | None => inr (api_error (JStr "Unknown error"), self)
    | Some _ =>
        match get (regions_request self) with
        | inl err => inr (transport_failure err, self)
        | inr resp =>
            if status resp =? 200 then
              match iterate (body resp) with
              | inl t => inl t
              | inr items =>
                  match regions_loop icons internal items [] with
                  | inl t => inl t
                  | inr (Raise e) => inr (Raise e, self)
                  | inr (Ok regions) => inr (Ok (Some regions), self)
                  end
              end
            else if (status resp =? 404) || (status resp =? 500)
            then inr (api_error (JStr (text resp)), self)
            else inr (Ok None, self)
        end
    end.
Proof.
  unfold request_regions, regions_request. rewrite get_request_eq.
  destruct (session self); [|reflexivity].
  destruct (get _) as [err|resp]; [by destruct err|reflexivity].
Qed.

End Regions.

(** X22.  [request_regions] sends the service one request, for the address
    [GET_REGIONS], with an empty dictionary of headers: the token of an
    authenticated client is not sent with it.  Its outcome depends on the
    service through the answer to that request only, and it leaves the
    client as it was. *)
Theorem request_regions_sends_no_credentials :
  forall (get get' : transport) (include_icons include_internal : bool)
         (self : MyPermobil),
    get (regions_request self) = get' (regions_request self) ->
    request_regions get include_icons include_internal self
    = request_regions get' include_icons include_internal self
    /\ request_headers (regions_request self) = Some []
    /\ forall out self',
        request_regions get include_icons include_internal self
        = inr (out, self') ->
        self' = self.
Proof.
  intros get get' icons internal self Hg.
  rewrite !request_regions_eq, Hg. split; [reflexivity|]. split; [reflexivity|].
  intros out self'.
  destruct (session self); [|by intros [= _ <-]].
  destruct (get' _) as [err|resp]; [by intros [= _ <-]|].
  destruct (status resp =? 200)%Z.
  - destruct (iterate _) as [t|items]; [discriminate|].
    destruct (regions_loop _ _ _ _) as [t|[d|e]]; [discriminate| |];
      by intros [= _ <-].
  - destruct (_ || _); by intros [= _ <-].
Qed.

Lemma request_regions_sends_no_credentials_witness :
  request_headers (regions_request (sample_client (Some "app"))) = Some [].
Proof.
  exact (proj1 (proj2 (request_regions_sends_no_credentials
                         sample_transport sample_transport false false
                         (sample_client (Some "app")) eq_refl))).
Defined.

(** X23.  When the service answers the request for the regions with a
    status other than 200, 404 and 500, [request_regions] raises nothing and
    returns [None]; the comprehension of [request_region_names] over that
    result raises a [TypeError]. *)
Theorem request_regions_unexpected_status :
  forall (get : transport) (include_icons include_internal : bool)
         (self : MyPermobil) (resp : response),
    is_Some (session self) ->
    get (regions_request self) = inr resp ->
    status resp <> 200%Z -> status resp <> 404%Z -> status resp <> 500%Z ->
    request_regions get include_icons include_internal self = inr (Ok None, self)
    /\ forall regions self',
        request_regions get include_icons include_internal self
        = inr (Ok regions, self') ->
        region_names regions
        = inl (TypeError "'NoneType' object is not iterable").
Proof.
  intros get icons internal self resp [s Hs] Hg H200 H404 H500.
  rewrite request_regions_eq, Hs, Hg.
  rewrite (proj2 (Z.eqb_neq _ _) H200), (proj2 (Z.eqb_neq _ _) H404),
    (proj2 (Z.eqb_neq _ _) H500).
  cbn [orb]. split; [reflexivity|]. by intros regions self' [= <- _].
Qed.

Lemma request_regions_unexpected_status_witness :
  request_regions (fun _ => inr (Response 503 JNull "Service Unavailable"))
    false false (sample_client (Some "app"))
  = inr (Ok None, sample_client (Some "app")).
Proof.
  refine (proj1 (request_regions_unexpected_status
                   (fun _ => inr (Response 503 JNull "Service Unavailable"))
                   false false (sample_client (Some "app"))
                   (Response 503 JNull "Service Unavailable")
                   _ eq_refl _ _ _)).
  - by eexists.
  - vm_compute; discriminate.
  - vm_compute; discriminate.
  - vm_compute; discriminate.
Defined.

(** X24.  Every region in the dictionary [request_regions] returns has a
    key that is hashable and holds the name, the port and the address of the
    region, and its flag exactly when icons are asked for; the address
    starts with [https://] when the port is 443 and with [http://]
    otherwise.  Unless internal regions are asked for, every region
    returned has the port 443 and so an [https] address.  There are at most
    as many regions as the answer has elements. *)
Theorem request_regions_entries :
  forall (get : transport) (include_icons include_internal : bool)
         (self self' : MyPermobil) (regions : pydict region_info),
    request_regions get include_icons include_internal self
    = inr (Ok (Some regions), self') ->
    Forall (fun kv =>
              unhashable (fst kv) = None
              /\ (region_info_of include_icons (snd kv)
                  /\ (include_internal = false -> https_region (snd kv))))
      regions
    /\ exists resp items,
        get (regions_request self) = inr resp
        /\ iterate (body resp) = inr items
        /\ (length regions <= length items)%nat.
Proof.
  intros get icons internal self self' regions. rewrite request_regions_eq.
  destruct (session self); [|discriminate].
  destruct (get _) as [err|resp]; [by destruct err|].
  destruct (status resp =? 200)%Z.
  2: { destruct (_ || _); discriminate. }
  destruct (iterate _) as [t|items] eqn:Hit; [discriminate|].
  destruct (regions_loop _ _ _ _) as [t|[d|e]] eqn:Hloop; try discriminate.
  intros [= -> _].
  destruct (regions_loop_kept icons internal items [] regions
              (Forall_nil_2 _) Hloop) as [Hkept Hlen].
  split; [exact Hkept|]. exists resp, items. cbn [length] in Hlen. done.
Qed.

Lemma request_regions_entries_witness :
  Forall (fun kv =>
            unhashable (fst kv) = None
            /\ (region_info_of false (snd kv)
                /\ (false = false -> https_region (snd kv))))
    sample_regions.
Proof.
  exact (proj1 (request_regions_entries sample_regions_transport false false
                  (sample_client (Some "app")) (sample_client (Some "app"))
                  sample_regions eq_refl)).
Defined.

(** X25.  Over the dictionary [request_regions] returns without icons, the
    comprehension of [request_region_names] never misses a key: it returns
    a dictionary from names to addresses with at most as many entries as
    there are regions, or it raises a [TypeError] because the name of some
    region is a list or a dictionary.  Unless internal regions are asked
    for, every address in it starts with [https://]. *)
Theorem region_names_of_regions :
  forall (get : transport) (include_internal : bool)
         (self self' : MyPermobil) (regions : pydict region_info),
    request_regions get false include_internal self
    = inr (Ok (Some regions), self') ->
    match region_names (Some regions) with
    | inl t =>
        exists kv, kv ∈ regions
                   /\ unhashable (members_get (snd kv) "name" JNull) = Some t
    | inr (Raise _) => False
    | inr (Ok names) =>
        (length names <= length regions)%nat
        /\ (include_internal = false ->
            Forall (fun kv => exists host, snd kv = JStr ("https://" ++ host))
              names)
    end.
Proof.
  intros get internal self self' regions. rewrite request_regions_eq.
  destruct (session self); [|discriminate].
  destruct (get _) as [err|resp]; [by destruct err|].
  destruct (status resp =? 200)%Z.
  2: { destruct (_ || _); discriminate. }
  destruct (iterate _) as [t|items] eqn:Hit; [discriminate|].
  destruct (regions_loop _ _ _ _) as [t|[d|e]] eqn:Hloop; try discriminate.
  intros [= -> _].
  destruct (regions_loop_kept false internal items [] regions
              (Forall_nil_2 _) Hloop) as [Hkept _].
  cbn [region_names].
  pose proof (names_loop_kept
                (fun u => internal = false ->
                          exists host, u = JStr ("https://" ++ host))
                (fun info => region_info_of false info
                             /\ (internal = false -> https_region info))
                regions (map fst regions) [] Hkept) as Hnames.
  destruct (names_loop _ _ _) as [t|[names|e]].
  - apply Hnames; [|by apply Forall_forall|done].
    intros info [_ Hhttps] Hint. by destruct (Hhttps Hint) as [_ ?].
  - destruct Hnames as [HQ Hlen]; [|by apply Forall_forall|done|].
    { intros info [_ Hhttps] Hint. by destruct (Hhttps Hint) as [_ ?]. }
    split.
    + rewrite length_map in Hlen. cbn [length] in Hlen. lia.
    + intros Hint. eapply Forall_impl; [exact HQ|].
      intros kv [_ H]. by apply H.
  - apply Hnames; [|by apply Forall_forall|done].
    intros info [_ Hhttps] Hint. by destruct (Hhttps Hint) as [_ ?].
Qed.

Lemma region_names_of_regions_witness :
  Forall (fun kv : json * json => exists host, snd kv = JStr ("https://" ++ host))
    [(JStr "Europe", JStr "https://eu.permobil.com")].
Proof.
  pose proof (region_names_of_regions sample_regions_transport false
                (sample_client (Some "app")) (sample_client (Some "app"))
                sample_regions eq_refl) as H.
  assert (E : region_names (Some sample_regions)
              = inr (Ok [(JStr "Europe", JStr "https://eu.permobil.com")]))
    by reflexivity.
  rewrite E in H. exact (proj2 H eq_refl).
Defined.

(** ** A new client *)

(** X26.  A client is never authenticated by its constructor, whatever
    credentials it is given: until [self_authenticate] has succeeded,
    [headers], [deauthenticate], [request_item] without headers and
    [request_endpoint] without headers raise the usage error
    [Not authenticated], and the request helpers send no [Authorization]
    header. *)
Theorem new_client_is_not_authenticated :
  forall (application : option string) (session : option positive)
         (email region code token expiration_date : option string)
         (request_timeout : Z) (get : transport) (item endpoint : string),
    let self :=
      init application session email region code token expiration_date
        request_timeout in
    headers self = (client_error "Not authenticated", self)
    /\ deauthenticate self = (client_error "Not authenticated", self)
    /\ request_item_target item None None self
       = (client_error "Not authenticated", self)
    /\ request_endpoint get endpoint None self
       = inr (client_error "Not authenticated", self)
    /\ own_headers self = None.
Proof.
  intros application session email region code token expiration_date
    request_timeout get item endpoint self.
  split; [reflexivity|]. split; [reflexivity|]. split.
  - by rewrite request_item_target_without_endpoint.
  - split; [|reflexivity]. by rewrite request_endpoint_eq.
Qed.
